(** * ArrowFragmentLoader: a shallow embedding of
      modules/graph/loader/arrow_fragment_loader.h

    The loader reads per-worker tables, reconciles their schemas
    ([SyncSchema], [FindMostCommonSchema]), shuffles rows to their owners,
    re-indexes the received tables by label and publishes a fragment group
    ([constructFragmentGroup]).  Arrow, MPI and the object store are
    collaborators: their operations appear here as an interface
    ([ArrowLib]) or as explicit lists of what each worker contributes to a
    collective. *)

From Stdlib Require Import ZArith String Ascii List Lia Bool OrdersEx.
From Stdlib Require Import Sorting.Sorted Sorting.Permutation.
From stdpp Require Import gmap strings list sorting.
Import ListNotations.

Open Scope Z_scope.

(** ** Strings ordered as [std::string::operator<] orders them *)

Module StrOrd.

(** Lexicographic comparison of the bytes, shorter prefix first. *)
Definition lt (a b : string) : bool :=
  match String_as_OT.compare a b with Lt => true | _ => false end.

(** [le a b] is "not b < a", the relation a sorted range satisfies. *)
Definition le (a b : string) : Prop := lt b a = false.

End StrOrd.

(** ** The Arrow interface the loader relies on

    [DataType] with its [ToString] and [Equals], the cell values of a
    column, the IPC (de)serialisation of a schema, and [std::sort].  None
    of these is defined in the loader; they are the operations of the
    libraries it calls. *)

Class ArrowLib := {
  DataType : Type;
  (** [arrow::DataType::ToString] *)
  ToString : DataType -> string;
  (** [arrow::DataType::Equals] *)
  Equals : DataType -> DataType -> bool;
  (** [type->id() == arrow::Type::NA] *)
  is_null_type : DataType -> bool;
  (** a non-null cell value *)
  Scalar : Type;
  (** [std::sort(first, last, comp)] *)
  std_sort : forall A : Type, (A -> A -> bool) -> list A -> list A;
}.

Section Schema.
Context `{AL : ArrowLib}.

Record Field := mkField {
  name : string;
  type : DataType;
  nullable : bool;
}.

Definition KeyValueMetadata := list (string * string).

Record Schema := mkSchema {
  fields : list Field;
  metadata : option KeyValueMetadata;
}.

Definition num_fields (s : Schema) : nat := length (fields s).

(** [Schema::field(i)]; the index is not checked by Arrow, so an index out
    of range has no defined result. *)
Definition field (s : Schema) (i : nat) : option Field := fields s !! i.

(** *** FindMostCommonSchema (lines 138-189) *)

(** Lines 140-146: the field count of the first non-null schema. *)
Fixpoint first_field_num (schemas : list (option Schema)) : nat :=
  match schemas with
  | [] => 0%nat
  | Some s :: _ => num_fields s
  | None :: rest => first_field_num rest
  end.

(** Lines 150-155: [fields[i]], the [i]-th field of every non-null schema
    in worker order. *)
Fixpoint collect_fields (i : nat) (schemas : list (option Schema))
  : option (list Field) :=
  match schemas with
  | [] => Some []
  | None :: rest => collect_fields i rest
  | Some s :: rest =>
      f ← field s i;
      fs ← collect_fields i rest;
      Some (f :: fs)
  end.

(** Lines 160-163: the comparator handed to [std::sort]. *)
Definition type_string_lt (lhs rhs : Field) : bool :=
  StrOrd.lt (ToString (type lhs)) (ToString (type rhs)).

(** Lines 168-184: the linear traversal.  [prev] is [fields[i][j - 1]],
    [rest] what is left from index [j] on; at the end [prev] is
    [fields[i].back()]. *)
Fixpoint scan_runs (prev : Field) (rest : list Field)
    (max_count curr_count : Z) (res : Field) : Field :=
  match rest with
  | [] => if curr_count >? max_count then prev else res
  | f :: rest' =>
      if Equals (type f) (type prev)
      then scan_runs f rest' max_count (curr_count + 1) res
      else if curr_count >? max_count
           then scan_runs f rest' curr_count 1 prev
           else scan_runs f rest' max_count 1 res
  end.

(** Lines 166-185, after the sort; [fields[i][0]] of an empty vector has no
    defined result. *)
Definition most_frequent (sorted : list Field) : option Field :=
  match sorted with
  | [] => None
  | f0 :: rest => Some (scan_runs f0 rest 1 1 f0)
  end.

Definition most_common_field (i : nat) (schemas : list (option Schema))
  : option Field :=
  fs ← collect_fields i schemas;
  most_frequent (std_sort Field type_string_lt fs).

(** The whole function.  The result is built by
    [std::make_shared<arrow::Schema>(most_common_fields)], which carries no
    metadata. *)
Definition FindMostCommonSchema (schemas : list (option Schema))
  : option Schema :=
  let field_num := first_field_num schemas in
  most_common_fields ← mapM (fun i => most_common_field i schemas)
                            (seq 0 field_num);
  Some {| fields := most_common_fields; metadata := None |}.

(** *** What the result of [FindMostCommonSchema] is measured against *)

(** The number of fields of [l] whose type [Equals] [t]. *)
Fixpoint count_type (t : DataType) (l : list Field) : Z :=
  match l with
  | [] => 0
  | f :: l' => (if Equals (type f) t then 1 else 0) + count_type t l'
  end.

(** The fields contributed at position [i]: one by every non-null schema
    that has a field there. *)
Definition contributed (i : nat) (schemas : list (option Schema))
  : list Field :=
  omap (fun os => os ≫= fun s => fields s !! i) schemas.

(** [r] is one of the fields of [l], no type occurs in [l] more often than
    the type of [r], and among the types that occur as often, the type of
    [r] is the one whose string sorts first. *)
Definition modal_at (r : Field) (l : list Field) : Prop :=
  r ∈ l /\
  forall f, f ∈ l ->
    count_type (type f) l <= count_type (type r) l /\
    (count_type (type f) l = count_type (type r) l ->
     StrOrd.le (ToString (type r)) (ToString (type f))).

(** No non-null schema has fewer fields than the first non-null one, so
    that every [schemas[j]->field(i)] of lines 149-156 is in range. *)
Definition wide_enough (schemas : list (option Schema)) : Prop :=
  forall s, Some s ∈ schemas -> (first_field_num schemas <= num_fields s)%nat.




End Schema.

(** ** Tables *)

Section Table.
Context `{AL : ArrowLib}.

(** A column: one cell per row, [None] for a null cell. *)
Definition ChunkedArray := list (option Scalar).

Record Table := mkTable {
  schema : Schema;
  columns : list ChunkedArray;
  num_rows : nat;
}.

Definition num_columns (t : Table) : nat := length (columns t).

(** [Table::column(i)], unchecked like [Schema::field]. *)
Definition column (t : Table) (i : nat) : option ChunkedArray := columns t !! i.

(** [Table::ReplaceSchemaMetadata]. *)
Definition ReplaceSchemaMetadata (t : Table) (meta : KeyValueMetadata)
  : Table :=
  {| schema := {| fields := fields (schema t); metadata := Some meta |};
     columns := columns t;
     num_rows := num_rows t |}.

(** [Schema::GetAllFieldIndices(name)]: the positions, counted from [j], of
    the fields called [n]. *)
Fixpoint field_indices (n : string) (j : nat) (fs : list Field) : list nat :=
  match fs with
  | [] => []
  | f :: fs' =>
      if String.eqb (name f) n
      then j :: field_indices n (S j) fs'
      else field_indices n (S j) fs'
  end.

Definition GetAllFieldIndices (s : Schema) (n : string) : list nat :=
  field_indices n 0 (fields s).

Definition column_of_nulls (rows : nat) : ChunkedArray := replicate rows None.

(** Modelled from the spec: the table [vineyard::EmptyTableBuilder::Build]
    makes, which is not part of the loader's file.  "If it had none, it
    builds an empty table with exactly that schema": no rows, one empty
    column per field. *)
Definition empty_table (final_schema : Schema) : Table :=
  {| schema := final_schema;
     columns := map (fun _ => []) (fields final_schema);
     num_rows := 0 |}.

(** Modelled from the spec: [arrow::PromoteTableToSchema], the promotion
    of the columnar-table collaborator ("adds missing columns as null,
    verifies/coerces types").  One column per field of the target schema:
    a field the table lacks becomes a column of nulls; a field the table
    has keeps its column when the types are equal, and a column of the
    null type is upcast to the field's type; any other type is refused, as
    is a nullable column for a non-nullable field or a name that occurs
    twice. *)
Definition promote_column (t : Table) (f : Field) : option ChunkedArray :=
  match GetAllFieldIndices (schema t) (name f) with
  | [] => Some (column_of_nulls (num_rows t))
  | [j] =>
      current ← field (schema t) j;
      col ← column t j;
      if negb (nullable f) && nullable current then None
      else if Equals (type current) (type f) then Some col
      else if is_null_type (type current)
           then Some (column_of_nulls (num_rows t))
           else None
  | _ => None
  end.

(** Every field of the table is named in the target schema; a column the
    schema does not know is refused, not dropped. *)
Definition all_fields_seen (t : Table) (s : Schema) : bool :=
  forallb (fun current =>
             existsb (fun f => String.eqb (name f) (name current)) (fields s))
          (fields (schema t)).

Definition PromoteTableToSchema (t : Table) (s : Schema) : option Table :=
  cols ← mapM (promote_column t) (fields s);
  if all_fields_seen t s
  then Some {| schema := s; columns := cols; num_rows := num_rows t |}
  else None.

(** *** swapColumn (lines 579-598) *)

Inductive Status :=
| Status_OK
| Status_Invalid (msg : string).

(** [Table::RemoveColumn(i)] and [Table::AddColumn(i, field, column)];
    Arrow answers an index out of range with an error status, here
    [None]. *)
Definition RemoveColumn (t : Table) (i : nat) : option Table :=
  if (i <? length (fields (schema t)))%nat && (i <? length (columns t))%nat
  then Some {| schema := {| fields := delete i (fields (schema t));
                            metadata := metadata (schema t) |};
               columns := delete i (columns t);
               num_rows := num_rows t |}
  else None.

Definition AddColumn (t : Table) (i : nat) (f : Field) (col : ChunkedArray)
  : option Table :=
  if (i <=? length (fields (schema t)))%nat && (length col =? num_rows t)%nat
  then Some {| schema := {| fields := take i (fields (schema t)) ++ f ::
                                      drop i (fields (schema t));
                            metadata := metadata (schema t) |};
               columns := take i (columns t) ++ col :: drop i (columns t);
               num_rows := num_rows t |}
  else None.

(** The two objects a [std::shared_ptr<arrow::Table>*] can point to while
    [swapColumn] runs: the caller's variable, or the by-value parameter
    [in] of the call itself. *)
Inductive table_ref :=
| caller_out
| param_in.

(** The tables held by those two objects. *)
Record swap_frame := {
  at_caller_out : option Table;
  at_param_in : option Table;
}.

(** [*p = t]. *)
Definition assign_through (p : table_ref) (t : Table) (fr : swap_frame)
  : swap_frame :=
  match p with
  | caller_out => {| at_caller_out := Some t; at_param_in := at_param_in fr |}
  | param_in => {| at_caller_out := at_caller_out fr; at_param_in := Some t |}
  end.

(** How a call ends: with a status, by a failed [CHECK_ARROW_ERROR] (the
    process aborts), or in an unchecked access out of range. *)
Inductive swap_end :=
| Returned (st : Status)
| Check_failed
| Out_of_range.

(** [swapColumn(in, lhs_index, rhs_index, out)], where [held] is what the
    caller's variable behind [out] holds before the call.  The result pairs
    how the call ends with what that variable holds afterwards. *)
Definition swapColumn (in_ : Table) (lhs_index rhs_index : Z)
    (held : option Table) : swap_end * option Table :=
  let fr := {| at_caller_out := held; at_param_in := Some in_ |} in
  let out := caller_out in
  if lhs_index =? rhs_index then
    (* out = &in; *)
    let out := param_in in
    (Returned Status_OK, at_caller_out fr)
  else if lhs_index >? rhs_index then
    (Returned (Status_Invalid "lhs index must smaller than rhs index."),
     at_caller_out fr)
  else if rhs_index <? 0 then (Out_of_range, at_caller_out fr)
  else
    match field (schema in_) (Z.to_nat rhs_index),
          column in_ (Z.to_nat rhs_index) with
    | Some f, Some col =>
        match RemoveColumn in_ (Z.to_nat rhs_index) with
        | None => (Check_failed, at_caller_out fr)
        | Some in' =>
            let fr := assign_through param_in in' fr in
            if lhs_index <? 0 then (Check_failed, at_caller_out fr)
            else
              match AddColumn in' (Z.to_nat lhs_index) f col with
              | None => (Check_failed, at_caller_out fr)
              | Some t =>
                  let fr := assign_through out t fr in
                  (Returned Status_OK, at_caller_out fr)
              end
        end
    | _, _ => (Out_of_range, at_caller_out fr)
    end.

(** *** What a promotion must keep *)

(** Every column of [t] that can hold values (its type is not the null
    type) is a column of [t'], unchanged, under a field of the same name. *)
Definition keeps_columns (t t' : Table) : Prop :=
  forall j f col,
    fields (schema t) !! j = Some f ->
    columns t !! j = Some col ->
    is_null_type (type f) = false ->
    exists k f', fields (schema t') !! k = Some f' /\
                 name f' = name f /\
                 columns t' !! k = Some col.

(** Every field of [t'] that [t] has no column for is a column of nulls. *)
Definition adds_null_columns (t t' : Table) : Prop :=
  forall k f',
    fields (schema t') !! k = Some f' ->
    (forall f, f ∈ fields (schema t) -> name f <> name f') ->
    columns t' !! k = Some (column_of_nulls (num_rows t)).

End Table.

(** ** Results, communicators and collectives *)

(** [kInvalidPartition] is the spec's name (§7) for the failure of a
    vertex-map lookup; the other two are codes of graph/utils/error.h. *)
Inductive ErrorCode :=
| kIOError
| kVineyardError
| kInvalidPartition.

(** How a fallible step of one worker ends.  [Ok] and [Err] are the two
    states of a [boost::leaf::result]; the other three are the ways a call
    does not return at all: a failed [CHECK] terminates the process, a
    collective the root never enters is never matched, and an unchecked
    access out of range has no defined behaviour. *)
Inductive result (A : Type) : Type :=
| Ok (a : A)
| Err (code : ErrorCode) (msg : string)
| Abort
| Blocked
| Undefined.
Arguments Ok {A} a.
Arguments Err {A} code msg.
Arguments Abort {A}.
Arguments Blocked {A}.
Arguments Undefined {A}.

Definition is_Ok {A} (r : result A) : bool :=
  match r with Ok _ => true | _ => false end.

(** The part of [grape::CommSpec] the loader reads. *)
Record CommSpec := {
  worker_id : nat;
  worker_num : nat;
  fid : nat;
  fnum : nat;
  FragToWorker : nat -> nat;
}.

(** The communicator as worker [rank] sees it. *)
Definition at_rank (comm : CommSpec) (rank : nat) : CommSpec :=
  {| worker_id := rank;
     worker_num := worker_num comm;
     fid := fid comm;
     fnum := fnum comm;
     FragToWorker := FragToWorker comm |}.

Inductive MPI_Call :=
| MPI_Gather
| MPI_Gatherv
| MPI_Bcast.

(** [static_cast<int>] of a size. *)
Definition to_int (z : Z) : Z := (z + 2 ^ 31) mod 2 ^ 32 - 2 ^ 31.

(** The IPC codec of Arrow, which the loader's [SerializeSchema] and
    [DeserializeSchema] wrap. *)
Class ArrowIpc (AL : ArrowLib) := {
  ipc_SerializeSchema : Schema -> list Byte.byte;
  ipc_ReadSchema : list Byte.byte -> option Schema;
}.

(** Modelled from the spec: [vineyard::EmptyTableBuilder::Build(schema,
    table)], which is not part of the loader's file.  It returns a status
    and hands the table back through its reference parameter.  For which
    schemas it returns OK, the text of the status when it does not
    ([None] stands for OK), and what a failing call leaves in [table], are
    the builder's own. *)
Class EmptyTableBuilder (AL : ArrowLib) := {
  Build_status : Schema -> option string;
  Build_leaves : Schema -> option Table;
}.

(** ** SyncSchema (lines 191-288) *)

Section SyncSchema.
Context {AL : ArrowLib} {IPC : ArrowIpc AL} {ETB : EmptyTableBuilder AL}.

(** Lines 111-125. *)
Definition SerializeSchema (s : Schema) : list Byte.byte :=
  ipc_SerializeSchema s.

(** Lines 127-136; [CHECK_ARROW_ERROR] aborts on a buffer Arrow cannot
    read. *)
Definition DeserializeSchema (buffer : list Byte.byte) : result Schema :=
  match ipc_ReadSchema buffer with
  | Some s => Ok s
  | None => Abort
  end.

(** Lines 198-203: [schema_buffer] and [size]. *)
Definition local_schema_buffer (table : option Table) : list Byte.byte :=
  match table with
  | Some t => SerializeSchema (schema t)
  | None => []
  end.

Definition local_size (table : option Table) : Z :=
  match table with
  | Some t => to_int (Z.of_nat (length (SerializeSchema (schema t))))
  | None => 0
  end.

(** The sum of two [int]s as the compiled loader computes it, wrapping
    around at 32 bits (an overflow of a signed sum is left undefined by the
    language). *)
Definition int_add (a b : Z) : Z := to_int (a + b).

(** Lines 209-217: [displs], starting from displacement [d], and
    [total_len]; both are sums of [int]s. *)
Fixpoint displacements (d : Z) (recvcounts : list Z) : list Z :=
  match recvcounts with
  | [] => []
  | c :: rest => d :: displacements (int_add d c) rest
  end.

Definition total_length (recvcounts : list Z) : Z :=
  fold_left int_add recvcounts 0.

(** [MPI_Gatherv] stores [count] bytes at [total_string + displ], where
    lines 234-236 read them: inside the [total_len] bytes of line 221 only
    if this holds. *)
Definition in_buffer (total_len displ count : Z) : bool :=
  (0 <=? count) && (0 <=? displ) && (displ + count <=? total_len).

(** Lines 231-237: [buffers[i]] is the slice of [total_string] that starts
    at [displs[i]] and is [recvcounts[i]] long. *)
Definition slice (total_string : list Byte.byte) (displ count : Z)
  : list Byte.byte :=
  take (Z.to_nat count) (drop (Z.to_nat displ) total_string).

(** Lines 238-245: a zero count leaves [schemas[i]] null. *)
Fixpoint deserialize_all (recvcounts : list Z) (buffers : list (list Byte.byte))
  : result (list (option Schema)) :=
  match recvcounts, buffers with
  | c :: recvcounts', b :: buffers' =>
      if c =? 0
      then match deserialize_all recvcounts' buffers' with
           | Ok schemas => Ok (None :: schemas)
           | other => other
           end
      else match DeserializeSchema b with
           | Ok s =>
               match deserialize_all recvcounts' buffers' with
               | Ok schemas => Ok (Some s :: schemas)
               | other => other
               end
           | Err c m => Err c m
           | Abort => Abort
           | Blocked => Blocked
           | Undefined => Undefined
           end
  | _, _ => Ok []
  end.

(** Lines 205-257, the branch of worker 0.  [recvcounts] is what
    [MPI_Gather] collects, [sent] the send buffers of the workers in rank
    order, which [MPI_Gatherv] lays out one after the other in
    [total_string].  The result is the final schema together with the
    bytes the two [MPI_Bcast] calls send. *)
Definition coordinate (recvcounts : list Z) (sent : list (list Byte.byte))
  : result (Schema * list Byte.byte) :=
  let displs := displacements 0 recvcounts in
  let total_len := total_length recvcounts in
  if total_len =? 0 then Err kIOError "All schema is empty"
  else if negb (forallb id (zip_with (in_buffer total_len) displs recvcounts))
  then Undefined
  else
    let total_string := concat sent in
    let buffers := zip_with (slice total_string) displs recvcounts in
    match deserialize_all recvcounts buffers with
    | Ok schemas =>
        match FindMostCommonSchema schemas with
        | Some final_schema =>
            let schema_buffer := SerializeSchema final_schema in
            let final_serialized_schema_size :=
              to_int (Z.of_nat (length schema_buffer)) in
            Ok (final_schema,
                take (Z.to_nat final_serialized_schema_size) schema_buffer)
        | None => Undefined
        end
    | Err c m => Err c m
    | Abort => Abort
    | Blocked => Blocked
    | Undefined => Undefined
    end.

(** Modelled from the spec: the call of line 282, the status it returns
    ([None] for OK) and the table it hands back.  §4.2(5): when it
    succeeds the table is "an empty table with exactly that schema". *)
Definition EmptyTableBuilder_Build (final_schema : Schema)
  : option string * option Table :=
  match Build_status final_schema with
  | None => (None, Some (empty_table final_schema))
  | Some msg => (Some msg, Build_leaves final_schema)
  end.

(** Lines 281-286: how the step ends and what [table] holds afterwards.
    [VY_OK_OR_RAISE] returns [kVineyardError] with the text of a status
    that is not OK; [CHECK_ARROW_ERROR_AND_ASSIGN] aborts when the
    promotion fails, before anything is assigned. *)
Definition reconcile (table : option Table) (final_schema : Schema)
  : result unit * option Table :=
  match table with
  | None =>
      match EmptyTableBuilder_Build final_schema with
      | (None, table) => (Ok tt, table)
      | (Some msg, table) => (Err kVineyardError msg, table)
      end
  | Some t =>
      match PromoteTableToSchema t final_schema with
      | Some t' => (Ok tt, Some t')
      | None => (Abort, table)
      end
  end.

(** What the collectives of one [SyncSchema] call deliver to a worker:
    at the root the gathered sizes and send buffers, elsewhere the
    broadcast bytes ([None] when the root leaves before it broadcasts). *)
Record SyncSchemaNet := {
  gathered_sizes : list Z;
  gathered_buffers : list (list Byte.byte);
  broadcast : option (list Byte.byte);
}.

(** What one call of [SyncSchema] leaves behind: how it ended, the table
    the reference parameter [table] now holds, and the collective calls
    the worker entered, in order (for a blocked worker, up to the first
    collective the root does not enter at the latest). *)
Record SyncSchemaRun := {
  status : result unit;
  table_after : option Table;
  calls : list MPI_Call;
}.

Definition finish (calls : list MPI_Call) (r : result unit * option Table)
  : SyncSchemaRun :=
  {| status := fst r; table_after := snd r; calls := calls |}.

(** [SyncSchema(table, comm_spec)] as one worker runs it. *)
Definition SyncSchema (table : option Table) (comm_spec : CommSpec)
    (net : SyncSchemaNet) : SyncSchemaRun :=
  if (worker_num comm_spec =? 1)%nat then
    {| status := Ok tt; table_after := table; calls := [] |}
  else if (worker_id comm_spec =? 0)%nat then
    match coordinate (gathered_sizes net) (gathered_buffers net) with
    | Ok (final_schema, _) =>
        finish [MPI_Gather; MPI_Gatherv; MPI_Bcast; MPI_Bcast]
               (reconcile table final_schema)
    | Err c m =>
        {| status := Err c m; table_after := table; calls := [MPI_Gather] |}
    | Abort =>
        {| status := Abort; table_after := table;
           calls := [MPI_Gather; MPI_Gatherv] |}
    | Blocked =>
        {| status := Blocked; table_after := table;
           calls := [MPI_Gather; MPI_Gatherv] |}
    | Undefined =>
        {| status := Undefined; table_after := table;
           calls := [MPI_Gather; MPI_Gatherv] |}
    end
  else
    match broadcast net with
    | None =>
        {| status := Blocked; table_after := table;
           calls := [MPI_Gather; MPI_Gatherv] |}
    | Some recv_buf =>
        match DeserializeSchema recv_buf with
        | Ok final_schema =>
            finish [MPI_Gather; MPI_Gatherv; MPI_Bcast; MPI_Bcast]
                   (reconcile table final_schema)
        | _ =>
            {| status := Abort; table_after := table;
               calls := [MPI_Gather; MPI_Gatherv; MPI_Bcast; MPI_Bcast] |}
        end
    end.

(** All workers of the communicator calling [SyncSchema] on their own
    table, [tables] in rank order: the collectives hand the workers'
    contributions to the root and the root's broadcast to the others. *)
Definition run_SyncSchema (comm : CommSpec) (tables : list (option Table))
  : list SyncSchemaRun :=
  let sizes := map local_size tables in
  let sent := map local_schema_buffer tables in
  let net :=
    {| gathered_sizes := sizes;
       gathered_buffers := sent;
       broadcast := match coordinate sizes sent with
                    | Ok (_, bytes) => Some bytes
                    | _ => None
                    end |} in
  imap (fun rank table => SyncSchema table (at_rank comm rank) net) tables.

End SyncSchema.

(** ** Re-indexing the received tables by label (lines 361-387) *)

(** [std::isspace] in the "C" locale. *)
Definition isspace (c : ascii) : bool :=
  let n := nat_of_ascii c in
  (n =? 32)%nat || ((9 <=? n)%nat && (n <=? 13)%nat).

Definition digit_value (c : ascii) : option Z :=
  let n := nat_of_ascii c in
  if (48 <=? n)%nat && (n <=? 57)%nat then Some (Z.of_nat n - 48) else None.

Fixpoint skip_spaces (s : string) : string :=
  match s with
  | String c rest => if isspace c then skip_spaces rest else s
  | EmptyString => s
  end.

(** The longest run of decimal digits at the head of [s]; [acc] is the
    value read so far, [None] while no digit has been read. *)
Fixpoint read_digits (s : string) (acc : option Z) : option Z :=
  match s with
  | String c rest =>
      match digit_value c with
      | Some d => read_digits rest (Some (10 * default 0 acc + d))
      | None => acc
      end
  | EmptyString => acc
  end.

(** [std::stoi(str)]: leading white space, an optional sign, decimal
    digits; what follows the digits is ignored.  [None] stands for the
    exception it throws when there is no digit or the value does not fit
    an [int]. *)
Definition stoi (str : string) : option Z :=
  let s := skip_spaces str in
  let '(negative, s) :=
    match s with
    | String "-"%char rest => (true, rest)
    | String "+"%char rest => (false, rest)
    | _ => (false, s)
    end in
  v ← read_digits s None;
  let v := if negative then - v else v in
  if (- 2 ^ 31 <=? v) && (v <? 2 ^ 31) then Some v else None.

(** [KeyValueMetadata::FindKey]: the index of the first pair with that
    key, -1 when there is none. *)
Fixpoint FindKey (meta : list (string * string)) (key : string) : Z :=
  match meta with
  | [] => -1
  | (k, _) :: rest =>
      if String.eqb k key then 0
      else let i := FindKey rest key in if i =? -1 then -1 else i + 1
  end.

(** [KeyValueMetadata::value(i)]. *)
Definition value (meta : list (string * string)) (i : Z) : option string :=
  if i <? 0 then None else snd <$> meta !! Z.to_nat i.

Section Rearrange.
Context `{AL : ArrowLib}.

(** Lines 367-370: the label index a table declares.  A table without
    metadata makes [meta] a null pointer; [CHECK_NE] aborts when the key
    is missing; an exception of [std::stoi] is not caught here. *)
Definition label_index_of (table : Table) : result Z :=
  match metadata (schema table) with
  | None => Undefined
  | Some meta =>
      let label_index_field := FindKey meta "label_index" in
      if label_index_field =? -1 then Abort
      else match value meta label_index_field with
           | None => Undefined
           | Some v =>
               match stoi v with
               | Some label_index => Ok label_index
               | None => Abort
               end
           end
  end.

(** Lines 371-372.  [CHECK_LT] compares the [int] with a [size_t], so the
    index is first converted to 64 unsigned bits. *)
Definition place (rearranged : list (option Table)) (table : Table)
  : result (list (option Table)) :=
  match label_index_of table with
  | Ok label_index =>
      let index := label_index mod 2 ^ 64 in
      if index <? Z.of_nat (length rearranged)
      then Ok (<[Z.to_nat index := Some table]> rearranged)
      else Abort
  | Err c m => Err c m
  | Abort => Abort
  | Blocked => Blocked
  | Undefined => Undefined
  end.

(** The loop of lines 366-373. *)
Fixpoint place_all (rearranged : list (option Table)) (tables : list Table)
  : result (list (option Table)) :=
  match tables with
  | [] => Ok rearranged
  | table :: rest =>
      match place rearranged table with
      | Ok rearranged' => place_all rearranged' rest
      | other => other
      end
  end.

(** Lines 364-374, and again 376-386 for the edge tables: a vector of null
    pointers as long as the received list, filled slot by slot. *)
Definition rearrange_by_label (local_tables : list Table)
  : result (list (option Table)) :=
  place_all (replicate (length local_tables) None) local_tables.

(** Every table declares a label index, and it is one of the first [n]
    slots. *)
Definition declares_slots (n : nat) (tables : list Table) : Prop :=
  forall t, t ∈ tables ->
    exists i, label_index_of t = Ok i /\ 0 <= i < Z.of_nat n.

End Rearrange.

(** ** constructFragmentGroup (lines 445-493) *)

Definition ObjectID := N.

(** Modelled from the spec: [ArrowFragmentGroup] and its builder
    (graph/fragment/arrow_fragment_group.h is not part of the loader's
    file).  The group is the table "fragment_id -> (instance, object_id)",
    kept as two maps keyed by fragment id. *)
Record ArrowFragmentGroup := {
  total_frag_num : nat;
  vertex_label_num : Z;
  edge_label_num : Z;
  fragments : gmap nat ObjectID;
  fragment_locations : gmap nat N;
}.

Definition new_group_builder : ArrowFragmentGroup :=
  {| total_frag_num := 0; vertex_label_num := 0; edge_label_num := 0;
     fragments := ∅; fragment_locations := ∅ |}.

Definition set_total_frag_num (n : nat) (b : ArrowFragmentGroup) :=
  {| total_frag_num := n; vertex_label_num := vertex_label_num b;
     edge_label_num := edge_label_num b; fragments := fragments b;
     fragment_locations := fragment_locations b |}.

Definition set_vertex_label_num (n : Z) (b : ArrowFragmentGroup) :=
  {| total_frag_num := total_frag_num b; vertex_label_num := n;
     edge_label_num := edge_label_num b; fragments := fragments b;
     fragment_locations := fragment_locations b |}.

Definition set_edge_label_num (n : Z) (b : ArrowFragmentGroup) :=
  {| total_frag_num := total_frag_num b;
     vertex_label_num := vertex_label_num b; edge_label_num := n;
     fragments := fragments b; fragment_locations := fragment_locations b |}.

Definition AddFragmentObject (fid : nat) (object_id : ObjectID)
    (instance_id : N) (b : ArrowFragmentGroup) :=
  {| total_frag_num := total_frag_num b;
     vertex_label_num := vertex_label_num b;
     edge_label_num := edge_label_num b;
     fragments := <[fid := object_id]> (fragments b);
     fragment_locations := <[fid := instance_id]> (fragment_locations b) |}.

(** Modelled from the spec: the object-store client of §6, as far as the
    group needs it.  [Seal] stores the object under an id the store does
    not use yet; [Persist] marks a stored object durable and fails for an
    id the store does not hold. *)
Record Client := {
  instance_id : N;
  objects : gmap N ArrowFragmentGroup;
  persisted : gset N;
}.

Definition Seal (b : ArrowFragmentGroup) (client : Client)
  : ObjectID * Client :=
  let id := fresh (dom (objects client)) in
  (id, {| instance_id := instance_id client;
          objects := <[id := b]> (objects client);
          persisted := persisted client |}).

Definition Persist (id : ObjectID) (client : Client) : option Client :=
  match objects client !! id with
  | Some _ => Some {| instance_id := instance_id client;
                      objects := objects client;
                      persisted := {[id]} ∪ persisted client |}
  | None => None
  end.

(** [v[i]] on a [std::vector], as lines 471-472 write it: the index is
    not checked, and past the end the read yields whatever lies behind the
    vector's storage, [beyond i]. *)
Definition vector_at {A : Type} (v : list A) (beyond : nat -> A) (i : nat)
  : A :=
  default (beyond i) (v !! i).

(** What lies behind the two gathered vectors of the coordinator. *)
Record PastEnd := {
  past_instance_ids : nat -> N;
  past_object_ids : nat -> ObjectID;
}.

(** What one call of [constructFragmentGroup] works on besides its
    arguments: at the root the gathered instance and object ids in rank
    order, with what lies behind them; elsewhere the broadcast group id. *)
Record GroupNet := {
  gathered_instance_ids : list N;
  gathered_object_ids : list ObjectID;
  past_end : PastEnd;
  broadcast_id : option ObjectID;
}.

(** Lines 469-473. *)
Fixpoint add_fragments (comm_spec : CommSpec) (net : GroupNet)
    (fids : list nat) (builder : ArrowFragmentGroup) : ArrowFragmentGroup :=
  match fids with
  | [] => builder
  | i :: rest =>
      add_fragments comm_spec net rest
        (AddFragmentObject i
           (vector_at (gathered_object_ids net)
                      (past_object_ids (past_end net))
                      (FragToWorker comm_spec i))
           (vector_at (gathered_instance_ids net)
                      (past_instance_ids (past_end net))
                      (FragToWorker comm_spec i))
           builder)
  end.

(** [constructFragmentGroup] as one worker runs it: the id it returns and
    its client afterwards. *)
Definition constructFragmentGroup (client : Client) (frag_id : ObjectID)
    (comm_spec : CommSpec) (v_label_num e_label_num : Z) (net : GroupNet)
  : result ObjectID * Client :=
  if (worker_id comm_spec =? 0)%nat then
    let builder :=
      set_edge_label_num e_label_num
        (set_vertex_label_num v_label_num
           (set_total_frag_num (fnum comm_spec) new_group_builder)) in
    let builder :=
      add_fragments comm_spec net (seq 0 (fnum comm_spec)) builder in
    let '(group_object_id, client) := Seal builder client in
    match Persist group_object_id client with
    | None => (Err kVineyardError "Persist", client)
    | Some client => (Ok group_object_id, client)
    end
  else
    match broadcast_id net with
    | Some group_object_id => (Ok group_object_id, client)
    | None => (Blocked, client)
    end.

(** All workers calling [constructFragmentGroup], [clients] and
    [frag_ids] in rank order; [past] is what lies behind the coordinator's
    vectors. *)
Definition run_constructFragmentGroup (comm : CommSpec)
    (clients : list Client) (frag_ids : list ObjectID) (past : PastEnd)
    (v_label_num e_label_num : Z) : list (result ObjectID * Client) :=
  let gathered :=
    {| gathered_instance_ids := map instance_id clients;
       gathered_object_ids := frag_ids;
       past_end := past;
       broadcast_id := None |} in
  let root :=
    match clients !! 0%nat, frag_ids !! 0%nat with
    | Some client, Some frag_id =>
        fst (constructFragmentGroup client frag_id (at_rank comm 0)
               v_label_num e_label_num gathered)
    | _, _ => Undefined
    end in
  let net :=
    {| gathered_instance_ids := gathered_instance_ids gathered;
       gathered_object_ids := gathered_object_ids gathered;
       past_end := past;
       broadcast_id := match root with Ok id => Some id | _ => None end |} in
  imap (fun rank '(client, frag_id) =>
          constructFragmentGroup client frag_id (at_rank comm rank)
            v_label_num e_label_num net)
       (zip clients frag_ids).

(** ** Partitioner, shuffle and vertex map (lines 290-320, 344-358) *)

Section Shuffle.
Context {OID : Type} `{EqDecision OID} {Props : Type}.

(** The hash of the spec's "stable_hash(oid) mod fragment_count". *)
Variable stable_hash : OID -> N.

(** Modelled from the spec: [HashPartitioner] (graph/utils/partitioner.h is
    not part of the loader's file).  §4.1: [Init(fragment_count)] prepares the
    state, and [fragment_id = stable_hash(oid) mod fragment_count].  The
    remainder is meant for a fragment count above 0, which every
    communicator has; the statements below assume it. *)
Record HashPartitioner := {
  fnum_ : nat;
}.

Definition Init (fnum : nat) : HashPartitioner := {| fnum_ := fnum |}.

Definition GetPartitionId (p : HashPartitioner) (oid : OID) : nat :=
  N.to_nat (stable_hash oid mod N.of_nat (fnum_ p)).

(** Lines 290-320 with [HASH_PARTITION] defined (line 40): the loader's
    [partitioner_] after the call, and the result it returns. *)
Definition initPartitioner (comm_spec_ : CommSpec)
  : result unit * HashPartitioner :=
  (Ok tt, Init (fnum comm_spec_)).

(** A table is a list of rows here.  A table that was read carries the
    label index stamped on it (§4.3), and a worker reads any number of
    them, several for one label when the input is split over files.  After
    the shuffle a worker holds one table per label, in label order. *)
Definition rows_of_label {Row : Type} (local_tables : list (nat * list Row))
    (label : nat) : list Row :=
  concat (map snd (filter (fun table => fst table = label) local_tables)).

Definition label_table {Row : Type} (local_tables : list (list Row))
    (label : nat) : list Row :=
  default [] (local_tables !! label).

(** Every row read for [label], by any worker, and every row read. *)
Definition all_rows {Row : Type} (inputs : list (list (nat * list Row)))
    (label : nat) : list Row :=
  concat (map (fun local_tables => rows_of_label local_tables label) inputs).

Definition every_row {Row : Type} (inputs : list (list (nat * list Row)))
  : list Row :=
  concat (map (fun local_tables => concat (map snd local_tables)) inputs).

(** Modelled from the spec: the shuffle of [BasicArrowFragmentLoader]
    (graph/loader/basic_arrow_fragment_loader.h is not part of the loader's
    file).  §4.4: "for every locally-read row, compute the destination
    worker, batch rows by destination, and perform an all-to-all exchange
    so that every worker ends up with every row any worker routed to it,
    for every label".  [batch] is what one worker sends to [dst],
    [received] what [dst] holds after the exchange. *)
Definition batch {Row : Type} (owner : Row -> nat) (dst : nat)
    (rows : list Row) : list Row :=
  filter (fun r => owner r = dst) rows.

Definition received {Row : Type} (owner : Row -> nat)
    (inputs : list (list (nat * list Row))) (label dst : nat) : list Row :=
  concat (map (fun local_tables =>
                 batch owner dst (rows_of_label local_tables label)) inputs).

Definition shuffle {Row : Type} (owner : Row -> nat) (fnum label_num : nat)
    (inputs : list (list (nat * list Row))) : list (list (list Row)) :=
  map (fun dst => map (fun label => received owner inputs label dst)
                      (seq 0 label_num))
      (seq 0 fnum).

(** A vertex row is its oid and its properties; an edge row its two
    endpoints and its properties, the endpoints as oids when read and as
    gids after the shuffle. *)
Definition VertexRow : Type := OID * Props.
Definition EdgeRow : Type := OID * OID * Props.

(** §3: a gid encodes the owning fragment and a local offset. *)
Record GID := {
  gid_fid : nat;
  gid_offset : nat;
}.

Definition GidEdgeRow : Type := GID * GID * Props.

(** "Ownership of a vertex row is [GetPartitionId(oid) == this_worker]". *)
Definition ShuffleVertexTables (p : HashPartitioner) (fnum label_num : nat)
    (inputs : list (list (nat * list VertexRow)))
  : list (list (list VertexRow)) :=
  shuffle (fun row => GetPartitionId p (fst row)) fnum label_num inputs.

(** §4.5: "each worker reports which OIDs it now owns, per label". *)
Definition GetOidLists (local_v_tables : list (list (list VertexRow)))
  : list (list (list OID)) :=
  map (map (map fst)) local_v_tables.

(** Modelled from the spec: the vertex map (graph/vertex_map is not part of
    the loader's file).  §4.5: the gid of an oid has the owning fragment as
    owner and "the OID's rank within that fragment+label's owned list" as
    offset; an oid no fragment owns is an error. *)
Fixpoint index_of (oid : OID) (oids : list OID) : option nat :=
  match oids with
  | [] => None
  | x :: rest => if decide (x = oid) then Some 0%nat
                 else S <$> index_of oid rest
  end.

Fixpoint find_in_labels (oid : OID) (labels : list (list OID)) : option nat :=
  match labels with
  | [] => None
  | oids :: rest =>
      match index_of oid oids with
      | Some offset => Some offset
      | None => find_in_labels oid rest
      end
  end.

Definition GetGid (oid_lists : list (list (list OID))) (fid : nat) (oid : OID)
  : option GID :=
  labels ← oid_lists !! fid;
  offset ← find_in_labels oid labels;
  Some {| gid_fid := fid; gid_offset := offset |}.

(** §4.4: both endpoints of an edge are resolved through the caller's
    mapper, and the edge "is routed to the worker owning its designated
    endpoint", the source. *)
Definition resolve_edge (p : HashPartitioner)
    (mapper : nat -> OID -> option GID) (e : EdgeRow) : option GidEdgeRow :=
  let '(src, dst, props) := e in
  src_gid ← mapper (GetPartitionId p src) src;
  dst_gid ← mapper (GetPartitionId p dst) dst;
  Some (src_gid, dst_gid, props).

Definition edge_owner (e : GidEdgeRow) : nat := gid_fid (fst (fst e)).

Definition resolve_table (p : HashPartitioner)
    (mapper : nat -> OID -> option GID) (table : nat * list EdgeRow)
  : option (nat * list GidEdgeRow) :=
  rows ← mapM (resolve_edge p mapper) (snd table);
  Some (fst table, rows).

Definition ShuffleEdgeTables (p : HashPartitioner)
    (mapper : nat -> OID -> option GID) (fnum label_num : nat)
    (inputs : list (list (nat * list EdgeRow)))
  : result (list (list (list GidEdgeRow))) :=
  match mapM (mapM (resolve_table p mapper)) inputs with
  | Some resolved => Ok (shuffle edge_owner fnum label_num resolved)
  | None => Err kInvalidPartition "GetGid"
  end.

(** Lines 344-358 of [shuffleAndBuild], for all workers at once: the
    vertex shuffle, the vertex map built from the owned oid lists, the
    mapper over it, the edge shuffle. *)
Definition shuffle_stage (p : HashPartitioner)
    (fnum vertex_label_num edge_label_num : nat)
    (v_inputs : list (list (nat * list VertexRow)))
    (e_inputs : list (list (nat * list EdgeRow)))
  : result (list (list (list VertexRow)) * list (list (list GidEdgeRow))) :=
  let local_v_tables :=
    ShuffleVertexTables p fnum vertex_label_num v_inputs in
  let oid_lists := GetOidLists local_v_tables in
  let mapper := fun fid oid => GetGid oid_lists fid oid in
  match ShuffleEdgeTables p mapper fnum edge_label_num e_inputs with
  | Ok local_e_tables => Ok (local_v_tables, local_e_tables)
  | Err c m => Err c m
  | Abort => Abort
  | Blocked => Blocked
  | Undefined => Undefined
  end.

(** The tables worker [w] holds for [label] after a shuffle. *)
Definition owned {Row : Type} (outputs : list (list (list Row)))
    (w label : nat) : list Row :=
  label_table (default [] (outputs !! w)) label.

(** A table and the table it becomes when its rows are resolved one by
    one under [R]: the label stays. *)
Definition resolved_as {A B : Type} (R : A -> B -> Prop)
    (table : nat * list A) (table' : nat * list B) : Prop :=
  fst table = fst table' /\ Forall2 R (snd table) (snd table').

(** The tables worker [w] holds, label by label, one after the other. *)
Definition holds {Row : Type} (outputs : list (list (list Row)))
    (label_num w : nat) : list Row :=
  concat (map (fun label => owned outputs w label) (seq 0 label_num)).

(** Every table read carries one of the [label_num] labels, as the loops
    of the loaders give them. *)
Definition labels_below {Row : Type} (label_num : nat)
    (inputs : list (list (nat * list Row))) : Prop :=
  forall tables table,
    tables ∈ inputs -> table ∈ tables -> (fst table < label_num)%nat.

(** Both endpoints of every edge read are oids of vertices read. *)
Definition endpoints_known
    (v_inputs : list (list (nat * list VertexRow)))
    (e_inputs : list (list (nat * list EdgeRow))) : Prop :=
  forall tables table e oid,
    tables ∈ e_inputs -> table ∈ tables -> e ∈ snd table ->
    oid = fst (fst e) \/ oid = snd (fst e) ->
    exists v_tables v_table props,
      v_tables ∈ v_inputs /\ v_table ∈ v_tables /\
      (oid, props) ∈ snd v_table.

End Shuffle.

(** ** Further notions the properties below are stated with *)

Section SchemaNotions.
Context `{AL : ArrowLib}.

(** The schema cut down to its first [n] fields. *)
Definition narrowed (n : nat) (s : Schema) : Schema :=
  {| fields := take n (fields s); metadata := metadata s |}.

End SchemaNotions.

Section SyncNotions.
Context {AL : ArrowLib} {IPC : ArrowIpc AL}.

(** The serialised schemas of the tables are not empty and fit an [int]. *)
Definition sizes_fit (tables : list (option Table)) : Prop :=
  forall t, Some t ∈ tables ->
    0 < Z.of_nat (length (SerializeSchema (schema t))) < 2 ^ 31.

(** The bytes of a list of send buffers, and of the serialised schemas of
    the tables, taken together; the sums of lines 209-217 are the sums of
    the mathematical integers as long as this number fits an [int]. *)
Definition total_bytes (sent : list (list Byte.byte)) : Z :=
  Z.of_nat (length (concat sent)).

Definition total_fits (tables : list (option Table)) : Prop :=
  total_bytes (map local_schema_buffer tables) < 2 ^ 31.

(** The sum of the gathered sizes as mathematical integers. *)
Definition sum_sizes (recvcounts : list Z) : Z := foldr Z.add 0 recvcounts.

(** The final schema a worker gets from the collectives of one call: the
    coordinator computes it, the others read it from the broadcast. *)
Definition obtains (comm_spec : CommSpec) (net : SyncSchemaNet)
    (final : Schema) : Prop :=
  if (worker_id comm_spec =? 0)%nat
  then exists bytes,
         coordinate (gathered_sizes net) (gathered_buffers net)
         = Ok (final, bytes)
  else exists recv_buf,
         broadcast net = Some recv_buf /\
         DeserializeSchema recv_buf = Ok final.

End SyncNotions.

(** ** Stamping the loaded tables (lines 52-54, 522-527, 563-570) *)

Definition digit_char (d : Z) : ascii := ascii_of_nat (48 + Z.to_nat d).

(** The decimal digits of [n], most significant first, put in front of
    [rest]; [fuel] bounds their number. *)
Fixpoint digits (fuel : nat) (n : Z) (rest : string) : string :=
  match fuel with
  | O => rest
  | S fuel' =>
      if n <? 10 then String (digit_char n) rest
      else digits fuel' (n / 10) (String (digit_char (n mod 10)) rest)
  end.

(** [std::to_string(int)]; an [int] has at most ten decimal digits. *)
Definition to_string (n : Z) : string :=
  if n <? 0 then String "-"%char (digits 10 (- n) "") else digits 10 n "".

Definition id_column : Z := 0.
Definition src_column : Z := 0.
Definition dst_column : Z := 1.

Section Stamp.
Context `{AL : ArrowLib}.

(** The key names [basic_loader_t::ID_COLUMN], [SRC_COLUMN] and
    [DST_COLUMN], constants of graph/loader/basic_arrow_fragment_loader.h. *)
Variables ID_COLUMN SRC_COLUMN DST_COLUMN : string.

(** Lines 522-526. *)
Definition vertex_meta (label : Z) : KeyValueMetadata :=
  [("type", "VERTEX");
   ("label_index", to_string label);
   ("label", "_");
   (ID_COLUMN, "0")]%string.

(** Lines 563-569. *)
Definition edge_meta (label : Z) : KeyValueMetadata :=
  [("type", "EDGE");
   ("label", "_");
   ("label_index", to_string label);
   ("sub_label_num", "1");
   (SRC_COLUMN, to_string src_column);
   (DST_COLUMN, to_string dst_column)]%string.

(** The two loops of lines 509-528, and of 550-571, where every read
    succeeds: [read i label] is the table read from file [i] for [label]
    and reconciled; stamped with [meta label], it is stored at
    [tables[i * label_num + label]]. *)
Definition stamped (meta : Z -> KeyValueMetadata) (file_num label_num : nat)
    (read : nat -> nat -> Table) : list Table :=
  flat_map (fun i =>
              map (fun label =>
                     ReplaceSchemaMetadata (read i label)
                                           (meta (Z.of_nat label)))
                  (seq 0 label_num))
           (seq 0 file_num).

End Stamp.

Section MoveNotions.
Context {A : Type}.

(** [ys] is [xs] with the element at position [r] taken out and put back
    at position [l], the elements in between moving up by one. *)
Definition moved_to (l r : nat) (xs ys : list A) : Prop :=
  length ys = length xs /\
  ys !! l = xs !! r /\
  (forall k, (k < l)%nat -> ys !! k = xs !! k) /\
  (forall k, (l <= k < r)%nat -> ys !! S k = xs !! k) /\
  (forall k, (r < k)%nat -> ys !! k = xs !! k).

End MoveNotions.

(** ** Building the graph schema (lines 389-433) *)

Section GraphSchema.
Context `{AL : ArrowLib}.

(** [kvs[key]] after [meta->ToUnorderedMap(&kvs)]: the value stored under
    the key (the first one, should the key occur twice), and the empty
    string that [operator[]] creates for a key the map does not have. *)
Definition kvs_at (meta : KeyValueMetadata) (key : string) : string :=
  default ""%string (value meta (FindKey meta key)).

Definition empty (s : string) : bool :=
  match s with EmptyString => true | _ => false end.

(** Modelled from the spec: an entry of [PropertyGraphSchema]
    (graph/fragment/graph_schema.h is not part of the loader's file).  §3:
    a label with "its set of named, typed properties and, for edges, its
    declared relations; built additively by the loader".  The entry keeps
    what [CreateEntry], [AddRelation] and [AddProperty] are given, in the
    order of the calls. *)
Record Entry := {
  entry_label : string;
  entry_type : string;
  entry_relations : list (string * string);
  entry_properties : list (string * DataType);
}.

Record PropertyGraphSchema := {
  schema_fnum : nat;
  schema_entries : list Entry;
}.

(** The [AddProperty] loops of lines 402-405 and 428-431, from column
    [first] on. *)
Definition properties_from (table : Table) (first : nat)
  : result (list (string * DataType)) :=
  match mapM (fun i => f ← field (schema table) i; Some (name f, type f))
             (seq first (num_columns table - first)) with
  | Some properties => Ok properties
  | None => Undefined
  end.

(** Lines 415-426: the pairs handed to [AddRelation]. *)
Definition relation_at (meta : KeyValueMetadata) (i : Z)
  : option (string * string) :=
  let src_label := kvs_at meta ("src_label_" ++ to_string i) in
  let dst_label := kvs_at meta ("dst_label_" ++ to_string i) in
  if negb (empty src_label) && negb (empty dst_label)
  then Some (src_label, dst_label)
  else None.

Definition relations_of (meta : KeyValueMetadata)
  : result (list (string * string)) :=
  let sub_label := kvs_at meta "sub_label_num" in
  if empty sub_label then Ok []
  else match stoi sub_label with
       | Some sub_label_num =>
           Ok (omap (fun i => relation_at meta (Z.of_nat i))
                    (seq 0 (Z.to_nat sub_label_num)))
       | None => Abort
       end.

(** Lines 392-406, for one table of [local_v_tables]; a null table or a
    schema without metadata is dereferenced. *)
Definition vertex_entry (table : option Table) : result Entry :=
  match table with
  | None => Undefined
  | Some table =>
      match metadata (schema table) with
      | None => Undefined
      | Some meta =>
          match properties_from table 0 with
          | Ok properties =>
              Ok {| entry_label := kvs_at meta "label";
                    entry_type := kvs_at meta "type";
                    entry_relations := [];
                    entry_properties := properties |}
          | Err c m => Err c m
          | Abort => Abort
          | Blocked => Blocked
          | Undefined => Undefined
          end
      end
  end.

(** Lines 407-432, for one table of [local_e_tables]. *)
Definition edge_entry (table : option Table) : result Entry :=
  match table with
  | None => Undefined
  | Some table =>
      match metadata (schema table) with
      | None => Undefined
      | Some meta =>
          match relations_of meta with
          | Ok relations =>
              match properties_from table 2 with
              | Ok properties =>
                  Ok {| entry_label := kvs_at meta "label";
                        entry_type := kvs_at meta "type";
                        entry_relations := relations;
                        entry_properties := properties |}
              | Err c m => Err c m
              | Abort => Abort
              | Blocked => Blocked
              | Undefined => Undefined
              end
          | Err c m => Err c m
          | Abort => Abort
          | Blocked => Blocked
          | Undefined => Undefined
          end
      end
  end.

(** One of the two loops over the tables. *)
Fixpoint entries_of (entry : option Table -> result Entry)
    (tables : list (option Table)) : result (list Entry) :=
  match tables with
  | [] => Ok []
  | table :: rest =>
      match entry table with
      | Ok e =>
          match entries_of entry rest with
          | Ok es => Ok (e :: es)
          | other => other
          end
      | Err c m => Err c m
      | Abort => Abort
      | Blocked => Blocked
      | Undefined => Undefined
      end
  end.

(** Lines 389-433: the schema handed to the fragment builder, from the
    re-indexed vertex and edge tables. *)
Definition build_schema (fnum : nat)
    (local_v_tables local_e_tables : list (option Table))
  : result PropertyGraphSchema :=
  match entries_of vertex_entry local_v_tables with
  | Ok vs =>
      match entries_of edge_entry local_e_tables with
      | Ok es => Ok {| schema_fnum := fnum; schema_entries := vs ++ es |}
      | Err c m => Err c m
      | Abort => Abort
      | Blocked => Blocked
      | Undefined => Undefined
      end
  | Err c m => Err c m
  | Abort => Abort
  | Blocked => Blocked
  | Undefined => Undefined
  end.

End GraphSchema.

(** ** A small instance of the interface

    Five primitive Arrow types under the names Arrow prints them with, a
    merge sort for [std::sort], and a byte codec for schemas.  The
    examples below run the loader's functions on it. *)

Module Sample.

Inductive PrimType :=
| NA
| BOOL
| INT64
| DOUBLE
| STRING.

Definition prim_to_string (t : PrimType) : string :=
  match t with
  | NA => "null"
  | BOOL => "bool"
  | INT64 => "int64"
  | DOUBLE => "double"
  | STRING => "string"
  end.

Definition prim_tag (t : PrimType) : nat :=
  match t with
  | NA => 0 | BOOL => 1 | INT64 => 2 | DOUBLE => 3 | STRING => 4
  end.

Definition prim_of_tag (n : nat) : option PrimType :=
  match n with
  | 0 => Some NA | 1 => Some BOOL | 2 => Some INT64 | 3 => Some DOUBLE
  | 4 => Some STRING | _ => None
  end%nat.

Definition prim_equals (a b : PrimType) : bool :=
  (prim_tag a =? prim_tag b)%nat.

Definition arrow : ArrowLib :=
  {| DataType := PrimType;
     ToString := prim_to_string;
     Equals := prim_equals;
     is_null_type := fun t => prim_equals t NA;
     Scalar := Z;
     std_sort := fun A comp =>
       @merge_sort A (fun x y => comp y x = false)
                   (fun x y => bool_eq_dec (comp y x) false) |}.

Definition byte_of_nat (n : nat) : Byte.byte :=
  default Byte.x00 (Byte.of_nat (n mod 256)).

Definition write_string (str : string) : list Byte.byte :=
  byte_of_nat (String.length str) :: list_byte_of_string str.

Definition read_string (bs : list Byte.byte)
  : option (string * list Byte.byte) :=
  match bs with
  | n :: rest =>
      let k := Byte.to_nat n in
      if (k <=? length rest)%nat
      then Some (string_of_list_byte (take k rest), drop k rest)
      else None
  | [] => None
  end.

Definition write_field (f : @Field arrow) : list Byte.byte :=
  byte_of_nat (prim_tag (type f)) ::
  byte_of_nat (if nullable f then 1 else 0) ::
  write_string (name f).

Fixpoint read_fields (n : nat) (bs : list Byte.byte)
  : option (list (@Field arrow) * list Byte.byte) :=
  match n with
  | O => Some ([], bs)
  | S n' =>
      match bs with
      | tag :: nl :: rest =>
          ty ← prim_of_tag (Byte.to_nat tag);
          '(nm, rest) ← read_string rest;
          '(fs, rest) ← read_fields n' rest;
          Some (@mkField arrow nm ty (negb (Byte.to_nat nl =? 0)%nat) :: fs,
                rest)
      | _ => None
      end
  end.

Definition write_pair (kv : string * string) : list Byte.byte :=
  write_string (fst kv) ++ write_string (snd kv).

Fixpoint read_pairs (n : nat) (bs : list Byte.byte)
  : option (list (string * string) * list Byte.byte) :=
  match n with
  | O => Some ([], bs)
  | S n' =>
      '(k, rest) ← read_string bs;
      '(v, rest) ← read_string rest;
      '(kvs, rest) ← read_pairs n' rest;
      Some ((k, v) :: kvs, rest)
  end.

Definition write_schema (s : @Schema arrow) : list Byte.byte :=
  byte_of_nat (length (fields s)) :: concat (map write_field (fields s)) ++
  match metadata s with
  | None => [byte_of_nat 0]
  | Some meta =>
      byte_of_nat 1 :: byte_of_nat (length meta) :: concat (map write_pair meta)
  end.

Definition read_schema (bs : list Byte.byte) : option (@Schema arrow) :=
  match bs with
  | n :: rest =>
      '(fs, rest) ← read_fields (Byte.to_nat n) rest;
      match rest with
      | flag :: rest =>
          if (Byte.to_nat flag =? 0)%nat
          then match rest with
               | [] => Some (@mkSchema arrow fs None)
               | _ => None
               end
          else match rest with
               | m :: rest =>
                   '(meta, rest) ← read_pairs (Byte.to_nat m) rest;
                   match rest with
                   | [] => Some (@mkSchema arrow fs (Some meta))
                   | _ => None
                   end
               | [] => None
               end
      | [] => None
      end
  | [] => None
  end.

Definition ipc : ArrowIpc arrow :=
  {| ipc_SerializeSchema := write_schema;
     ipc_ReadSchema := read_schema |}.

(** A builder that makes an empty column of every type but the null type,
    and leaves the table null when it fails. *)
Definition builder : EmptyTableBuilder arrow :=
  {| Build_status := fun s =>
       if existsb (fun f => prim_equals (@type arrow f) NA) (@fields arrow s)
       then Some "Unsupported type: null"%string
       else None;
     Build_leaves := fun _ => None |}.

(** Two shards of one label: both name the columns alike, the second
    inferred another type for [age]. *)
Definition id_field : @Field arrow := @mkField arrow "id" INT64 true.
Definition age_int : @Field arrow := @mkField arrow "age" INT64 true.
Definition age_double : @Field arrow := @mkField arrow "age" DOUBLE true.

Definition schema_int : @Schema arrow :=
  @mkSchema arrow [id_field; age_int] None.
Definition schema_double : @Schema arrow :=
  @mkSchema arrow [id_field; age_double] None.

(** A shard whose table has the [id] column only. *)
Definition schema_id : @Schema arrow := @mkSchema arrow [id_field] None.

Definition table_int : @Table arrow :=
  @mkTable arrow schema_int [[Some 1; Some 2]; [Some 30; None]] 2.

(** A table with the [id] column only. *)
Definition table_id : @Table arrow :=
  @mkTable arrow schema_id [[Some 1; Some 2]] 2.

Definition comm3 : CommSpec :=
  {| worker_id := 0; worker_num := 3; fid := 0; fnum := 3;
     FragToWorker := fun i => (i mod 3)%nat |}.

Definition final_int : @Schema arrow :=
  @mkSchema arrow [id_field; age_int] None.

(** Three workers, the second without rows for the label. *)
Definition tables3 : list (option (@Table arrow)) :=
  [Some table_int; None; Some table_int].

(** Two received tables, the one for label 1 arriving first. *)
Definition labelled (label : string) : @Table arrow :=
  ReplaceSchemaMetadata table_int
    [("type", "VERTEX"); ("label_index", label); ("label", "_")]%string.

Definition arrived : list (@Table arrow) := [labelled "1"; labelled "0"].

(** Three workers on two vineyard instances, one fragment each. *)
Definition client_of (instance : N) : Client :=
  {| instance_id := instance; objects := ∅; persisted := ∅ |}.

Definition clients3 : list Client := [client_of 7; client_of 7; client_of 8].
Definition frag_ids3 : list ObjectID := [100; 101; 102]%N.

(** Fragment [i] is served by worker [2 - i]. *)
Definition comm3_reversed : CommSpec :=
  {| worker_id := 0; worker_num := 3; fid := 0; fnum := 3;
     FragToWorker := fun i => (2 - i)%nat |}.

(** The hash of an integer oid: the oid itself. *)
Definition id_hash (oid : N) : N := oid.

(** The scenario of §8: two workers, one vertex label and one edge label;
    worker 0 reads vertices 1, 2 and the edge (1, 2), worker 1 reads
    vertices 3, 4 and the edge (3, 4). *)
Definition comm2 (rank : nat) : CommSpec :=
  {| worker_id := rank; worker_num := 2; fid := rank; fnum := 2;
     FragToWorker := fun i => i |}.

Definition v_inputs2 : list (list (nat * list (N * unit))) :=
  [[(0%nat, [(1%N, tt); (2%N, tt)])]; [(0%nat, [(3%N, tt); (4%N, tt)])]].

Definition e_inputs2 : list (list (nat * list (N * N * unit))) :=
  [[(0%nat, [(1%N, 2%N, tt)])]; [(0%nat, [(3%N, 4%N, tt)])]].

(** The same run with the vertices of worker 0 split over two files:
    two tables of label 0, the second with the vertex 5. *)
Definition v_inputs_files : list (list (nat * list (N * unit))) :=
  [[(0%nat, [(1%N, tt); (2%N, tt)]); (0%nat, [(5%N, tt)])];
   [(0%nat, [(3%N, tt); (4%N, tt)])]].

(** Three fragments all served by worker 0, and a topology that names a
    rank no worker has. *)
Definition comm_all0 : CommSpec :=
  {| worker_id := 0; worker_num := 3; fid := 0; fnum := 3;
     FragToWorker := fun i => 0%nat |}.

Definition comm_stray : CommSpec :=
  {| worker_id := 0; worker_num := 3; fid := 0; fnum := 3;
     FragToWorker := fun i => (i + 1)%nat |}.

(** What lies behind the gathered vectors in the examples. *)
Definition past9 : PastEnd :=
  {| past_instance_ids := fun _ => 9%N; past_object_ids := fun _ => 999%N |}.

Definition net3 : GroupNet :=
  {| gathered_instance_ids := [7; 7; 8]%N;
     gathered_object_ids := frag_ids3;
     past_end := past9;
     broadcast_id := None |}.

(** What a worker other than the coordinator finds when the schema
    [final_int], or a schema with a column of the null type, is
    broadcast. *)
Definition net_final_int : SyncSchemaNet :=
  {| gathered_sizes := []; gathered_buffers := [];
     broadcast := Some (write_schema final_int) |}.

Definition net_final_null : SyncSchemaNet :=
  {| gathered_sizes := []; gathered_buffers := [];
     broadcast :=
       Some (write_schema
               (@mkSchema arrow [id_field; @mkField arrow "age" NA true]
                          None)) |}.

(** What three workers send to the gather: two bytes, nothing, one byte. *)
Definition sent3 : list (list Byte.byte) :=
  [[Byte.x01; Byte.x02]; []; [Byte.x03]].

(** Three shards of which two agree on [age]. *)
Definition schemas_majority : list (option (@Schema arrow)) :=
  [Some schema_double; Some schema_int; Some schema_int].

Definition edge_table : @Table arrow :=
  ReplaceSchemaMetadata table_int (edge_meta "src_column" "dst_column" 0).

End Sample.

(** * Theorems *)

Module StrOrdFacts.
Import StrOrd.

Lemma lt_spec a b : lt a b = true <-> String_as_OT.lt a b.
Proof.
  unfold lt, String_as_OT.lt.
  destruct (String_as_OT.compare a b); split; congruence.
Qed.

Lemma le_refl a : le a a.
Proof.
  unfold le. destruct (lt a a) eqn:E; [|reflexivity].
  apply lt_spec in E. exfalso. apply (StrictOrder_Irreflexive a E).
Qed.

Lemma le_total a b : le a b \/ le b a.
Proof.
  unfold le. destruct (lt b a) eqn:E1; [|now left].
  destruct (lt a b) eqn:E2; [|now right].
  apply lt_spec in E1, E2. exfalso. apply (StrictOrder_Irreflexive a).
  exact (StrictOrder_Transitive _ _ _ E2 E1).
Qed.

Lemma le_antisym a b : le a b -> le b a -> a = b.
Proof.
  unfold le. intros H1 H2.
  destruct (String_as_OT.compare_spec a b) as [He|Hl|Hg]; [exact He| |].
  - apply lt_spec in Hl. congruence.
  - apply lt_spec in Hg. congruence.
Qed.

Lemma le_trans a b c : le a b -> le b c -> le a c.
Proof.
  unfold le. intros H1 H2.
  destruct (lt c a) eqn:E; [|reflexivity]. apply lt_spec in E.
  destruct (String_as_OT.compare_spec a b) as [He|Hl|Hg].
  - unfold String_as_OT.eq in He. subst b. apply lt_spec in E. congruence.
  - assert (Hcb : String_as_OT.lt c b)
      by exact (StrictOrder_Transitive _ _ _ E Hl).
    apply lt_spec in Hcb. congruence.
  - apply lt_spec in Hg. congruence.
Qed.

End StrOrdFacts.

(** ** FindMostCommonSchema *)

Section MostCommon.
Context `{AL : ArrowLib}.
Import StrOrd StrOrdFacts.

(** [ToString] is a canonical key for [Equals]: two types are equal
    exactly when they print alike. *)
Hypothesis Equals_canonical :
  forall a b : DataType, Equals a b = true <-> ToString a = ToString b.

(** [std::sort] permutes its range and leaves it ordered by the
    comparator. *)
Hypothesis std_sort_perm :
  forall l : list Field, std_sort Field type_string_lt l ≡ₚ l.
Hypothesis std_sort_sorted :
  forall l : list Field,
    StronglySorted (fun x y => type_string_lt y x = false)
                   (std_sort Field type_string_lt l).

Local Abbreviation key f := (ToString (type f)).

Lemma Equals_refl (t : DataType) : Equals t t = true.
Proof using Equals_canonical. now apply Equals_canonical. Qed.

Lemma Equals_false_key (a b : DataType) :
  Equals a b = false <-> ToString a <> ToString b.
Proof using Equals_canonical.
  rewrite <- Equals_canonical. destruct (Equals a b); split; congruence.
Qed.

Lemma count_type_cons t f l :
  count_type t (f :: l) = (if Equals (type f) t then 1 else 0) + count_type t l.
Proof. reflexivity. Qed.

Lemma count_type_nonneg t l : 0 <= count_type t l.
Proof.
  induction l as [|f l IH]; simpl; [lia|]. destruct (Equals _ _); lia.
Qed.

Lemma count_type_app t l1 l2 :
  count_type t (l1 ++ l2) = count_type t l1 + count_type t l2.
Proof.
  induction l1 as [|f l1 IH]; simpl; [lia|]. rewrite IH. lia.
Qed.

Lemma count_type_perm t l1 l2 :
  l1 ≡ₚ l2 -> count_type t l1 = count_type t l2.
Proof.
  induction 1 as [|x l l' _ IH|x y l|l l' l'' _ IH1 _ IH2]; simpl; lia.
Qed.

Lemma count_type_key t t' l :
  ToString t = ToString t' -> count_type t l = count_type t' l.
Proof using Equals_canonical.
  intros Hk. induction l as [|f l IH]; simpl; [reflexivity|].
  rewrite IH. f_equal.
  destruct (Equals (type f) t) eqn:E1, (Equals (type f) t') eqn:E2;
    try reflexivity.
  - apply Equals_canonical in E1. apply Equals_false_key in E2. congruence.
  - apply Equals_canonical in E2. apply Equals_false_key in E1. congruence.
Qed.

Lemma count_type_elem f l : f ∈ l -> 1 <= count_type (type f) l.
Proof using Equals_canonical.
  induction 1 as [f l|f g l _ IH]; simpl.
  - rewrite Equals_refl. pose proof (count_type_nonneg (type f) l). lia.
  - destruct (Equals _ _); lia.
Qed.

Lemma modal_at_perm r l1 l2 : l1 ≡ₚ l2 -> modal_at r l1 -> modal_at r l2.
Proof.
  intros Hp [Hin Hall]. split; [now rewrite <- Hp|].
  intros f Hf. rewrite <- Hp in Hf.
  rewrite <- !(count_type_perm _ _ _ Hp). now apply Hall.
Qed.

Lemma scan_runs_modal rest : forall done prev max curr res,
  StronglySorted (fun x y => type_string_lt y x = false) (prev :: rest) ->
  (forall f, f ∈ done -> le (key f) (key prev)) ->
  prev ∈ done -> res ∈ done ->
  curr = count_type (type prev) done ->
  (forall f, f ∈ done -> key f <> key prev ->
     count_type (type f) done <= max /\
     (count_type (type f) done = max -> le (key res) (key f))) ->
  (key res <> key prev -> max = count_type (type res) done) ->
  (key res = key prev -> max = 1) ->
  modal_at (scan_runs prev rest max curr res) (done ++ rest).
Proof using Equals_canonical.
  induction rest as [|f rest IH];
    intros done prev max curr res Hs Hd Hp Hr Hc H3 H4 H5.
  - rewrite app_nil_r. simpl.
    pose proof (count_type_elem _ _ Hp) as Hp1.
    destruct (Z.gtb_spec curr max) as [Hgt|Hle].
    + split; [exact Hp|]. intros g Hg.
      destruct (string_dec (key g) (key prev)) as [Heq|Hne].
      * rewrite (count_type_key _ _ done Heq). split; [lia|].
        intros _. rewrite Heq. apply le_refl.
      * destruct (H3 g Hg Hne) as [Hm _]. lia.
    + split; [exact Hr|]. intros g Hg.
      destruct (string_dec (key res) (key prev)) as [Hrp|Hrp].
      * specialize (H5 Hrp). rewrite (count_type_key _ _ done Hrp).
        destruct (string_dec (key g) (key prev)) as [Heq|Hne].
        -- rewrite (count_type_key _ _ done Heq). split; [lia|].
           intros _. rewrite Hrp, Heq. apply le_refl.
        -- destruct (H3 g Hg Hne) as [Hm Ht]. split; [lia|].
           intros E. apply Ht. lia.
      * specialize (H4 Hrp).
        destruct (string_dec (key g) (key prev)) as [Heq|Hne].
        -- rewrite (count_type_key _ _ done Heq). split; [lia|].
           intros _. rewrite Heq. now apply Hd.
        -- destruct (H3 g Hg Hne) as [Hm Ht]. split; [lia|].
           intros E. apply Ht. lia.
  - apply (modal_at_perm _ ((f :: done) ++ rest)).
    { simpl. apply Permutation_middle. }
    apply StronglySorted_inv in Hs as [Hs Hall].
    apply Forall_cons in Hall as [Hpf Hall].
    change (le (key prev) (key f)) in Hpf.
    pose proof (count_type_elem _ _ Hp) as Hp1.
    assert (Hdf : forall g, g ∈ f :: done -> le (key g) (key f)).
    { intros g Hg. apply elem_of_cons in Hg as [->|Hg]; [apply le_refl|].
      eapply le_trans; [now apply Hd|exact Hpf]. }
    simpl. destruct (Equals (type f) (type prev)) eqn:E.
    + apply Equals_canonical in E.
      apply (IH (f :: done)); try assumption.
      * apply list_elem_of_here.
      * now apply list_elem_of_further.
      * simpl. rewrite Equals_refl. rewrite (count_type_key _ _ done E). lia.
      * intros g Hg Hne. apply elem_of_cons in Hg as [->|Hg]; [congruence|].
        simpl. assert (Equals (type f) (type g) = false) as ->.
        { apply Equals_false_key. congruence. }
        apply H3; [exact Hg|congruence].
      * intros Hne. simpl. assert (Equals (type f) (type res) = false) as ->.
        { apply Equals_false_key. congruence. }
        rewrite Z.add_0_l. apply H4. congruence.
      * intros Heq. apply H5. congruence.
    + apply Equals_false_key in E.
      assert (Hold : forall g, g ∈ done -> key g <> key f).
      { intros g Hg Heq. apply E. apply le_antisym; [|exact Hpf].
        rewrite <- Heq. now apply Hd. }
      assert (Hcnt : forall g, g ∈ done ->
                count_type (type g) (f :: done) = count_type (type g) done).
      { intros g Hg. simpl.
        assert (Equals (type f) (type g) = false) as ->; [|lia].
        apply Equals_false_key. intros Heq. now apply (Hold g Hg). }
      destruct (Z.gtb_spec curr max) as [Hgt|Hle].
      * apply (IH (f :: done)); try assumption.
        -- apply list_elem_of_here.
        -- now apply list_elem_of_further.
        -- simpl. rewrite Equals_refl.
           assert (count_type (type f) done = 0); [|lia].
           clear -Hold Equals_canonical.
           induction done as [|g done IHd]; [reflexivity|]. simpl.
           assert (Equals (type g) (type f) = false) as ->.
           { apply Equals_false_key. apply Hold. apply list_elem_of_here. }
           rewrite IHd; [lia|]. intros h Hh. apply Hold.
           now apply list_elem_of_further.
        -- intros g Hg Hne. apply elem_of_cons in Hg as [->|Hg]; [congruence|].
           rewrite (Hcnt g Hg).
           destruct (string_dec (key g) (key prev)) as [Heq|Hne'].
           ++ rewrite (count_type_key _ _ done Heq). split; [lia|].
              intros _. rewrite Heq. apply le_refl.
           ++ destruct (H3 g Hg Hne') as [Hm _]. lia.
        -- intros _. rewrite (Hcnt prev Hp). exact Hc.
        -- intros Heq. congruence.
      * assert (Hrf : key res <> key f) by (now apply Hold).
        apply (IH (f :: done)); try assumption.
        -- apply list_elem_of_here.
        -- now apply list_elem_of_further.
        -- simpl. rewrite Equals_refl.
           assert (count_type (type f) done = 0); [|lia].
           clear -Hold Equals_canonical.
           induction done as [|g done IHd]; [reflexivity|]. simpl.
           assert (Equals (type g) (type f) = false) as ->.
           { apply Equals_false_key. apply Hold. apply list_elem_of_here. }
           rewrite IHd; [lia|]. intros h Hh. apply Hold.
           now apply list_elem_of_further.
        -- intros g Hg Hne. apply elem_of_cons in Hg as [->|Hg]; [congruence|].
           rewrite (Hcnt g Hg).
           destruct (string_dec (key g) (key prev)) as [Heq|Hne'].
           ++ rewrite (count_type_key _ _ done Heq). split; [lia|].
              intros _. rewrite Heq. now apply Hd.
           ++ now apply H3.
        -- intros _. rewrite (Hcnt res Hr).
           destruct (string_dec (key res) (key prev)) as [Heq|Hne'].
           ++ rewrite (count_type_key _ _ done Heq). specialize (H5 Heq). lia.
           ++ now apply H4.
        -- intros Heq. congruence.
Qed.

Lemma most_frequent_modal (l : list Field) :
  l <> [] ->
  exists r, most_frequent (std_sort Field type_string_lt l) = Some r /\
            modal_at r l.
Proof using Equals_canonical std_sort_perm std_sort_sorted.
  intros Hne. pose proof (std_sort_perm l) as Hp.
  pose proof (std_sort_sorted l) as Hs.
  destruct (std_sort Field type_string_lt l) as [|f0 rest].
  - apply Permutation_nil in Hp. contradiction.
  - exists (scan_runs f0 rest 1 1 f0). split; [reflexivity|].
    apply (modal_at_perm _ ([f0] ++ rest)); [exact Hp|].
    apply scan_runs_modal; try assumption.
    + intros f Hf. apply list_elem_of_singleton in Hf as ->. apply le_refl.
    + apply list_elem_of_here.
    + apply list_elem_of_here.
    + simpl. rewrite Equals_refl. reflexivity.
    + intros f Hf Hk. apply list_elem_of_singleton in Hf as ->. congruence.
    + congruence.
    + reflexivity.
Qed.

(** Whatever the traversal returns is one of the fields it was given. *)
Lemma scan_runs_elem rest : forall prev max curr res,
  scan_runs prev rest max curr res ∈ res :: prev :: rest.
Proof.
  induction rest as [|f rest IH]; intros prev max curr res; simpl.
  - destruct (curr >? max); [apply list_elem_of_further|];
      apply list_elem_of_here.
  - assert (Hwiden : forall x a, x ∈ a :: f :: rest ->
              a ∈ res :: prev :: f :: rest -> x ∈ res :: prev :: f :: rest).
    { intros x a Hx Ha. apply elem_of_cons in Hx as [->|Hx]; [exact Ha|].
      now do 2 apply list_elem_of_further. }
    destruct (Equals (type f) (type prev)); [|destruct (curr >? max)].
    + apply (Hwiden _ _ (IH f max (curr + 1) res)), list_elem_of_here.
    + apply (Hwiden _ _ (IH f curr 1 prev)).
      apply list_elem_of_further, list_elem_of_here.
    + apply (Hwiden _ _ (IH f max 1 res)), list_elem_of_here.
Qed.

Lemma collect_fields_Some i (schemas : list (option Schema)) fs :
  collect_fields i schemas = Some fs ->
  fs = contributed i schemas /\
  forall s, Some s ∈ schemas -> (i < num_fields s)%nat.
Proof.
  revert fs. induction schemas as [|[s|] schemas IH]; intros fs H; simpl in H.
  - inversion H. split; [reflexivity|]. intros s Hs. inversion Hs.
  - unfold field in H. unfold contributed. simpl.
    destruct (fields s !! i) as [f|] eqn:Ef; [|discriminate]. simpl in H.
    destruct (collect_fields i schemas) as [fs'|]; [|discriminate].
    inversion H; subst fs. destruct (IH fs' eq_refl) as [-> Hlt].
    split; [reflexivity|]. intros s' Hs'.
    apply elem_of_cons in Hs' as [Heq|Hs'].
    + inversion Heq; subst s'. apply lookup_lt_Some in Ef. exact Ef.
    + now apply Hlt.
  - destruct (IH fs H) as [-> Hlt]. split; [reflexivity|].
    intros s Hs. apply elem_of_cons in Hs as [Heq|Hs]; [discriminate|].
    now apply Hlt.
Qed.

Lemma collect_fields_in_range i (schemas : list (option Schema)) :
  (forall s, Some s ∈ schemas -> (i < num_fields s)%nat) ->
  collect_fields i schemas = Some (contributed i schemas).
Proof.
  induction schemas as [|[s|] schemas IH]; intros H; simpl.
  - reflexivity.
  - unfold field, contributed. simpl.
    destruct (lookup_lt_is_Some_2 (fields s) i) as [f Ef].
    { apply H. apply list_elem_of_here. }
    rewrite Ef. simpl. rewrite IH; [reflexivity|].
    intros s' Hs'. apply H. now apply list_elem_of_further.
  - unfold contributed. simpl. apply IH.
    intros s' Hs'. apply H. now apply list_elem_of_further.
Qed.

Lemma collect_fields_nonempty i (schemas : list (option Schema)) fs :
  collect_fields i schemas = Some fs ->
  (i < first_field_num schemas)%nat -> fs <> [].
Proof.
  revert fs. induction schemas as [|[s|] schemas IH]; intros fs H Hi;
    simpl in H, Hi.
  - lia.
  - destruct (field s i); [|discriminate]. simpl in H.
    destruct (collect_fields i schemas); [|discriminate].
    inversion H. discriminate.
  - now apply IH.
Qed.



(** C8. When every non-null schema is the same schema [s], and there is
    one, FindMostCommonSchema returns the fields of [s], in order. *)
Theorem FindMostCommonSchema_uniform
    (s : Schema) (schemas : list (option Schema)) :
  (forall os, os ∈ schemas -> os = None \/ os = Some s) ->
  Some s ∈ schemas ->
  exists final, FindMostCommonSchema schemas = Some final /\
                fields final = fields s.
Proof using std_sort_perm.
  intros Hall Hin.
  assert (Hn : first_field_num schemas = num_fields s).
  { induction schemas as [|[s'|] schemas IH]; simpl.
    - inversion Hin.
    - destruct (Hall (Some s') (list_elem_of_here _ _)) as [?|Heq];
        [discriminate|]. now inversion Heq.
    - apply IH.
      + intros os Hos. apply Hall. now apply list_elem_of_further.
      + apply elem_of_cons in Hin as [?|?]; [discriminate|assumption]. }
  assert (Hrange : forall i f, fields s !! i = Some f ->
            forall s', Some s' ∈ schemas -> (i < num_fields s')%nat).
  { intros i f Hf s' Hs'. destruct (Hall _ Hs') as [?|Heq]; [discriminate|].
    inversion Heq; subst s'. now apply lookup_lt_Some in Hf. }
  assert (Hsame : forall i f, fields s !! i = Some f ->
            Forall (fun g => g = f) (contributed i schemas)).
  { intros i f Hf. clear Hin Hn Hrange. unfold contributed.
    induction schemas as [|os schemas IH]; [constructor|].
    assert (IH' : Forall (fun g => g = f)
                    (omap (fun os => os ≫= fun s0 => fields s0 !! i) schemas)).
    { apply IH. intros os' Hos'. apply Hall. now apply list_elem_of_further. }
    simpl. destruct (Hall os (list_elem_of_here _ _)) as [->| ->]; simpl.
    - exact IH'.
    - rewrite Hf. now constructor. }
  exists {| fields := fields s; metadata := None |}. split; [|reflexivity].
  unfold FindMostCommonSchema.
  assert (Hm : mapM (fun i => most_common_field i schemas)
                 (seq 0 (first_field_num schemas)) = Some (fields s)).
  { apply mapM_Some_2. apply Forall2_same_length_lookup_2.
    { rewrite length_seq. exact Hn. }
    intros i j f Hj Hf. apply lookup_seq in Hj as [-> _]. simpl.
    unfold most_common_field.
    rewrite (collect_fields_in_range i schemas (Hrange i f Hf)). simpl.
    pose proof (Hsame i f Hf) as Hall_f.
    assert (Hne : contributed i schemas <> []).
    { apply (collect_fields_nonempty i schemas).
      - apply collect_fields_in_range, (Hrange i f Hf).
      - rewrite Hn. now apply lookup_lt_Some in Hf. }
    pose proof (std_sort_perm (contributed i schemas)) as Hp.
    rewrite <- Hp in Hall_f.
    destruct (std_sort Field type_string_lt (contributed i schemas))
      as [|f0 rest].
    - apply Permutation_nil in Hp. contradiction.
    - simpl. f_equal.
      pose proof (scan_runs_elem rest f0 1 1 f0) as Hel.
      rewrite Forall_forall in Hall_f. apply Hall_f.
      apply elem_of_cons in Hel as [->|Hel];
        [apply list_elem_of_here|exact Hel]. }
  rewrite Hm. reflexivity.
Qed.

End MostCommon.

(** ** swapColumn *)

Section SwapColumn.
Context `{AL : ArrowLib}.

(** C10. With equal indices swapColumn returns OK and writes nothing
    through [out]: the caller's variable holds what it held before. *)
Theorem swapColumn_equal_indices
    (in_ : Table) (lhs_index rhs_index : Z) (held : option Table) :
  lhs_index = rhs_index ->
  swapColumn in_ lhs_index rhs_index held = (Returned Status_OK, held).
Proof.
  intros ->. unfold swapColumn. rewrite Z.eqb_refl. reflexivity.
Qed.

End SwapColumn.

(** ** SyncSchema *)

Section SyncSchemaFacts.
Context {AL : ArrowLib} {IPC : ArrowIpc AL} {ETB : EmptyTableBuilder AL}.

(** C9. With a single worker SyncSchema returns success at once: no
    collective is entered and the table is the one passed in. *)
Theorem SyncSchema_single_worker
    (table : option Table) (comm_spec : CommSpec) (net : SyncSchemaNet) :
  worker_num comm_spec = 1%nat ->
  SyncSchema table comm_spec net =
    {| status := Ok tt; table_after := table; calls := [] |}.
Proof.
  intros H. unfold SyncSchema. rewrite H. reflexivity.
Qed.

Lemma total_length_zeros (l : list Z) :
  Forall (fun c => c = 0) l -> total_length l = 0.
Proof.
  unfold total_length. induction 1 as [|c l -> _ IH]; [reflexivity|].
  exact IH.
Qed.

Lemma coordinate_all_empty (recvcounts : list Z) sent :
  Forall (fun c => c = 0) recvcounts ->
  coordinate recvcounts sent = Err kIOError "All schema is empty".
Proof.
  intros H. unfold coordinate.
  rewrite (total_length_zeros _ H). reflexivity.
Qed.

(** C5. With more than one worker and every contributed size zero, the
    coordinator's SyncSchema returns the error [kIOError], "All schema is
    empty", and no worker's call ends in success: there is no final
    schema. *)
Theorem SyncSchema_all_empty (comm : CommSpec) (tables : list (option Table)) :
  worker_num comm = length tables ->
  (1 < length tables)%nat ->
  (forall table, table ∈ tables -> local_size table = 0) ->
  (exists r0, run_SyncSchema comm tables !! 0%nat = Some r0 /\
              status r0 = Err kIOError "All schema is empty") /\
  (forall r, r ∈ run_SyncSchema comm tables -> is_Ok (status r) = false).
Proof.
  intros Hn Hlen Hzero.
  assert (Hc : coordinate (map local_size tables)
                 (map local_schema_buffer tables)
               = Err kIOError "All schema is empty").
  { apply coordinate_all_empty. apply Forall_fmap, Forall_forall.
    intros t Ht. now apply Hzero. }
  assert (Hw : (worker_num comm =? 1)%nat = false).
  { apply Nat.eqb_neq. lia. }
  unfold run_SyncSchema. rewrite Hc. split.
  - rewrite list_lookup_imap.
    destruct (tables !! 0%nat) as [t0|] eqn:E0.
    + eexists. split; [reflexivity|].
      unfold SyncSchema.
      cbn [at_rank worker_num worker_id gathered_sizes gathered_buffers].
      rewrite Hw, Hc. reflexivity.
    + apply lookup_ge_None in E0. lia.
  - intros r Hr. apply list_elem_of_lookup in Hr as [rank Hr].
    rewrite list_lookup_imap in Hr.
    destruct (tables !! rank) as [t|]; [|discriminate].
    cbn [fmap option_fmap option_map] in Hr.
    inversion Hr; subst r; clear Hr.
    unfold SyncSchema.
    cbn [at_rank worker_num worker_id gathered_sizes gathered_buffers
         broadcast].
    rewrite Hw.
    destruct (rank =? 0)%nat; [rewrite Hc|]; reflexivity.
Qed.

Lemma field_indices_elem (fs : list Field) : forall j off f,
  fs !! j = Some f -> (off + j)%nat ∈ field_indices (name f) off fs.
Proof.
  induction fs as [|g fs IH]; intros j off f Hj; [discriminate|].
  destruct j as [|j]; simpl in Hj |- *.
  - inversion Hj; subst g. rewrite String.eqb_refl, Nat.add_0_r.
    apply list_elem_of_here.
  - replace (off + S j)%nat with (S off + j)%nat by lia.
    destruct (String.eqb (name g) (name f));
      [apply list_elem_of_further|]; now apply IH.
Qed.

Lemma field_indices_none (fs : list Field) : forall n off,
  (forall f, f ∈ fs -> name f <> n) -> field_indices n off fs = [].
Proof.
  induction fs as [|g fs IH]; intros n off H; simpl; [reflexivity|].
  destruct (String.eqb_spec (name g) n) as [E|_].
  - exfalso. apply (H g); [apply list_elem_of_here|exact E].
  - apply IH. intros f Hf. apply H. now apply list_elem_of_further.
Qed.

(** What a successful promotion returns: a table of the target schema
    with the same number of rows, which keeps the columns of the table and
    has nulls where the table had no column. *)
Lemma PromoteTableToSchema_Some (t : Table) (s : Schema) (t' : Table) :
  PromoteTableToSchema t s = Some t' ->
  schema t' = s /\ num_rows t' = num_rows t /\
  keeps_columns t t' /\ adds_null_columns t t'.
Proof.
  unfold PromoteTableToSchema. intros H.
  destruct (mapM (promote_column t) (fields s)) as [cols|] eqn:Hm;
    [|discriminate]. simpl in H.
  destruct (all_fields_seen t s) eqn:Hseen; [|discriminate].
  inversion H; subst t'; clear H. simpl.
  apply mapM_Some_1 in Hm.
  split; [reflexivity|]. split; [reflexivity|]. split.
  - intros j f col Hf Hcol Hnn.
    unfold all_fields_seen in Hseen. rewrite forallb_forall in Hseen.
    assert (Hin : In f (fields (schema t))).
    { apply list_elem_of_In, list_elem_of_lookup. eauto. }
    specialize (Hseen f Hin). apply existsb_exists in Hseen as (f' & Hf' & En).
    apply String.eqb_eq in En.
    apply list_elem_of_In, list_elem_of_lookup in Hf' as [k Hk].
    destruct (Forall2_lookup_l _ _ _ _ _ Hm Hk) as (col' & Hcol' & Hp).
    exists k, f'. split; [exact Hk|]. split; [exact En|].
    cbn [columns]. rewrite Hcol'. f_equal.
    unfold promote_column, GetAllFieldIndices in Hp.
    pose proof (field_indices_elem _ j 0%nat f Hf) as Hj.
    rewrite <- En in Hj. simpl in Hj.
    destruct (field_indices (name f') 0 (fields (schema t)))
      as [|j0 [|j1 js]]; [inversion Hj| |discriminate].
    apply list_elem_of_singleton in Hj. subst j0.
    unfold field, column in Hp. rewrite Hf, Hcol in Hp. simpl in Hp.
    destruct (negb (nullable f') && nullable f); [discriminate|].
    destruct (Equals (type f) (type f')); [congruence|].
    rewrite Hnn in Hp. discriminate.
  - intros k f' Hk Hnone. simpl in Hk.
    destruct (Forall2_lookup_l _ _ _ _ _ Hm Hk) as (col' & Hcol' & Hp).
    cbn [columns]. rewrite Hcol'. f_equal.
    unfold promote_column, GetAllFieldIndices in Hp.
    rewrite (field_indices_none _ _ _ Hnone) in Hp. congruence.
Qed.

(** C4. A worker that got the final schema from the collectives ends
    its call as follows.  Without a table, where the builder returns OK,
    it holds an empty table (no rows, an empty column per field) whose
    schema is the final schema; where the builder does not, the call
    returns [kVineyardError] with the builder's text, the table being what
    the builder left.  With a table, it
    holds the promoted table: the final schema, the same number of rows,
    every value-carrying column of its own kept under its name, nulls for
    the columns it lacked; and when the table cannot be promoted the call
    aborts, the table left as it was. *)
Theorem SyncSchema_reconciles
    (table : option Table) (comm_spec : CommSpec) (net : SyncSchemaNet)
    (final : Schema) :
  worker_num comm_spec <> 1%nat ->
  obtains comm_spec net final ->
  let r := SyncSchema table comm_spec net in
  match table with
  | None =>
      match Build_status final with
      | None =>
          status r = Ok tt /\
          exists t', table_after r = Some t' /\
                     schema t' = final /\ num_rows t' = 0%nat /\
                     columns t' = map (fun _ => []) (fields final)
      | Some msg =>
          status r = Err kVineyardError msg /\
          table_after r = Build_leaves final
      end
  | Some t =>
      match PromoteTableToSchema t final with
      | Some t' =>
          status r = Ok tt /\ table_after r = Some t' /\
          schema t' = final /\ num_rows t' = num_rows t /\
          keeps_columns t t' /\ adds_null_columns t t'
      | None => status r = Abort /\ table_after r = Some t
      end
  end.
Proof.
  intros Hw Hfinal r.
  assert (Hrun : r = finish [MPI_Gather; MPI_Gatherv; MPI_Bcast; MPI_Bcast]
                            (reconcile table final)).
  { subst r. unfold SyncSchema, obtains in *.
    destruct (Nat.eqb_spec (worker_num comm_spec) 1); [contradiction|].
    destruct (worker_id comm_spec =? 0)%nat.
    - destruct Hfinal as [bytes ->]. reflexivity.
    - destruct Hfinal as (recv_buf & -> & ->). reflexivity. }
  rewrite Hrun. unfold finish, reconcile, EmptyTableBuilder_Build.
  destruct table as [t|]; cbn [status table_after].
  - destruct (PromoteTableToSchema t final) as [t'|] eqn:Hp; cbn [fst snd].
    + apply PromoteTableToSchema_Some in Hp as (H1 & H2 & H3 & H4).
      repeat (split; [first [reflexivity|assumption]|]). assumption.
    + split; reflexivity.
  - destruct (Build_status final) as [msg|]; cbn [fst snd].
    + split; reflexivity.
    + split; [reflexivity|]. eexists. split; [reflexivity|].
      repeat split.
Qed.

End SyncSchemaFacts.

(** ** Re-indexing by label *)

Section RearrangeFacts.
Context `{AL : ArrowLib}.

Lemma stoi_range (str : string) (v : Z) :
  stoi str = Some v -> - 2 ^ 31 <= v < 2 ^ 31.
Proof.
  unfold stoi. destruct (skip_spaces str) as [|c rest] eqn:E.
  - simpl. discriminate.
  - set (ns := match String c rest with
               | String "-"%char r => (true, r)
               | String "+"%char r => (false, r)
               | _ => (false, String c rest)
               end).
    destruct ns as [negative s]. intros H.
    destruct (read_digits s None) as [d|]; [|discriminate]. simpl in H.
    destruct ((- 2 ^ 31 <=? (if negative then - d else d)) &&
              ((if negative then - d else d) <? 2 ^ 31)) eqn:R;
      [|discriminate].
    inversion H; subst v. apply andb_true_iff in R as [R1 R2]. lia.
Qed.

Lemma label_index_of_range (t : Table) (i : Z) :
  label_index_of t = Ok i -> - 2 ^ 31 <= i < 2 ^ 31.
Proof.
  unfold label_index_of. destruct (metadata (schema t)) as [meta|];
    [|discriminate].
  destruct (FindKey meta "label_index" =? -1); [discriminate|].
  destruct (value meta _) as [v|]; [|discriminate].
  destruct (stoi v) as [i'|] eqn:E; [|discriminate].
  intros H; inversion H; subst i'. now apply stoi_range in E.
Qed.

Lemma place_in_range (rearranged : list (option Table)) (t : Table) (i : Z) :
  label_index_of t = Ok i -> 0 <= i < Z.of_nat (length rearranged) ->
  place rearranged t = Ok (<[Z.to_nat i := Some t]> rearranged).
Proof.
  intros Hi Hr. unfold place. rewrite Hi.
  pose proof (label_index_of_range _ _ Hi) as Hb.
  rewrite Z.mod_small by lia.
  destruct (Z.ltb_spec i (Z.of_nat (length rearranged))); [reflexivity|lia].
Qed.

Lemma place_all_slots (tables : list Table) :
  forall rearranged,
  declares_slots (length rearranged) tables ->
  NoDup (map label_index_of tables) ->
  exists r,
    place_all rearranged tables = Ok r /\
    length r = length rearranged /\
    (forall t i, t ∈ tables -> label_index_of t = Ok i ->
                 r !! Z.to_nat i = Some (Some t)) /\
    (forall p, (forall t i, t ∈ tables -> label_index_of t = Ok i ->
                            Z.to_nat i <> p) ->
               r !! p = rearranged !! p).
Proof.
  induction tables as [|t tables IH]; intros rearranged Hd Hnd.
  - exists rearranged. split; [reflexivity|]. split; [reflexivity|].
    split; [|reflexivity]. intros t i Ht. inversion Ht.
  - destruct (Hd t (list_elem_of_here _ _)) as (i & Hi & Hr).
    simpl. rewrite (place_in_range _ _ _ Hi Hr).
    simpl in Hnd. apply NoDup_cons in Hnd as [Hfresh Hnd].
    destruct (IH (<[Z.to_nat i := Some t]> rearranged))
      as (r & Hrun & Hlen & Hat & Hframe).
    { rewrite length_insert. intros t' Ht'. apply Hd.
      now apply list_elem_of_further. }
    { exact Hnd. }
    exists r. split; [exact Hrun|]. rewrite length_insert in Hlen.
    split; [exact Hlen|]. split.
    + intros t' i' Ht' Hi'. apply elem_of_cons in Ht' as [->|Ht'].
      * assert (i' = i) as -> by congruence.
        rewrite Hframe.
        -- apply list_lookup_insert_eq. lia.
        -- intros t'' i'' Ht'' Hi'' Heq. apply Hfresh.
           destruct (Hd t'' (list_elem_of_further _ _ _ Ht''))
             as (j & Hj & Hjr).
           assert (j = i'') as -> by congruence.
           assert (i'' = i) as -> by lia.
           rewrite Hi, <- Hi''. apply list_elem_of_fmap. exists t''. now split.
      * now apply Hat.
    + intros p Hp. rewrite Hframe.
      * apply list_lookup_insert_ne.
        apply (Hp t i); [apply list_elem_of_here|exact Hi].
      * intros t' i' Ht' Hi'. apply (Hp t' i'); [|exact Hi'].
        now apply list_elem_of_further.
Qed.

Lemma place_all_perm (tables tables' : list Table) :
  tables ≡ₚ tables' ->
  forall rearranged,
  declares_slots (length rearranged) tables ->
  NoDup (map label_index_of tables) ->
  place_all rearranged tables = place_all rearranged tables'.
Proof.
  induction 1 as [|x l l' Hp IH|x y l|l l' l'' Hp1 IH1 Hp2 IH2];
    intros rearranged Hd Hnd.
  - reflexivity.
  - destruct (Hd x (list_elem_of_here _ _)) as (i & Hi & Hr).
    simpl. rewrite (place_in_range _ _ _ Hi Hr).
    simpl in Hnd. apply NoDup_cons in Hnd as [_ Hnd].
    apply IH; [|exact Hnd].
    rewrite length_insert. intros t Ht. apply Hd.
    now apply list_elem_of_further.
  - destruct (Hd y (list_elem_of_here _ _)) as (iy & Hiy & Hry).
    destruct (Hd x (list_elem_of_further _ _ _ (list_elem_of_here _ _)))
      as (ix & Hix & Hrx).
    simpl in Hnd. apply NoDup_cons in Hnd as [Hfresh _].
    assert (Hne : Z.to_nat iy <> Z.to_nat ix).
    { intros Heq. apply Hfresh. assert (iy = ix) as -> by lia.
      rewrite Hiy, <- Hix. apply list_elem_of_here. }
    simpl.
    rewrite (place_in_range _ _ _ Hiy Hry), (place_in_range _ _ _ Hix Hrx).
    rewrite (place_in_range _ y iy Hiy) by (rewrite length_insert; exact Hry).
    rewrite (place_in_range _ x ix Hix) by (rewrite length_insert; exact Hrx).
    rewrite list_insert_insert_ne by (intros E; apply Hne; symmetry; exact E).
    reflexivity.
  - rewrite IH1 by assumption. apply IH2.
    + intros t Ht. apply Hd. now rewrite Hp1.
    + now rewrite <- Hp1.
Qed.

(** C6. When the received tables declare pairwise different label
    indices, each a slot of the list, the re-indexed list has the table
    that declares label index [i] at position [i], and it is the same list
    for every order in which the tables arrive. *)
Theorem rearrange_by_label_slots (local_tables : list Table) :
  declares_slots (length local_tables) local_tables ->
  NoDup (map label_index_of local_tables) ->
  exists rearranged,
    rearrange_by_label local_tables = Ok rearranged /\
    length rearranged = length local_tables /\
    (forall t i, t ∈ local_tables -> label_index_of t = Ok i ->
                 rearranged !! Z.to_nat i = Some (Some t)) /\
    (forall arrived, arrived ≡ₚ local_tables ->
                     rearrange_by_label arrived = Ok rearranged).
Proof.
  intros Hd Hnd. unfold rearrange_by_label.
  destruct (place_all_slots local_tables
              (replicate (length local_tables) None))
    as (r & Hrun & Hlen & Hat & _).
  { now rewrite length_replicate. }
  { exact Hnd. }
  rewrite length_replicate in Hlen.
  exists r. split; [exact Hrun|]. split; [exact Hlen|].
  split; [exact Hat|].
  intros arrived Hp. rewrite (Permutation_length Hp).
  rewrite <- Hrun. symmetry. apply place_all_perm.
  - now symmetry.
  - now rewrite length_replicate.
  - exact Hnd.
Qed.

End RearrangeFacts.

(** ** constructFragmentGroup *)

Section FragmentGroupFacts.

Lemma vector_at_lookup {A : Type} (v : list A) (beyond : nat -> A) (i : nat) :
  (i < length v)%nat -> v !! i = Some (vector_at v beyond i).
Proof.
  intros Hi. unfold vector_at.
  destruct (lookup_lt_is_Some_2 v i Hi) as [x ->]. reflexivity.
Qed.

Lemma vector_at_past {A : Type} (v : list A) (beyond : nat -> A) (i : nat) :
  (length v <= i)%nat -> vector_at v beyond i = beyond i.
Proof.
  intros Hi. unfold vector_at. now rewrite (proj2 (lookup_ge_None v i) Hi).
Qed.

Lemma add_fragments_ext comm_spec net net' fids : forall builder,
  gathered_object_ids net = gathered_object_ids net' ->
  gathered_instance_ids net = gathered_instance_ids net' ->
  past_end net = past_end net' ->
  add_fragments comm_spec net fids builder
  = add_fragments comm_spec net' fids builder.
Proof.
  induction fids as [|i fids IH]; intros builder Ho Hi Hp; simpl;
    [reflexivity|].
  rewrite Ho, Hi, Hp. now apply IH.
Qed.

Lemma add_fragments_entries comm_spec net fids : forall builder,
  total_frag_num (add_fragments comm_spec net fids builder)
  = total_frag_num builder /\
  (forall i, fragments (add_fragments comm_spec net fids builder) !! i =
     if decide (i ∈ fids)
     then Some (vector_at (gathered_object_ids net)
                          (past_object_ids (past_end net))
                          (FragToWorker comm_spec i))
     else fragments builder !! i) /\
  (forall i, fragment_locations (add_fragments comm_spec net fids builder)
             !! i =
     if decide (i ∈ fids)
     then Some (vector_at (gathered_instance_ids net)
                          (past_instance_ids (past_end net))
                          (FragToWorker comm_spec i))
     else fragment_locations builder !! i).
Proof.
  induction fids as [|i fids IH]; intros builder; simpl.
  - repeat split; intros i; case_decide as Hd;
      try reflexivity; inversion Hd.
  - destruct (IH (AddFragmentObject i
                    (vector_at (gathered_object_ids net)
                       (past_object_ids (past_end net))
                       (FragToWorker comm_spec i))
                    (vector_at (gathered_instance_ids net)
                       (past_instance_ids (past_end net))
                       (FragToWorker comm_spec i))
                    builder)) as (Ht & Hf & Hl).
    split; [exact Ht|]. split.
    + intros j. rewrite Hf. simpl.
      destruct (decide (j ∈ fids)) as [Hj|Hj].
      * rewrite decide_True by (now apply list_elem_of_further). reflexivity.
      * destruct (decide (j = i)) as [->|Hne].
        -- rewrite decide_True by apply list_elem_of_here.
           now rewrite lookup_insert_eq.
        -- rewrite decide_False.
           ++ now rewrite lookup_insert_ne.
           ++ intros Hc. apply elem_of_cons in Hc as [?|?]; contradiction.
    + intros j. rewrite Hl. simpl.
      destruct (decide (j ∈ fids)) as [Hj|Hj].
      * rewrite decide_True by (now apply list_elem_of_further). reflexivity.
      * destruct (decide (j = i)) as [->|Hne].
        -- rewrite decide_True by apply list_elem_of_here.
           now rewrite lookup_insert_eq.
        -- rewrite decide_False.
           ++ now rewrite lookup_insert_ne.
           ++ intros Hc. apply elem_of_cons in Hc as [?|?]; contradiction.
Qed.

(** A run of all workers, whatever the topology: every call returns the
    id under which the coordinator stored and persisted the group, no
    other client changes, and the group has an entry for each fragment id
    below [fnum], read from the gathered vectors at [FragToWorker i]. *)
Lemma run_constructFragmentGroup_group
    (comm : CommSpec) (clients : list Client) (frag_ids : list ObjectID)
    (past : PastEnd) (v_label_num e_label_num : Z) :
  length clients = worker_num comm ->
  length frag_ids = worker_num comm ->
  (0 < worker_num comm)%nat ->
  let run := run_constructFragmentGroup comm clients frag_ids past
               v_label_num e_label_num in
  exists group_id group,
    length run = worker_num comm /\
    (forall rank r, run !! rank = Some r -> fst r = Ok group_id) /\
    (exists root, run !! 0%nat = Some root /\
                  objects (snd root) !! group_id = Some group /\
                  group_id ∈ persisted (snd root)) /\
    (forall rank r, run !! S rank = Some r ->
                    clients !! S rank = Some (snd r)) /\
    (forall i, fragments group !! i =
       if decide (i < fnum comm)%nat
       then Some (vector_at frag_ids (past_object_ids past)
                            (FragToWorker comm i))
       else None) /\
    (forall i, fragment_locations group !! i =
       if decide (i < fnum comm)%nat
       then Some (vector_at (map instance_id clients)
                            (past_instance_ids past) (FragToWorker comm i))
       else None).
Proof.
  intros Hc Hf Hpos run.
  destruct (lookup_lt_is_Some_2 clients 0) as [client0 Hc0]; [lia|].
  destruct (lookup_lt_is_Some_2 frag_ids 0) as [frag0 Hf0]; [lia|].
  set (builder0 := set_edge_label_num e_label_num
                     (set_vertex_label_num v_label_num
                        (set_total_frag_num (fnum comm) new_group_builder))).
  pose (gathered := {| gathered_instance_ids := map instance_id clients;
                       gathered_object_ids := frag_ids;
                       past_end := past;
                       broadcast_id := None |}).
  set (b := add_fragments (at_rank comm 0) gathered (seq 0 (fnum comm))
              builder0).
  destruct (add_fragments_entries (at_rank comm 0) gathered
              (seq 0 (fnum comm)) builder0) as (_ & Hfr & Hloc).
  fold b in Hfr, Hloc.
  set (group_id := fresh (dom (objects client0))).
  set (client1 := {| instance_id := instance_id client0;
                     objects := <[group_id := b]> (objects client0);
                     persisted := {[group_id]} ∪ persisted client0 |}).
  assert (Hroot : forall net,
            gathered_object_ids net = frag_ids ->
            gathered_instance_ids net = map instance_id clients ->
            past_end net = past ->
            constructFragmentGroup client0 frag0 (at_rank comm 0)
              v_label_num e_label_num net = (Ok group_id, client1)).
  { intros net Ho Hi Hp. unfold constructFragmentGroup.
    cbn [at_rank worker_id fnum Nat.eqb].
    fold builder0.
    rewrite (add_fragments_ext (at_rank comm 0) net gathered) by assumption.
    fold b. unfold Seal, Persist. cbn [objects instance_id persisted].
    fold group_id. rewrite lookup_insert_eq. reflexivity. }
  assert (Hrun : run = imap (fun rank '(client, frag_id) =>
            constructFragmentGroup client frag_id (at_rank comm rank)
              v_label_num e_label_num
              {| gathered_instance_ids := map instance_id clients;
                 gathered_object_ids := frag_ids;
                 past_end := past;
                 broadcast_id := Some group_id |}) (zip clients frag_ids)).
  { subst run. unfold run_constructFragmentGroup.
    cbn [gathered_instance_ids gathered_object_ids].
    rewrite Hc0, Hf0.
    pose proof (Hroot gathered eq_refl eq_refl eq_refl) as Hg.
    unfold gathered in Hg. rewrite Hg. reflexivity. }
  pose proof (Hroot {| gathered_instance_ids := map instance_id clients;
                       gathered_object_ids := frag_ids;
                       past_end := past;
                       broadcast_id := Some group_id |}
                eq_refl eq_refl eq_refl) as Hroot1.
  exists group_id, b.
  assert (Hzip0 : zip clients frag_ids !! 0%nat = Some (client0, frag0)).
  { destruct clients, frag_ids; try discriminate.
    simpl in Hc0, Hf0 |- *. congruence. }
  split; [|split; [|split; [|split; [|split]]]].
  - rewrite Hrun, length_imap, length_zip, Hc, Hf. lia.
  - intros rank r Hr. rewrite Hrun, list_lookup_imap in Hr.
    destruct rank as [|rank].
    + rewrite Hzip0 in Hr. cbn [fmap option_fmap option_map] in Hr.
      rewrite Hroot1 in Hr. now inversion Hr.
    + destruct (zip clients frag_ids !! S rank) as [[c f]|]; [|discriminate].
      cbn [fmap option_fmap option_map] in Hr. inversion Hr. reflexivity.
  - exists (Ok group_id, client1). split.
    + rewrite Hrun, list_lookup_imap, Hzip0.
      cbn [fmap option_fmap option_map].
      now rewrite Hroot1.
    + cbn [snd objects persisted client1]. split.
      * apply lookup_insert_eq.
      * apply elem_of_union_l, elem_of_singleton. reflexivity.
  - intros rank r Hr. rewrite Hrun, list_lookup_imap in Hr.
    destruct (zip clients frag_ids !! S rank) as [[c f]|] eqn:Hz;
      [|discriminate].
    cbn [fmap option_fmap option_map] in Hr. inversion Hr; subst r.
    apply lookup_zip_Some in Hz as [Hz _]. exact Hz.
  - intros i. rewrite Hfr.
    destruct (decide (i < fnum comm)%nat) as [Hi|Hi].
    + rewrite decide_True by (apply elem_of_seq; lia). reflexivity.
    + rewrite decide_False by (rewrite elem_of_seq; lia).
      apply lookup_empty.
  - intros i. rewrite Hloc.
    destruct (decide (i < fnum comm)%nat) as [Hi|Hi].
    + rewrite decide_True by (apply elem_of_seq; lia). reflexivity.
    + rewrite decide_False by (rewrite elem_of_seq; lia).
      apply lookup_empty.
Qed.

(** C7. The group the coordinator publishes has exactly [fnum] entries,
    one per fragment id below [fnum]; entry [i] holds the object id and the
    instance id gathered from worker [FragToWorker i]; and every worker's
    call returns the id of that group. *)
Theorem constructFragmentGroup_entries
    (comm : CommSpec) (clients : list Client) (frag_ids : list ObjectID)
    (past : PastEnd) (v_label_num e_label_num : Z) :
  length clients = worker_num comm ->
  length frag_ids = worker_num comm ->
  (0 < worker_num comm)%nat ->
  (forall i, (i < fnum comm)%nat ->
             (FragToWorker comm i < worker_num comm)%nat) ->
  let run := run_constructFragmentGroup comm clients frag_ids past
               v_label_num e_label_num in
  exists group_id group,
    length run = worker_num comm /\
    (forall rank r, run !! rank = Some r -> fst r = Ok group_id) /\
    (exists root, run !! 0%nat = Some root /\
                  objects (snd root) !! group_id = Some group /\
                  group_id ∈ persisted (snd root)) /\
    size (fragments group) = fnum comm /\
    dom (fragments group) = set_seq 0 (fnum comm) /\
    (forall i, (i < fnum comm)%nat ->
       exists client,
         clients !! FragToWorker comm i = Some client /\
         fragments group !! i = frag_ids !! FragToWorker comm i /\
         is_Some (fragments group !! i) /\
         fragment_locations group !! i = Some (instance_id client)).
Proof.
  intros Hc Hf Hpos Hfw run.
  destruct (run_constructFragmentGroup_group comm clients frag_ids past
              v_label_num e_label_num Hc Hf Hpos)
    as (group_id & group & Hlen & Hall & Hroot & _ & Hfr & Hloc).
  fold run in Hlen, Hall, Hroot.
  exists group_id, group.
  assert (Hdom : dom (fragments group) = set_seq 0 (fnum comm)).
  { apply set_eq. intros i. rewrite elem_of_dom, elem_of_set_seq, Hfr.
    destruct (decide (i < fnum comm)%nat); split; try lia; eauto.
    intros [? ?]. discriminate. }
  split; [exact Hlen|]. split; [exact Hall|]. split; [exact Hroot|].
  split; [rewrite <- size_dom, Hdom; apply size_set_seq|].
  split; [exact Hdom|].
  intros i Hi.
  destruct (lookup_lt_is_Some_2 clients (FragToWorker comm i))
    as [client Hcl]; [rewrite Hc; now apply Hfw|].
  exists client. split; [exact Hcl|].
  rewrite Hfr, Hloc, !decide_True by exact Hi.
  split; [|split; [eauto|]].
  - symmetry. apply vector_at_lookup. rewrite Hf. now apply Hfw.
  - f_equal. unfold vector_at.
    change (map instance_id clients) with (instance_id <$> clients).
    now rewrite list_lookup_fmap, Hcl.
Qed.

End FragmentGroupFacts.

(** ** Partitioner and shuffle *)

Section ListFacts.
Context {A B : Type}.

Lemma Permutation_concat (l l' : list (list A)) :
  l ≡ₚ l' -> concat l ≡ₚ concat l'.
Proof.
  induction 1 as [|x l l' _ IH|x y l|l l' l'' _ IH1 _ IH2]; simpl.
  - reflexivity.
  - now apply Permutation_app.
  - rewrite !app_assoc. apply Permutation_app; [|reflexivity].
    apply Permutation_app_comm.
  - now transitivity (concat l').
Qed.

Lemma concat_map_app (f g : B -> list A) (l : list B) :
  concat (map (fun x => f x ++ g x) l)
  ≡ₚ concat (map f l) ++ concat (map g l).
Proof.
  induction l as [|x l IH]; simpl; [reflexivity|].
  rewrite IH, <- !app_assoc. apply Permutation_app; [reflexivity|].
  rewrite !app_assoc. apply Permutation_app; [|reflexivity].
  apply Permutation_app_comm.
Qed.

Lemma concat_map_perm (f g : B -> list A) (l : list B) :
  (forall x, x ∈ l -> f x ≡ₚ g x) ->
  concat (map f l) ≡ₚ concat (map g l).
Proof.
  induction l as [|x l IH]; intros H; simpl; [reflexivity|].
  apply Permutation_app.
  - apply H, list_elem_of_here.
  - apply IH. intros y Hy. apply H. now apply list_elem_of_further.
Qed.

Lemma concat_map_nil (l : list B) :
  concat (map (fun _ => @nil A) l) = [].
Proof. induction l as [|x l IH]; simpl; auto. Qed.

Lemma elem_of_concat (x : A) (ls : list (list A)) :
  x ∈ concat ls <-> exists l, l ∈ ls /\ x ∈ l.
Proof.
  rewrite list_elem_of_In, in_concat. split; intros (l & Hl & Hx); exists l.
  - now rewrite !list_elem_of_In.
  - now rewrite <- !list_elem_of_In.
Qed.

End ListFacts.

(** Summing over two indices in either order. *)
Lemma concat_swap {A B C : Type} (X : A -> B -> list C)
    (la : list A) (lb : list B) :
  concat (map (fun a => concat (map (fun b => X a b) lb)) la)
  ≡ₚ concat (map (fun b => concat (map (fun a => X a b) la)) lb).
Proof.
  induction la as [|a la IH]; simpl.
  - now rewrite concat_map_nil.
  - rewrite IH. symmetry. apply concat_map_app.
Qed.

Section Buckets.
Context {A : Type}.
Variable key : A -> nat.

(** The buckets of the keys [s], ..., [s + n - 1] partition a list whose
    elements all have one of these keys. *)
Lemma buckets_partition (n : nat) : forall (s : nat) (l : list A),
  (forall r, r ∈ l -> (s <= key r < s + n)%nat) ->
  concat (map (fun dst => filter (fun r => key r = dst) l) (seq s n)) ≡ₚ l.
Proof.
  induction n as [|n IH]; intros s l Hl; simpl.
  - destruct l as [|r l]; [reflexivity|].
    specialize (Hl r (list_elem_of_here _ _)). lia.
  - transitivity (filter (fun r => key r = s) l ++
                  filter (fun r => key r <> s) l);
      [|apply filter_app_complement].
    apply Permutation_app; [reflexivity|].
    transitivity
      (concat (map (fun dst => filter (fun r => key r = dst)
                                 (filter (fun r => key r <> s) l))
                   (seq (S s) n))).
    + apply eq_subrelation; [typeclasses eauto|]. f_equal.
      apply map_ext_in. intros dst Hdst. apply in_seq in Hdst.
      rewrite list_filter_filter. apply list_filter_iff.
      intros r. split; [intros ->; split; [reflexivity|lia]|tauto].
    + apply IH. intros r Hr. apply list_elem_of_filter in Hr as [Hne Hr].
      specialize (Hl r Hr). lia.
Qed.

End Buckets.

Section ShuffleFacts.
Context {OID : Type} `{EqDecision OID} {Props : Type}.
Variable stable_hash : OID -> N.

Local Abbreviation GetPartitionId' := (GetPartitionId stable_hash).

Lemma GetPartitionId_lt (p : HashPartitioner) (oid : OID) :
  (0 < fnum_ p)%nat -> (GetPartitionId' p oid < fnum_ p)%nat.
Proof.
  intros Hpos. unfold GetPartitionId.
  assert (stable_hash oid mod N.of_nat (fnum_ p) < N.of_nat (fnum_ p))%N
    by (apply N.mod_lt; lia).
  lia.
Qed.

Section Exchange.
Context {Row : Type}.
Variable owner : Row -> nat.

Lemma filter_concat (P : Row -> Prop) `{forall r, Decision (P r)}
    (ls : list (list Row)) :
  filter P (concat ls) = concat (map (filter P) ls).
Proof.
  induction ls as [|l ls IH]; simpl; [reflexivity|].
  now rewrite filter_app, IH.
Qed.

(** What [dst] receives for a label is what the workers read for that
    label, restricted to the rows [dst] owns. *)
Lemma received_filter (inputs : list (list (nat * list Row)))
    (label dst : nat) :
  received owner inputs label dst
  = filter (fun r => owner r = dst) (all_rows inputs label).
Proof.
  unfold received, all_rows, batch. rewrite filter_concat, map_map.
  reflexivity.
Qed.

Lemma owned_shuffle (fnum label_num : nat) inputs (w label : nat) :
  (w < fnum)%nat -> (label < label_num)%nat ->
  owned (shuffle owner fnum label_num inputs) w label
  = received owner inputs label w.
Proof.
  intros Hw Hl. unfold owned, shuffle, label_table.
  change (map ?f ?l) with (f <$> l).
  rewrite list_lookup_fmap, lookup_seq_lt by exact Hw. cbn.
  rewrite list_lookup_fmap, lookup_seq_lt by exact Hl. reflexivity.
Qed.

(** Over all destinations, the shuffle of a label returns the rows read
    for it, each as often as it was read. *)
Lemma shuffle_exactly_once (fnum label_num : nat) inputs (label : nat) :
  (label < label_num)%nat ->
  (forall r, r ∈ all_rows inputs label -> (owner r < fnum)%nat) ->
  concat (map (fun w => owned (shuffle owner fnum label_num inputs) w label)
              (seq 0 fnum))
  ≡ₚ all_rows inputs label.
Proof.
  intros Hl Hown.
  transitivity
    (concat (map (fun dst => filter (fun r => owner r = dst)
                               (all_rows inputs label)) (seq 0 fnum))).
  - apply eq_subrelation; [typeclasses eauto|]. f_equal.
    apply map_ext_in. intros w Hw. apply in_seq in Hw.
    rewrite owned_shuffle by lia. apply received_filter.
  - apply buckets_partition. intros r Hr. specialize (Hown r Hr). lia.
Qed.

(** The rows of a table that was read are rows read for its label. *)
Lemma elem_all_rows (inputs : list (list (nat * list Row))) tables table r :
  tables ∈ inputs -> table ∈ tables -> r ∈ snd table ->
  r ∈ all_rows inputs (fst table).
Proof.
  intros H1 H2 H3. unfold all_rows. apply elem_of_concat.
  exists (rows_of_label tables (fst table)). split.
  - apply list_elem_of_fmap. eauto.
  - unfold rows_of_label. apply elem_of_concat. exists (snd table).
    split; [|exact H3]. apply list_elem_of_fmap. exists table.
    split; [reflexivity|]. now apply list_elem_of_filter.
Qed.

Lemma all_rows_elem (inputs : list (list (nat * list Row))) label r :
  r ∈ all_rows inputs label ->
  exists tables table,
    tables ∈ inputs /\ table ∈ tables /\
    fst table = label /\ r ∈ snd table.
Proof.
  unfold all_rows, rows_of_label. intros H.
  apply elem_of_concat in H as (rows & Hrows & Hr).
  apply list_elem_of_fmap in Hrows as (tables & -> & Htables).
  apply elem_of_concat in Hr as (rows & Hrows & Hr).
  apply list_elem_of_fmap in Hrows as (table & -> & Htable).
  apply list_elem_of_filter in Htable as [Hl Htable]. eauto 8.
Qed.

(** The tables of one worker, label by label, are its rows. *)
Lemma rows_by_label (label_num : nat) (tables : list (nat * list Row)) :
  (forall table, table ∈ tables -> (fst table < label_num)%nat) ->
  concat (map (rows_of_label tables) (seq 0 label_num))
  ≡ₚ concat (map snd tables).
Proof.
  intros Hl. unfold rows_of_label.
  transitivity
    (concat (map snd
       (concat (map (fun label => filter (fun table => fst table = label)
                                    tables) (seq 0 label_num))))).
  - apply eq_subrelation; [typeclasses eauto|].
    induction (seq 0 label_num) as [|label labels IH]; simpl;
      [reflexivity|].
    now rewrite map_app, concat_app, IH.
  - apply Permutation_concat, Permutation_map.
    apply (buckets_partition fst). intros table Ht.
    specialize (Hl table Ht). lia.
Qed.

Lemma every_row_by_label (label_num : nat)
    (inputs : list (list (nat * list Row))) :
  labels_below label_num inputs ->
  concat (map (all_rows inputs) (seq 0 label_num)) ≡ₚ every_row inputs.
Proof.
  induction inputs as [|tables inputs IH]; intros Hl.
  - unfold all_rows, every_row. simpl. now rewrite concat_map_nil.
  - transitivity
      (concat (map (rows_of_label tables) (seq 0 label_num)) ++
       concat (map (all_rows inputs) (seq 0 label_num))).
    + apply (concat_map_app (rows_of_label tables) (all_rows inputs)).
    + unfold every_row. simpl. apply Permutation_app.
      * apply rows_by_label. intros table Ht.
        apply (Hl tables); [apply list_elem_of_here|exact Ht].
      * apply IH. intros ts t Hts Ht.
        apply (Hl ts); [now apply list_elem_of_further|exact Ht].
Qed.

(** Over all workers and labels, the shuffle returns the rows read, each
    as often as it was read. *)
Lemma shuffle_every_row (fnum label_num : nat) inputs :
  labels_below label_num inputs ->
  (forall r, r ∈ every_row inputs -> (owner r < fnum)%nat) ->
  concat (map (holds (shuffle owner fnum label_num inputs) label_num)
              (seq 0 fnum))
  ≡ₚ every_row inputs.
Proof.
  intros Hl Hown. unfold holds.
  rewrite (concat_swap
             (fun w label => owned (shuffle owner fnum label_num inputs)
                               w label)).
  rewrite <- (every_row_by_label label_num inputs Hl).
  apply concat_map_perm. intros label Hlabel. apply elem_of_seq in Hlabel.
  apply shuffle_exactly_once; [lia|].
  intros r Hr. apply Hown.
  apply all_rows_elem in Hr as (tables & table & H1 & H2 & _ & H3).
  unfold every_row. apply elem_of_concat.
  exists (concat (map snd tables)). split.
  - apply list_elem_of_fmap. eauto.
  - apply elem_of_concat. exists (snd table). split; [|exact H3].
    apply list_elem_of_fmap. eauto.
Qed.

End Exchange.

Lemma index_of_is_Some (oid : OID) (oids : list OID) :
  oid ∈ oids -> is_Some (index_of oid oids).
Proof.
  induction 1 as [oid oids|oid x oids _ IH]; simpl.
  - rewrite decide_True by reflexivity. eauto.
  - destruct (decide (x = oid)); [eauto|].
    destruct IH as [k ->]. simpl. eauto.
Qed.

Lemma find_in_labels_is_Some (oid : OID) (labels : list (list OID)) oids :
  oids ∈ labels -> oid ∈ oids -> is_Some (find_in_labels oid labels).
Proof.
  induction 1 as [oids labels|oids other labels _ IH]; intros Hin; simpl.
  - destruct (index_of_is_Some _ _ Hin) as [k ->]. eauto.
  - destruct (index_of oid other); [eauto|]. now apply IH.
Qed.

Lemma GetGid_fid oid_lists fid (oid : OID) g :
  GetGid oid_lists fid oid = Some g -> gid_fid g = fid.
Proof.
  unfold GetGid. destruct (oid_lists !! fid) as [labels|]; [|discriminate].
  simpl. destruct (find_in_labels oid labels); [|discriminate].
  simpl. intros Hg. inversion Hg. reflexivity.
Qed.

(** An oid read as a vertex is in the vertex map, under the fragment the
    partitioner sends it to. *)
Lemma GetGid_of_vertex (p : HashPartitioner) (fnum vertex_label_num : nat)
    (v_inputs : list (list (nat * list (@VertexRow OID Props))))
    (oid : OID) (props : Props) (label : nat) :
  fnum_ p = fnum -> (0 < fnum)%nat -> (label < vertex_label_num)%nat ->
  (oid, props) ∈ all_rows v_inputs label ->
  is_Some (GetGid
             (GetOidLists
                (ShuffleVertexTables stable_hash p fnum vertex_label_num
                   v_inputs))
             (GetPartitionId' p oid) oid).
Proof.
  intros Hp Hpos Hl Hin.
  assert (Hfid : (GetPartitionId' p oid < fnum)%nat).
  { rewrite <- Hp. apply GetPartitionId_lt. lia. }
  unfold GetGid, GetOidLists, ShuffleVertexTables, shuffle.
  change (map ?f ?l) with (f <$> l).
  rewrite !list_lookup_fmap, lookup_seq_lt by exact Hfid. cbn.
  match goal with
  | |- is_Some (?o ≫= _) => assert (Ho : is_Some o)
  end.
  { apply (find_in_labels_is_Some _ _
             (fst <$> received (fun row => GetPartitionId' p (fst row))
                        v_inputs label (GetPartitionId' p oid))).
    - apply list_elem_of_fmap. eexists. split; [reflexivity|].
      apply list_elem_of_fmap. exists label. split; [reflexivity|].
      apply elem_of_seq. lia.
    - apply list_elem_of_fmap. exists (oid, props). split; [reflexivity|].
      rewrite received_filter. apply list_elem_of_filter.
      split; [reflexivity|exact Hin]. }
  destruct Ho as [k ->]. cbn. eauto.
Qed.

Lemma Forall2_rows_of_label {A B : Type} (R : A -> B -> Prop)
    (tables : list (nat * list A)) (tables' : list (nat * list B))
    (label : nat) :
  Forall2 (resolved_as R) tables tables' ->
  Forall2 R (rows_of_label tables label) (rows_of_label tables' label).
Proof.
  unfold rows_of_label.
  induction 1 as [|t t' ts ts' [Hl Ht] _ IH]; simpl; [constructor|].
  rewrite !filter_cons. rewrite <- Hl.
  destruct (decide (fst t = label)); simpl; [|exact IH].
  now apply Forall2_app.
Qed.

Lemma Forall2_all_rows {A B : Type} (R : A -> B -> Prop)
    (inputs : list (list (nat * list A)))
    (outputs : list (list (nat * list B))) (label : nat) :
  Forall2 (Forall2 (resolved_as R)) inputs outputs ->
  Forall2 R (all_rows inputs label) (all_rows outputs label).
Proof.
  unfold all_rows. induction 1 as [|t t' ts ts' Ht _ IH]; simpl.
  - constructor.
  - apply Forall2_app; [|exact IH]. now apply Forall2_rows_of_label.
Qed.

Lemma Forall2_every_row {A B : Type} (R : A -> B -> Prop)
    (inputs : list (list (nat * list A)))
    (outputs : list (list (nat * list B))) :
  Forall2 (Forall2 (resolved_as R)) inputs outputs ->
  Forall2 R (every_row inputs) (every_row outputs).
Proof.
  unfold every_row. induction 1 as [|ts ts' tss tss' Hts _ IH]; simpl.
  - constructor.
  - apply Forall2_app; [|exact IH]. clear IH.
    induction Hts as [|t t' ts ts' [_ Ht] _ IH]; simpl; [constructor|].
    now apply Forall2_app.
Qed.

Lemma Forall2_labels_below {A B : Type} (R : A -> B -> Prop)
    (label_num : nat) (inputs : list (list (nat * list A)))
    (outputs : list (list (nat * list B))) :
  Forall2 (Forall2 (resolved_as R)) inputs outputs ->
  labels_below label_num inputs -> labels_below label_num outputs.
Proof.
  intros HF Hl ts' t' Hts' Ht'.
  apply list_elem_of_lookup in Hts' as [i Hi].
  destruct (Forall2_lookup_r _ _ _ _ _ HF Hi) as (ts & Hts & HFt).
  apply list_elem_of_lookup in Ht' as [j Hj].
  destruct (Forall2_lookup_r _ _ _ _ _ HFt Hj) as (t & Ht & [Hfst _]).
  rewrite <- Hfst. apply (Hl ts); apply list_elem_of_lookup; eauto.
Qed.

Lemma owned_map {A B : Type} (f : A -> B)
    (outputs : list (list (list A))) (w label : nat) :
  owned (map (map (map f)) outputs) w label = map f (owned outputs w label).
Proof.
  unfold owned, label_table. change (map ?g ?l) with (g <$> l).
  rewrite list_lookup_fmap. destruct (outputs !! w) as [tables|]; cbn.
  - rewrite list_lookup_fmap. now destruct (tables !! label).
  - reflexivity.
Qed.

(** C1. The shuffle stage succeeds when every table read carries one of
    the labels and the endpoints of the edges are vertices that were read.
    Then every row of every table read is held by the worker that owns it,
    under the label of its table (a vertex row by [GetPartitionId] of its
    oid, an edge row by [GetPartitionId] of its source, with both
    endpoints resolved to gids); what a worker holds for a label is
    exactly the rows read for it, by any worker, that it owns; over all
    workers and labels every row read appears exactly as often as it was
    read; and the owned oid lists of a label together are the oids read
    for it, each owned by the worker the partitioner names, without
    duplicates when the oids read have none. *)
Theorem shuffle_stage_exactly_once
    (comm : CommSpec) (vertex_label_num edge_label_num : nat)
    (v_inputs : list (list (nat * list (@VertexRow OID Props))))
    (e_inputs : list (list (nat * list (@EdgeRow OID Props)))) :
  (0 < fnum comm)%nat ->
  labels_below vertex_label_num v_inputs ->
  labels_below edge_label_num e_inputs ->
  endpoints_known v_inputs e_inputs ->
  let p := snd (initPartitioner comm) in
  exists local_v_tables local_e_tables,
    shuffle_stage stable_hash p (fnum comm) vertex_label_num edge_label_num
      v_inputs e_inputs = Ok (local_v_tables, local_e_tables) /\
    (forall tables table row,
       tables ∈ v_inputs -> table ∈ tables -> row ∈ snd table ->
       row ∈ owned local_v_tables (GetPartitionId' p (fst row))
                   (fst table)) /\
    (forall w label, (w < fnum comm)%nat -> (label < vertex_label_num)%nat ->
       owned local_v_tables w label
       ≡ₚ filter (fun row => GetPartitionId' p (fst row) = w)
                 (all_rows v_inputs label)) /\
    concat (map (holds local_v_tables vertex_label_num) (seq 0 (fnum comm)))
    ≡ₚ every_row v_inputs /\
    (forall w label oid,
       (w < fnum comm)%nat -> (label < vertex_label_num)%nat ->
       oid ∈ owned (GetOidLists local_v_tables) w label ->
       GetPartitionId' p oid = w) /\
    (forall label, (label < vertex_label_num)%nat ->
       concat (map (fun w => owned (GetOidLists local_v_tables) w label)
                   (seq 0 (fnum comm)))
       ≡ₚ map fst (all_rows v_inputs label) /\
       (NoDup (map fst (all_rows v_inputs label)) ->
        NoDup (concat (map (fun w => owned (GetOidLists local_v_tables) w label)
                           (seq 0 (fnum comm)))))) /\
    let mapper := fun fid oid => GetGid (GetOidLists local_v_tables) fid oid in
    (forall tables table e,
       tables ∈ e_inputs -> table ∈ tables -> e ∈ snd table ->
       exists e',
         resolve_edge stable_hash p mapper e = Some e' /\
         e' ∈ owned local_e_tables (GetPartitionId' p (fst (fst e)))
                    (fst table)) /\
    (forall w label, (w < fnum comm)%nat -> (label < edge_label_num)%nat ->
       exists routed,
         mapM (resolve_edge stable_hash p mapper)
              (filter (fun e => GetPartitionId' p (fst (fst e)) = w)
                      (all_rows e_inputs label)) = Some routed /\
         owned local_e_tables w label ≡ₚ routed) /\
    (exists resolved,
       mapM (resolve_edge stable_hash p mapper) (every_row e_inputs)
       = Some resolved /\
       concat (map (holds local_e_tables edge_label_num) (seq 0 (fnum comm)))
       ≡ₚ resolved).
Proof.
  intros Hpos Hvl Hel Hknown p.
  assert (Hp : fnum_ p = fnum comm) by reflexivity.
  clearbody p.
  set (vout := ShuffleVertexTables stable_hash p (fnum comm) vertex_label_num
                 v_inputs).
  set (mapper := fun fid oid => GetGid (GetOidLists vout) fid oid).
  set (R := fun (e : @EdgeRow OID Props) (e' : @GidEdgeRow Props) =>
              resolve_edge stable_hash p mapper e = Some e').
  assert (Hres : forall tables table e,
            tables ∈ e_inputs -> table ∈ tables -> e ∈ snd table ->
            is_Some (resolve_edge stable_hash p mapper e)).
  { intros tables table [[src dst] props] H1 H2 H3.
    destruct (Hknown _ _ _ src H1 H2 H3 (or_introl eq_refl))
      as (ts & t & ps & Hts & Ht & Hs).
    destruct (Hknown _ _ _ dst H1 H2 H3 (or_intror eq_refl))
      as (td & t' & pd & Htd & Ht' & Hd).
    destruct (GetGid_of_vertex p (fnum comm) vertex_label_num v_inputs
                src ps (fst t) Hp Hpos (Hvl _ _ Hts Ht)
                (elem_all_rows _ _ _ _ Hts Ht Hs)) as [gs Hgs].
    destruct (GetGid_of_vertex p (fnum comm) vertex_label_num v_inputs
                dst pd (fst t') Hp Hpos (Hvl _ _ Htd Ht')
                (elem_all_rows _ _ _ _ Htd Ht' Hd)) as [gd Hgd].
    unfold resolve_edge, mapper, vout. cbv beta.
    rewrite Hgs. cbn [mbind option_bind].
    rewrite Hgd. cbn [mbind option_bind]. eauto. }
  destruct (mapM_is_Some_2
              (mapM (resolve_table stable_hash p mapper)) e_inputs)
    as [resolved Hresolved].
  { apply Forall_forall. intros tables H1.
    change (is_Some (mapM (resolve_table stable_hash p mapper) tables)).
    apply mapM_is_Some_2, Forall_forall. intros table H2.
    destruct (mapM_is_Some_2 (resolve_edge stable_hash p mapper) (snd table))
      as [rows Hrows].
    { apply Forall_forall. intros e H3. cbn. eauto. }
    change (is_Some (resolve_table stable_hash p mapper table)).
    unfold resolve_table. rewrite Hrows. cbn. eauto. }
  assert (HF : Forall2 (Forall2 (resolved_as R)) e_inputs resolved).
  { apply mapM_Some_1 in Hresolved.
    eapply Forall2_impl; [exact Hresolved|]. intros ts ts' Hts. cbn in Hts.
    apply mapM_Some_1 in Hts.
    eapply Forall2_impl; [exact Hts|]. intros t t' Ht.
    unfold resolve_table in Ht.
    destruct (mapM (resolve_edge stable_hash p mapper) (snd t))
      as [rows|] eqn:Hrows; [|discriminate].
    cbn in Ht. inversion Ht; subst t'. split; [reflexivity|].
    now apply mapM_Some_1 in Hrows. }
  assert (Hown : forall e e', R e e' ->
            edge_owner e' = GetPartitionId' p (fst (fst e))).
  { intros [[src dst] props] e' He. unfold R, resolve_edge in He.
    destruct (mapper (GetPartitionId' p src) src) as [gs|] eqn:Egs;
      cbn [mbind option_bind] in He; [|discriminate].
    destruct (mapper (GetPartitionId' p dst) dst) as [gd|];
      cbn [mbind option_bind] in He; [|discriminate].
    inversion He; subst e'. unfold edge_owner. cbn [fst].
    unfold mapper in Egs. now apply GetGid_fid in Egs. }
  assert (Hvlt : forall row : @VertexRow OID Props,
            (GetPartitionId' p (fst row) < fnum comm)%nat).
  { intros row. rewrite <- Hp. apply GetPartitionId_lt. lia. }
  assert (Helt : forall e e', R e e' -> (edge_owner e' < fnum comm)%nat).
  { intros e e' He. rewrite (Hown e e' He), <- Hp.
    apply GetPartitionId_lt. lia. }
  assert (Hvown : forall w label,
            (w < fnum comm)%nat -> (label < vertex_label_num)%nat ->
            owned vout w label
            = filter (fun row => GetPartitionId' p (fst row) = w)
                     (all_rows v_inputs label)).
  { intros w label Hw Hl. unfold vout, ShuffleVertexTables.
    rewrite owned_shuffle by assumption. apply received_filter. }
  assert (Hvall : forall label, (label < vertex_label_num)%nat ->
            concat (map (fun w => owned vout w label) (seq 0 (fnum comm)))
            ≡ₚ all_rows v_inputs label).
  { intros label Hl. apply shuffle_exactly_once; [exact Hl|].
    intros row _. apply Hvlt. }
  set (eout := shuffle edge_owner (fnum comm) edge_label_num resolved).
  assert (Heown : forall w label,
            (w < fnum comm)%nat -> (label < edge_label_num)%nat ->
            Forall2 R (filter (fun e => GetPartitionId' p (fst (fst e)) = w)
                              (all_rows e_inputs label))
                      (owned eout w label)).
  { intros w label Hw Hl. unfold eout.
    rewrite owned_shuffle by assumption. rewrite received_filter.
    apply Forall2_filter; [|now apply Forall2_all_rows].
    intros e e' He. now rewrite (Hown e e' He). }
  exists vout, eout.
  split.
  { unfold shuffle_stage, ShuffleEdgeTables. fold vout. fold mapper.
    rewrite Hresolved. reflexivity. }
  split; [|split; [|split; [|split; [|split;
    [|cbv zeta; fold mapper; split; [|split]]]]]].
  - intros tables table row H1 H2 H3.
    rewrite Hvown by first [apply Hvlt|exact (Hvl _ _ H1 H2)].
    apply list_elem_of_filter. split; [reflexivity|].
    now apply (elem_all_rows _ tables).
  - intros w label Hw Hl. now rewrite Hvown.
  - apply shuffle_every_row; [exact Hvl|]. intros row _. apply Hvlt.
  - intros w label oid Hw Hl Hoid. unfold GetOidLists in Hoid.
    rewrite owned_map, Hvown in Hoid by assumption.
    apply list_elem_of_fmap in Hoid as (row & -> & Hrow).
    now apply list_elem_of_filter in Hrow as [Hrow _].
  - intros label Hl.
    assert (Hoids : concat (map (fun w => owned (GetOidLists vout) w label)
                                (seq 0 (fnum comm)))
                    ≡ₚ map fst (all_rows v_inputs label)).
    { transitivity
        (map fst (concat (map (fun w => owned vout w label)
                              (seq 0 (fnum comm))))).
      - apply eq_subrelation; [typeclasses eauto|].
        rewrite concat_map, map_map. f_equal.
        apply map_ext. intros w. apply owned_map.
      - apply Permutation_map. now apply Hvall. }
    split; [exact Hoids|]. intros Hnd. now rewrite Hoids.
  - intros tables table e H1 H2 H3.
    destruct (Hres _ _ _ H1 H2 H3) as [e' He']. exists e'.
    split; [exact He'|].
    assert (HRe : R e e') by exact He'.
    unfold eout. rewrite <- (Hown e e' HRe).
    rewrite owned_shuffle
      by first [exact (Helt e e' HRe)|exact (Hel _ _ H1 H2)].
    rewrite received_filter. apply list_elem_of_filter.
    split; [reflexivity|].
    apply list_elem_of_lookup in H1 as [i Hi].
    destruct (Forall2_lookup_l _ _ _ _ _ HF Hi) as (tables' & Hi' & HFt).
    apply list_elem_of_lookup in H2 as [j Hj].
    destruct (Forall2_lookup_l _ _ _ _ _ HFt Hj)
      as (table' & Hj' & [Hfst HFr]).
    apply list_elem_of_lookup in H3 as [k Hk].
    destruct (Forall2_lookup_l _ _ _ _ _ HFr Hk) as (e'' & Hk' & HRe').
    assert (e'' = e') by (unfold R in HRe'; congruence). subst e''.
    rewrite Hfst.
    apply (elem_all_rows _ tables' table'); apply list_elem_of_lookup; eauto.
  - intros w label Hw Hl. exists (owned eout w label).
    split; [|reflexivity]. apply mapM_Some_2. now apply Heown.
  - exists (every_row resolved). split.
    + apply mapM_Some_2. now apply Forall2_every_row.
    + unfold eout. apply shuffle_every_row.
      * exact (Forall2_labels_below R _ _ _ HF Hel).
      * intros e' He'. apply list_elem_of_lookup in He' as [k Hk].
        destruct (Forall2_lookup_r _ _ _ _ _
                    (Forall2_every_row R _ _ HF) Hk) as (e & _ & He).
        now apply (Helt e).
Qed.

End ShuffleFacts.

(** ** FindMostCommonSchema: when it is defined, and what decides it *)

Section MostCommonMore.
Context `{AL : ArrowLib}.
Import StrOrd StrOrdFacts.

Hypothesis Equals_canonical :
  forall a b : DataType, Equals a b = true <-> ToString a = ToString b.
Hypothesis std_sort_perm :
  forall l : list Field, std_sort Field type_string_lt l ≡ₚ l.
Hypothesis std_sort_sorted :
  forall l : list Field,
    StronglySorted (fun x y => type_string_lt y x = false)
                   (std_sort Field type_string_lt l).

Lemma most_frequent_is_Some (l : list Field) :
  l <> [] -> is_Some (most_frequent (std_sort Field type_string_lt l)).
Proof using std_sort_perm.
  intros Hne. pose proof (std_sort_perm l) as Hp.
  destruct (std_sort Field type_string_lt l) as [|f0 rest].
  - apply Permutation_nil in Hp. contradiction.
  - simpl. eauto.
Qed.

Lemma most_common_field_is_Some i (schemas : list (option Schema)) :
  (i < first_field_num schemas)%nat ->
  is_Some (most_common_field i schemas) <->
  forall s, Some s ∈ schemas -> (i < num_fields s)%nat.
Proof using std_sort_perm.
  intros Hi. unfold most_common_field. split.
  - intros [f Hf].
    destruct (collect_fields i schemas) as [cs|] eqn:Hc; [|discriminate].
    now apply collect_fields_Some in Hc as [_ Hc].
  - intros Hr. rewrite (collect_fields_in_range i schemas Hr). simpl.
    apply most_frequent_is_Some.
    apply (collect_fields_nonempty i schemas); [|exact Hi].
    now apply collect_fields_in_range.
Qed.

(** X1. FindMostCommonSchema returns a schema exactly when no non-null
    schema has fewer fields than the first non-null one; otherwise one of
    the [schemas[j]->field(i)] of lines 149-156 is out of range. *)
Theorem FindMostCommonSchema_defined_iff (schemas : list (option Schema)) :
  is_Some (FindMostCommonSchema schemas) <-> wide_enough schemas.
Proof using std_sort_perm.
  unfold FindMostCommonSchema, wide_enough.
  transitivity (is_Some (mapM (fun i => most_common_field i schemas)
                              (seq 0 (first_field_num schemas)))).
  { destruct (mapM _ _); simpl; split; intros [? ?];
      eauto; discriminate. }
  rewrite mapM_is_Some, Forall_forall. split.
  - intros H s Hs.
    destruct (decide (first_field_num schemas <= num_fields s)%nat)
      as [|Hlt]; [assumption|exfalso].
    assert (Hlt' : (num_fields s < first_field_num schemas)%nat) by lia.
    assert (Hi : num_fields s ∈ seq 0 (first_field_num schemas))
      by (apply elem_of_seq; lia).
    specialize (H _ Hi). simpl in H.
    pose proof (proj1 (most_common_field_is_Some _ _ Hlt') H s Hs). lia.
  - intros H i Hi. apply elem_of_seq in Hi. simpl.
    assert (Hlt : (i < first_field_num schemas)%nat) by lia.
    apply (proj2 (most_common_field_is_Some _ _ Hlt)).
    intros s Hs. specialize (H s Hs). lia.
Qed.

(** X2. When no schema of the list is non-null (the empty list
    included), the result is the schema without fields. *)
Theorem FindMostCommonSchema_no_schema (schemas : list (option Schema)) :
  (forall os, os ∈ schemas -> os = None) ->
  FindMostCommonSchema schemas = Some {| fields := []; metadata := None |}.
Proof.
  intros H. unfold FindMostCommonSchema.
  assert (first_field_num schemas = 0%nat) as ->; [|reflexivity].
  induction schemas as [|os schemas IH]; [reflexivity|].
  rewrite (H os (list_elem_of_here _ _)). simpl. apply IH.
  intros os' Hos'. apply H. now apply list_elem_of_further.
Qed.

Lemma count_type_disjoint (a b : DataType) (l : list Field) :
  ToString a <> ToString b ->
  count_type a l + count_type b l <= Z.of_nat (length l).
Proof using Equals_canonical.
  intros Hab. induction l as [|f l IH]; simpl; [lia|].
  destruct (Equals (type f) a) eqn:Ea, (Equals (type f) b) eqn:Eb; try lia.
  apply Equals_canonical in Ea, Eb. congruence.
Qed.

Lemma count_type_pos (t : DataType) (l : list Field) :
  0 < count_type t l -> exists f, f ∈ l /\ Equals (type f) t = true.
Proof.
  induction l as [|f l IH]; simpl; [lia|].
  destruct (Equals (type f) t) eqn:E.
  - intros _. exists f. split; [apply list_elem_of_here|exact E].
  - intros H. destruct IH as (g & Hg & Eg); [lia|].
    exists g. split; [now apply list_elem_of_further|exact Eg].
Qed.

Lemma FindMostCommonSchema_field_modal
    (schemas : list (option Schema)) final i r :
  FindMostCommonSchema schemas = Some final ->
  fields final !! i = Some r ->
  modal_at r (contributed i schemas).
Proof using Equals_canonical std_sort_perm std_sort_sorted.
  unfold FindMostCommonSchema. intros H Hr.
  destruct (mapM _ _) as [fs|] eqn:Hfs; [|discriminate].
  simpl in H. inversion H; subst final; clear H. simpl in Hr.
  apply mapM_Some_1 in Hfs.
  destruct (Forall2_lookup_r _ _ _ _ _ Hfs Hr) as (j & Hj & Hm).
  apply lookup_seq in Hj as [-> Hlt]. simpl in Hm.
  unfold most_common_field in Hm.
  destruct (collect_fields i schemas) as [cs|] eqn:Hc; [|discriminate].
  simpl in Hm. pose proof (collect_fields_nonempty _ _ _ Hc Hlt) as Hne.
  apply collect_fields_Some in Hc as [-> _].
  destruct (most_frequent_modal Equals_canonical std_sort_perm
              std_sort_sorted _ Hne) as (r' & Hr' & Hmod).
  congruence.
Qed.

(** X3. A type that more than half of the non-null schemas have at a
    position is the type of the result at that position. *)
Theorem FindMostCommonSchema_majority_type
    (schemas : list (option Schema)) final i r (t : DataType) :
  FindMostCommonSchema schemas = Some final ->
  fields final !! i = Some r ->
  Z.of_nat (length (contributed i schemas))
    < 2 * count_type t (contributed i schemas) ->
  Equals (type r) t = true.
Proof using Equals_canonical std_sort_perm std_sort_sorted.
  intros Hf Hr Hmaj.
  destruct (FindMostCommonSchema_field_modal _ _ _ _ Hf Hr) as [_ Hall].
  set (l := contributed i schemas) in *.
  destruct (count_type_pos t l) as (f & Hfl & Ef); [lia|].
  apply Equals_canonical in Ef.
  destruct (Hall f Hfl) as [Hle _].
  rewrite (count_type_key Equals_canonical _ _ l Ef) in Hle.
  apply Equals_canonical.
  destruct (string_dec (ToString (type r)) (ToString t)) as [|Hne];
    [assumption|exfalso].
  pose proof (count_type_disjoint (type r) t l Hne). lia.
Qed.

(** X4. The types of the result do not depend on the order of the
    workers: two lists of schemas that are permutations of each other,
    with first non-null schemas of the same width, give results whose
    fields have equal types position by position. *)
Theorem FindMostCommonSchema_rank_order
    (schemas schemas' : list (option Schema)) final final' i r r' :
  schemas ≡ₚ schemas' ->
  FindMostCommonSchema schemas = Some final ->
  FindMostCommonSchema schemas' = Some final' ->
  fields final !! i = Some r ->
  fields final' !! i = Some r' ->
  Equals (type r) (type r') = true.
Proof using Equals_canonical std_sort_perm std_sort_sorted.
  intros Hp Hf Hf' Hr Hr'.
  pose proof (FindMostCommonSchema_field_modal _ _ _ _ Hf Hr) as Hm.
  pose proof (FindMostCommonSchema_field_modal _ _ _ _ Hf' Hr') as Hm'.
  assert (Hpc : contributed i schemas' ≡ₚ contributed i schemas).
  { unfold contributed. now rewrite Hp. }
  apply (modal_at_perm _ _ _ Hpc) in Hm'.
  destruct Hm as [Hin Hall], Hm' as [Hin' Hall'].
  destruct (Hall r' Hin') as [H1 T1], (Hall' r Hin) as [H2 T2].
  apply Equals_canonical. apply le_antisym.
  - apply T1. lia.
  - apply T2. lia.
Qed.

Lemma first_field_num_narrowed (m : nat) (schemas : list (option Schema)) :
  first_field_num (map (option_map (narrowed m)) schemas)
  = Nat.min m (first_field_num schemas).
Proof.
  induction schemas as [|[s|] schemas IH]; simpl.
  - lia.
  - unfold num_fields, narrowed. simpl. rewrite length_take. lia.
  - exact IH.
Qed.

Lemma collect_fields_narrowed (m i : nat) (schemas : list (option Schema)) :
  (i < m)%nat ->
  collect_fields i (map (option_map (narrowed m)) schemas)
  = collect_fields i schemas.
Proof.
  intros Hi. induction schemas as [|[s|] schemas IH]; simpl.
  - reflexivity.
  - rewrite IH. unfold field, narrowed. simpl.
    now rewrite lookup_take_lt by exact Hi.
  - exact IH.
Qed.

(** X5. Only the first [field_num] fields of a schema are ever read,
    where [field_num] is the width of the first non-null schema: cutting
    every schema down to that width changes nothing, so the extra columns
    of a wider schema never reach the result. *)
Theorem FindMostCommonSchema_ignores_extra_fields
    (schemas : list (option Schema)) :
  FindMostCommonSchema
    (map (option_map (narrowed (first_field_num schemas))) schemas)
  = FindMostCommonSchema schemas.
Proof.
  unfold FindMostCommonSchema.
  rewrite first_field_num_narrowed, Nat.min_id.
  assert (Hm : mapM (fun i => most_common_field i
                 (map (option_map (narrowed (first_field_num schemas)))
                      schemas))
                 (seq 0 (first_field_num schemas))
             = mapM (fun i => most_common_field i schemas)
                 (seq 0 (first_field_num schemas))).
  { apply Forall_mapM_ext, Forall_forall. intros i Hi.
    apply elem_of_seq in Hi. unfold most_common_field.
    rewrite collect_fields_narrowed by lia. reflexivity. }
  rewrite Hm. reflexivity.
Qed.

End MostCommonMore.

(** ** SyncSchema: the gather layout and the coordinator's verdict *)

Section CoordinateFacts.
Context {AL : ArrowLib} {IPC : ArrowIpc AL} {ETB : EmptyTableBuilder AL}.

Lemma to_int_small (z : Z) : 0 <= z < 2 ^ 31 -> to_int z = z.
Proof.
  intros H. unfold to_int. rewrite Z.mod_small by lia. lia.
Qed.

(** As long as the bytes gathered fit an [int], the sums of lines 209-217
    are exact: [total_len] is the number of bytes, every slice lies in the
    buffer, and the slices are the buffers sent.  [pre] is what lies in
    front of the part of the buffer still to be cut. *)
Lemma gather_layout (sent : list (list Byte.byte)) :
  forall (pre : list Byte.byte) (recvcounts : list Z) (total_len : Z),
  Forall2 (fun c b => c = Z.of_nat (length b)) recvcounts sent ->
  Z.of_nat (length (pre ++ concat sent)) <= total_len < 2 ^ 31 ->
  fold_left int_add recvcounts (Z.of_nat (length pre))
  = Z.of_nat (length (pre ++ concat sent)) /\
  forallb id (zip_with (in_buffer total_len)
                (displacements (Z.of_nat (length pre)) recvcounts)
                recvcounts) = true /\
  zip_with (slice (pre ++ concat sent))
           (displacements (Z.of_nat (length pre)) recvcounts) recvcounts
  = sent.
Proof.
  induction sent as [|b sent IH]; intros pre recvcounts total_len HF Hfit.
  - inversion HF. simpl. rewrite app_nil_r. auto.
  - inversion HF as [|c b' cs sent' Hc Hcs]; subst. simpl in Hfit |- *.
    assert (Hadd : int_add (Z.of_nat (length pre)) (Z.of_nat (length b))
                   = Z.of_nat (length (pre ++ b))).
    { unfold int_add. rewrite !length_app in Hfit. rewrite length_app.
      rewrite to_int_small; lia. }
    rewrite Hadd, (app_assoc pre b (concat sent)).
    destruct (IH (pre ++ b) cs total_len Hcs) as (Hsum & Hin & Hcut).
    { rewrite <- app_assoc. exact Hfit. }
    split; [exact Hsum|]. split.
    + rewrite Hin, andb_true_r. unfold id, in_buffer.
      rewrite !length_app in Hfit.
      repeat (apply andb_true_intro; split); apply Z.leb_le; lia.
    + f_equal; [|exact Hcut].
      unfold slice. rewrite <- app_assoc, !Nat2Z.id, drop_app_length.
      now rewrite take_app_length.
Qed.

(** X6. When every gathered count is the length of the matching send
    buffer and the buffers hold fewer than 2^31 bytes together,
    [total_len] is the number of bytes sent, every slice lies inside
    [total_string], and the displacements of lines 209-217 cut
    [total_string] back into exactly the buffers the workers sent, in rank
    order. *)
Theorem gather_layout_round_trip
    (recvcounts : list Z) (sent : list (list Byte.byte)) :
  Forall2 (fun c b => c = Z.of_nat (length b)) recvcounts sent ->
  total_bytes sent < 2 ^ 31 ->
  total_length recvcounts = total_bytes sent /\
  forallb id (zip_with (in_buffer (total_length recvcounts))
                (displacements 0 recvcounts) recvcounts) = true /\
  zip_with (slice (concat sent)) (displacements 0 recvcounts) recvcounts
  = sent.
Proof.
  intros HF Hfit. unfold total_bytes in *.
  destruct (gather_layout sent [] recvcounts (Z.of_nat (length (concat sent)))
              HF ltac:(simpl; lia)) as (Hsum & Hin & Hcut).
  unfold total_length. change (Z.of_nat (length [])) with 0 in *.
  simpl app in *. rewrite Hsum. auto.
Qed.

Lemma sum_sizes_nonneg (l : list Z) :
  Forall (fun c => 0 <= c) l -> 0 <= sum_sizes l.
Proof.
  unfold sum_sizes. induction 1 as [|c l Hc _ IH]; simpl; lia.
Qed.

Lemma sum_sizes_zero (l : list Z) :
  Forall (fun c => 0 <= c) l -> sum_sizes l = 0 -> Forall (fun c => c = 0) l.
Proof.
  unfold sum_sizes. induction 1 as [|c l Hc Hl IH]; simpl; intros H0;
    [constructor|].
  pose proof (sum_sizes_nonneg l Hl) as Hn. unfold sum_sizes in Hn.
  constructor; [lia|]. apply IH. lia.
Qed.

(** Sizes that are not negative and add up to an [int] are added without
    overflow. *)
Lemma int_sum_exact (l : list Z) : forall a,
  Forall (fun c => 0 <= c) l -> 0 <= a -> a + sum_sizes l < 2 ^ 31 ->
  fold_left int_add l a = a + sum_sizes l.
Proof.
  unfold sum_sizes. induction l as [|c l IH]; intros a Hl Ha Hfit; simpl.
  - lia.
  - apply Forall_cons in Hl as [Hc Hl]. simpl in Hfit.
    pose proof (sum_sizes_nonneg l Hl) as Hn. unfold sum_sizes in Hn.
    unfold int_add at 2. rewrite to_int_small by lia.
    rewrite IH by (assumption || lia). lia.
Qed.

Lemma deserialize_all_not_Err recvcounts buffers code msg :
  deserialize_all recvcounts buffers <> Err code msg.
Proof.
  revert buffers. induction recvcounts as [|c cs IH]; intros [|b bs];
    simpl; try discriminate.
  destruct (c =? 0).
  - specialize (IH bs). destruct (deserialize_all cs bs); congruence.
  - unfold DeserializeSchema. destruct (ipc_ReadSchema b); [|discriminate].
    specialize (IH bs). destruct (deserialize_all cs bs); congruence.
Qed.

(** The one error the coordinator returns, and the test that decides it. *)
Lemma coordinate_Err recvcounts sent code msg :
  coordinate recvcounts sent = Err code msg ->
  total_length recvcounts = 0 /\
  code = kIOError /\ msg = "All schema is empty"%string.
Proof.
  unfold coordinate.
  destruct (Z.eqb_spec (total_length recvcounts) 0) as [E|E].
  - intros H. inversion H. auto.
  - destruct (negb _); [discriminate|].
    destruct (deserialize_all recvcounts _) as [schemas| c m | | |] eqn:D.
    + destruct (FindMostCommonSchema schemas); discriminate.
    + now apply deserialize_all_not_Err in D.
    + discriminate.
    + discriminate.
    + discriminate.
Qed.

(** X7. For gathered sizes that are not negative and add up to an [int],
    the coordinator returns an error exactly when all of them are zero,
    and the only error it ever returns is [kIOError] with the text "All
    schema is empty": every other way it fails is an abort or an access
    out of range. *)
Theorem coordinate_error_iff
    (recvcounts : list Z) (sent : list (list Byte.byte)) :
  Forall (fun c => 0 <= c) recvcounts ->
  sum_sizes recvcounts < 2 ^ 31 ->
  (coordinate recvcounts sent = Err kIOError "All schema is empty"
   <-> Forall (fun c => c = 0) recvcounts) /\
  (forall code msg, coordinate recvcounts sent = Err code msg ->
                    code = kIOError /\ msg = "All schema is empty"%string).
Proof.
  intros Hnn Hfit. split; [split|].
  - intros H. apply coordinate_Err in H as (H0 & _).
    apply sum_sizes_zero; [exact Hnn|].
    unfold total_length in H0.
    rewrite int_sum_exact in H0 by (assumption || lia). lia.
  - intros Hz. unfold coordinate.
    assert (total_length recvcounts = 0) as ->; [|reflexivity].
    unfold total_length. induction Hz as [|c l -> _ IH]; [reflexivity|].
    apply Forall_cons in Hnn as [_ Hnn]. apply IH; [exact Hnn|].
    unfold sum_sizes in *. simpl in Hfit. lia.
  - intros code msg H. now apply coordinate_Err in H as (_ & ? & ?).
Qed.

Lemma local_size_length (tables : list (option Table)) :
  sizes_fit tables ->
  Forall2 (fun c b => c = Z.of_nat (length b))
          (map local_size tables) (map local_schema_buffer tables).
Proof.
  intros Hfit. induction tables as [|[t|] tables IH]; simpl.
  - constructor.
  - constructor.
    + apply to_int_small. specialize (Hfit t (list_elem_of_here _ _)). lia.
    + apply IH. intros t' Ht'. apply Hfit. now apply list_elem_of_further.
  - constructor; [reflexivity|].
    apply IH. intros t' Ht'. apply Hfit. now apply list_elem_of_further.
Qed.

Lemma deserialize_all_round_trip (tables : list (option Table)) :
  (forall t, Some t ∈ tables ->
     ipc_ReadSchema (ipc_SerializeSchema (schema t)) = Some (schema t)) ->
  sizes_fit tables ->
  deserialize_all (map local_size tables) (map local_schema_buffer tables)
  = Ok (map (option_map schema) tables).
Proof.
  intros Hrt Hfit. induction tables as [|[t|] tables IH]; simpl.
  - reflexivity.
  - pose proof (Hfit t (list_elem_of_here _ _)) as Ht.
    rewrite to_int_small by lia.
    destruct (Z.eqb_spec (Z.of_nat (length (SerializeSchema (schema t)))) 0);
      [lia|].
    unfold DeserializeSchema, SerializeSchema.
    rewrite (Hrt t (list_elem_of_here _ _)).
    rewrite IH; [reflexivity| |].
    + intros t' Ht'. apply Hrt. now apply list_elem_of_further.
    + intros t' Ht'. apply Hfit. now apply list_elem_of_further.
  - rewrite IH; [reflexivity| |].
    + intros t' Ht'. apply Hrt. now apply list_elem_of_further.
    + intros t' Ht'. apply Hfit. now apply list_elem_of_further.
Qed.

Lemma length_concat_elem (b : list Byte.byte) (sent : list (list Byte.byte)) :
  b ∈ sent -> (length b <= length (concat sent))%nat.
Proof.
  induction 1 as [b sent|b b' sent _ IH]; simpl; rewrite length_app; lia.
Qed.

(** X8. When Arrow reads back the schemas of the workers' tables as it
    serialised them, every serialisation is non-empty, and all of them
    together have fewer than 2^31 bytes, the coordinator decides on the
    workers' own schemas: with at least one worker holding a table, its
    final schema is FindMostCommonSchema of the schemas of the workers'
    tables (null for a worker without table), and it broadcasts that
    schema's serialisation. *)
Theorem coordinate_decides_on_local_schemas
    (tables : list (option Table)) (t0 : Table) :
  (forall t, Some t ∈ tables ->
     ipc_ReadSchema (ipc_SerializeSchema (schema t)) = Some (schema t)) ->
  sizes_fit tables ->
  total_fits tables ->
  Some t0 ∈ tables ->
  coordinate (map local_size tables) (map local_schema_buffer tables)
  = match FindMostCommonSchema (map (option_map schema) tables) with
    | Some final =>
        Ok (final,
            take (Z.to_nat
                    (to_int (Z.of_nat (length (SerializeSchema final)))))
                 (SerializeSchema final))
    | None => Undefined
    end.
Proof.
  intros Hrt Hfit Htotal Hin. unfold coordinate.
  pose proof (local_size_length tables Hfit) as HF.
  unfold total_fits, total_bytes in Htotal.
  destruct (gather_layout _ [] _
              (Z.of_nat (length (concat (map local_schema_buffer tables))))
              HF ltac:(rewrite app_nil_l; lia)) as (Hsum & Hbuf & Hcut).
  change (Z.of_nat (length [])) with 0 in *. rewrite app_nil_l in *.
  unfold total_length. rewrite Hsum, Hbuf, Hcut. cbn [negb].
  destruct (Z.eqb_spec
              (Z.of_nat (length (concat (map local_schema_buffer tables)))) 0)
    as [E|_].
  - exfalso.
    assert (Hb : local_schema_buffer (Some t0)
                 ∈ map local_schema_buffer tables).
    { apply list_elem_of_fmap. exists (Some t0). now split. }
    apply length_concat_elem in Hb. simpl in Hb.
    specialize (Hfit t0 Hin). lia.
  - rewrite (deserialize_all_round_trip tables Hrt Hfit).
    destruct (FindMostCommonSchema _); reflexivity.
Qed.

(** X9. SyncSchema changes the caller's table only when it succeeds; the
    one other place that may touch it is EmptyTableBuilder::Build, which
    gets the table by reference at line 282.  Whenever a call does not end
    in [Ok], the table is the one passed in, or the worker had no table,
    the builder failed on the final schema the worker got, and the call
    returned [kVineyardError] with the builder's text, the table being
    what the builder left. *)
Theorem SyncSchema_failure_keeps_table
    (table : option Table) (comm_spec : CommSpec) (net : SyncSchemaNet) :
  is_Ok (status (SyncSchema table comm_spec net)) = false ->
  table_after (SyncSchema table comm_spec net) = table \/
  (table = None /\
   exists final msg,
     obtains comm_spec net final /\
     Build_status final = Some msg /\
     status (SyncSchema table comm_spec net) = Err kVineyardError msg /\
     table_after (SyncSchema table comm_spec net) = Build_leaves final).
Proof.
  unfold SyncSchema, obtains.
  destruct (worker_num comm_spec =? 1)%nat; [discriminate|].
  assert (Hfin : forall cs final,
            is_Ok (status (finish cs (reconcile table final))) = false ->
            table_after (finish cs (reconcile table final)) = table \/
            (table = None /\
             exists msg,
               Build_status final = Some msg /\
               status (finish cs (reconcile table final))
               = Err kVineyardError msg /\
               table_after (finish cs (reconcile table final))
               = Build_leaves final)).
  { intros cs final. unfold finish, reconcile, EmptyTableBuilder_Build.
    cbn [status table_after]. destruct table as [t|].
    - destruct (PromoteTableToSchema t final); cbn [fst snd];
        [discriminate|now left].
    - destruct (Build_status final) as [msg|]; cbn [fst snd];
        [|discriminate].
      intros _. right. split; [reflexivity|]. exists msg. auto. }
  destruct (worker_id comm_spec =? 0)%nat.
  - destruct (coordinate _ _) as [[final bytes]|c m| | |] eqn:Hc;
      try (intros _; now left).
    intros H. destruct (Hfin _ _ H) as [?|(? & msg & ? & ? & ?)];
      [now left|right].
    split; [assumption|]. exists final, msg. eauto.
  - destruct (broadcast net) as [recv_buf|]; [|intros _; now left].
    destruct (DeserializeSchema recv_buf) as [final|c m| | |] eqn:Hd;
      try (intros _; now left).
    intros H. destruct (Hfin _ _ H) as [?|(? & msg & ? & ? & ?)];
      [now left|right].
    split; [assumption|]. exists final, msg. eauto 6.
Qed.

(** X10. In a run of more than one worker, a worker's call ends in [Ok]
    only if the coordinator reached its broadcast; the worker then went
    through the gather, the gatherv and the two broadcasts, and it holds a
    table: after a successful call of several workers the table is never
    null. *)
Theorem run_SyncSchema_success
    (comm : CommSpec) (tables : list (option Table)) (r : SyncSchemaRun) :
  worker_num comm = length tables ->
  (1 < length tables)%nat ->
  r ∈ run_SyncSchema comm tables ->
  is_Ok (status r) = true ->
  (exists final bytes,
     coordinate (map local_size tables) (map local_schema_buffer tables)
     = Ok (final, bytes)) /\
  calls r = [MPI_Gather; MPI_Gatherv; MPI_Bcast; MPI_Bcast] /\
  is_Some (table_after r).
Proof.
  intros Hn Hlen Hr Hok.
  assert (Hw : (worker_num comm =? 1)%nat = false).
  { apply Nat.eqb_neq. lia. }
  unfold run_SyncSchema in Hr.
  apply list_elem_of_lookup in Hr as [rank Hr].
  rewrite list_lookup_imap in Hr.
  destruct (tables !! rank) as [table|]; [|discriminate].
  cbn [fmap option_fmap option_map] in Hr. inversion Hr; subst r; clear Hr.
  revert Hok. unfold SyncSchema.
  cbn [at_rank worker_num worker_id gathered_sizes gathered_buffers
       broadcast].
  rewrite Hw.
  assert (Hfin : forall cs final,
            is_Ok (status (finish cs (reconcile table final))) = true ->
            calls (finish cs (reconcile table final)) = cs /\
            is_Some (table_after (finish cs (reconcile table final)))).
  { intros cs final. unfold finish, reconcile, EmptyTableBuilder_Build.
    cbn [status table_after calls]. destruct table as [t|].
    - destruct (PromoteTableToSchema t final); cbn [fst snd];
        [eauto|discriminate].
    - destruct (Build_status final); cbn [fst snd]; [discriminate|eauto]. }
  destruct (coordinate _ _) as [[final bytes]|c m| | |] eqn:Hc;
    destruct (rank =? 0)%nat; try discriminate.
  - intros Hok. split; [eauto|]. now apply Hfin.
  - destruct (DeserializeSchema bytes); try discriminate.
    intros Hok. split; [eauto|]. now apply Hfin.
Qed.

End CoordinateFacts.

(** ** Label indices: stamped by the loaders, read back by shuffleAndBuild *)

Section StampFacts.
Context `{AL : ArrowLib}.
Variables ID_COLUMN SRC_COLUMN DST_COLUMN : string.

Lemma digit_value_digit_char (d : Z) :
  0 <= d < 10 -> digit_value (digit_char d) = Some d.
Proof.
  intros H.
  assert (Hd : d = 0 \/ d = 1 \/ d = 2 \/ d = 3 \/ d = 4 \/ d = 5 \/
               d = 6 \/ d = 7 \/ d = 8 \/ d = 9) by lia.
  repeat (destruct Hd as [->|Hd]; [reflexivity|]). now subst d.
Qed.

Lemma read_digits_digit (d : Z) (rest : string) (acc : option Z) :
  0 <= d < 10 ->
  read_digits (String (digit_char d) rest) acc
  = read_digits rest (Some (10 * default 0 acc + d)).
Proof.
  intros Hd.
  change (read_digits (String (digit_char d) rest) acc)
    with (match digit_value (digit_char d) with
          | Some v => read_digits rest (Some (10 * default 0 acc + v))
          | None => acc
          end).
  now rewrite digit_value_digit_char.
Qed.

Lemma digits_S (fuel : nat) (n : Z) (rest : string) :
  digits (S fuel) n rest
  = if n <? 10 then String (digit_char n) rest
    else digits fuel (n / 10) (String (digit_char (n mod 10)) rest).
Proof. reflexivity. Qed.

Lemma read_digits_digits (fuel : nat) : forall n rest acc,
  (0 < fuel)%nat -> 0 <= n < 10 ^ Z.of_nat fuel ->
  exists k, 0 <= k /\
    read_digits (digits fuel n rest) acc
    = read_digits rest (Some (default 0 acc * 10 ^ k + n)).
Proof.
  induction fuel as [|fuel IH]; intros n rest acc Hf Hn; [lia|].
  rewrite digits_S. destruct (Z.ltb_spec n 10) as [Hlt|Hge].
  - exists 1. split; [lia|].
    rewrite read_digits_digit by lia. do 2 f_equal. lia.
  - rewrite Nat2Z.inj_succ, Z.pow_succ_r in Hn by lia.
    assert (Hfuel : (0 < fuel)%nat).
    { destruct fuel; [change (10 ^ Z.of_nat 0) with 1 in Hn; lia|lia]. }
    destruct (IH (n / 10) (String (digit_char (n mod 10)) rest) acc Hfuel)
      as (k & Hk & ->).
    { split; [apply Z.div_pos; lia|].
      apply Z.div_lt_upper_bound; lia. }
    exists (k + 1). split; [lia|].
    rewrite read_digits_digit by (apply Z.mod_pos_bound; lia).
    do 2 f_equal. cbn [default]. rewrite Z.pow_add_r, Z.pow_1_r by lia.
    pose proof (Z.div_mod n 10 ltac:(lia)) as Hdm.
    unfold id. generalize (10 ^ k), (default 0 acc). intros p a. lia.
Qed.

Lemma digits_head (fuel : nat) : forall n rest,
  (0 < fuel)%nat -> 0 <= n ->
  exists d r, 0 <= d < 10 /\ digits fuel n rest = String (digit_char d) r.
Proof.
  induction fuel as [|fuel IH]; intros n rest Hf Hn; [lia|].
  rewrite digits_S. destruct (Z.ltb_spec n 10) as [Hlt|Hge].
  - exists n, rest. split; [lia|reflexivity].
  - destruct fuel as [|fuel'].
    + exists (n mod 10), rest.
      split; [apply Z.mod_pos_bound; lia|reflexivity].
    + apply IH; [lia|apply Z.div_pos; lia].
Qed.

Lemma stoi_digit_head (d : Z) (r : string) :
  0 <= d < 10 ->
  stoi (String (digit_char d) r)
  = (v ← read_digits (String (digit_char d) r) None;
     if (- 2 ^ 31 <=? v) && (v <? 2 ^ 31) then Some v else None).
Proof.
  intros H.
  assert (Hd : d = 0 \/ d = 1 \/ d = 2 \/ d = 3 \/ d = 4 \/ d = 5 \/
               d = 6 \/ d = 7 \/ d = 8 \/ d = 9) by lia.
  repeat (destruct Hd as [->|Hd]; [reflexivity|]). now subst d.
Qed.

(** What [std::to_string] prints for an [int], [std::stoi] reads back. *)
Lemma stoi_to_string (n : Z) :
  - 2 ^ 31 <= n < 2 ^ 31 -> stoi (to_string n) = Some n.
Proof.
  intros Hn. unfold to_string. destruct (Z.ltb_spec n 0) as [Hneg|Hpos].
  - destruct (read_digits_digits 10 (- n) "" None) as (k & _ & Hk);
      [lia|lia|].
    change (stoi (String "-" (digits 10 (- n) "")))
      with (v ← read_digits (digits 10 (- n) "") None;
            if (- 2 ^ 31 <=? - v) && (- v <? 2 ^ 31) then Some (- v)
            else None).
    rewrite Hk. simpl read_digits. cbn [mbind option_bind default].
    rewrite Z.mul_0_l, Z.add_0_l, Z.opp_involutive.
    destruct (Z.leb_spec (- 2 ^ 31) n), (Z.ltb_spec n (2 ^ 31));
      try lia. reflexivity.
  - destruct (digits_head 10 n "") as (d & r & Hd & Hr); [lia|lia|].
    destruct (read_digits_digits 10 n "" None) as (k & _ & Hk);
      [lia|lia|].
    rewrite Hr, (stoi_digit_head d r Hd), <- Hr, Hk.
    simpl read_digits. cbn [mbind option_bind default].
    rewrite Z.mul_0_l, Z.add_0_l.
    destruct (Z.leb_spec (- 2 ^ 31) n), (Z.ltb_spec n (2 ^ 31));
      try lia. reflexivity.
Qed.

Lemma vertex_meta_declares (table : Table) (label : Z) :
  - 2 ^ 31 <= label < 2 ^ 31 ->
  label_index_of (ReplaceSchemaMetadata table (vertex_meta ID_COLUMN label))
  = Ok label.
Proof.
  intros Hl. unfold label_index_of, ReplaceSchemaMetadata, vertex_meta.
  cbn [schema metadata].
  change (FindKey _ "label_index") with 1. cbn [Z.eqb value].
  change (value _ 1) with (Some (to_string label)).
  cbv beta iota. now rewrite stoi_to_string.
Qed.

Lemma edge_meta_declares (table : Table) (label : Z) :
  - 2 ^ 31 <= label < 2 ^ 31 ->
  label_index_of
    (ReplaceSchemaMetadata table (edge_meta SRC_COLUMN DST_COLUMN label))
  = Ok label.
Proof.
  intros Hl. unfold label_index_of, ReplaceSchemaMetadata, edge_meta.
  cbn [schema metadata].
  change (FindKey _ "label_index") with 2.
  change (value _ 2) with (Some (to_string label)).
  cbv beta iota. now rewrite stoi_to_string.
Qed.

(** X11. The label index the loaders stamp on a table is the one
    shuffleAndBuild reads from it: for every label that is an [int], the
    table stamped by loadVertexTables, and the one stamped by
    loadEdgeTables, declares that label, whatever the names of the id and
    endpoint column keys. *)
Theorem stamped_label_index (table : Table) (label : Z) :
  - 2 ^ 31 <= label < 2 ^ 31 ->
  label_index_of (ReplaceSchemaMetadata table (vertex_meta ID_COLUMN label))
  = Ok label /\
  label_index_of
    (ReplaceSchemaMetadata table (edge_meta SRC_COLUMN DST_COLUMN label))
  = Ok label.
Proof.
  intros Hl. split.
  - now apply vertex_meta_declares.
  - now apply edge_meta_declares.
Qed.

End StampFacts.

(** ** Re-indexing by label: what a successful run tells *)

Section RearrangeMore.
Context `{AL : ArrowLib}.

Lemma place_Ok (rearranged : list (option Table)) (t : Table) rearranged' :
  Z.of_nat (length rearranged) <= 2 ^ 63 ->
  place rearranged t = Ok rearranged' ->
  exists i, label_index_of t = Ok i /\
            0 <= i < Z.of_nat (length rearranged) /\
            rearranged' = <[Z.to_nat i := Some t]> rearranged.
Proof.
  intros Hmax. unfold place.
  destruct (label_index_of t) as [i|c m| | |] eqn:Hi; try discriminate.
  pose proof (label_index_of_range _ _ Hi) as Hr.
  destruct (Z.ltb_spec (i mod 2 ^ 64) (Z.of_nat (length rearranged)))
    as [Hlt|]; [|discriminate].
  intros H. inversion H; subst rearranged'; clear H.
  assert (Hpos : 0 <= i).
  { destruct (Z.lt_ge_cases i 0) as [Hneg|]; [exfalso|assumption].
    assert (i mod 2 ^ 64 = i + 2 ^ 64).
    { symmetry. apply (Z.mod_unique_pos _ _ (-1)); lia. }
    lia. }
  rewrite Z.mod_small in * by lia. exists i. auto.
Qed.

Lemma place_all_content (tables : list Table) :
  forall rearranged r,
  Z.of_nat (length rearranged) <= 2 ^ 63 ->
  place_all rearranged tables = Ok r ->
  length r = length rearranged /\
  declares_slots (length rearranged) tables /\
  forall p,
    (r !! p = rearranged !! p /\
     forall t, t ∈ tables -> label_index_of t <> Ok (Z.of_nat p)) \/
    (exists t, t ∈ tables /\ label_index_of t = Ok (Z.of_nat p) /\
               r !! p = Some (Some t)).
Proof.
  induction tables as [|t tables IH]; intros rearranged r Hmax Hrun;
    simpl in Hrun.
  - inversion Hrun; subst r. split; [reflexivity|]. split.
    + intros t Ht. inversion Ht.
    + intros p. left. split; [reflexivity|]. intros t Ht. inversion Ht.
  - destruct (place rearranged t) as [acc| | | |] eqn:Hp; try discriminate.
    destruct (place_Ok _ _ _ Hmax Hp) as (i & Hi & Hr & ->).
    destruct (IH _ r ltac:(rewrite length_insert; exact Hmax) Hrun)
      as (Hlen & Hd & Hslots).
    rewrite length_insert in Hlen, Hd.
    split; [exact Hlen|]. split.
    + intros t' Ht'. apply elem_of_cons in Ht' as [->|Ht'];
        [eauto|now apply Hd].
    + intros p. destruct (Hslots p) as [[Heq Hno]|(t' & Ht' & Hi' & Hr')].
      * destruct (decide (Z.to_nat i = p)) as [<-|Hne].
        -- right. exists t. split; [apply list_elem_of_here|].
           split; [rewrite Hi; f_equal; lia|].
           rewrite Heq. apply list_lookup_insert_eq. lia.
        -- left. split.
           ++ rewrite Heq. now apply list_lookup_insert_ne.
           ++ intros t' Ht'. apply elem_of_cons in Ht' as [->|Ht'];
                [|now apply Hno].
              rewrite Hi. intros E. inversion E. lia.
      * right. exists t'. split; [now apply list_elem_of_further|]. auto.
Qed.

(** X12. The re-indexing returns a list only if every received table
    carries metadata with a "label_index" that [std::stoi] reads as a
    number from 0 up to the length of the list; a missing key, an
    unreadable or negative value, or an index past the end stops it.  The
    list it returns is as long as the received one. *)
Theorem rearrange_by_label_success
    (local_tables : list Table) (rearranged : list (option Table)) :
  Z.of_nat (length local_tables) <= 2 ^ 63 ->
  rearrange_by_label local_tables = Ok rearranged ->
  declares_slots (length local_tables) local_tables /\
  length rearranged = length local_tables.
Proof.
  intros Hmax Hrun. unfold rearrange_by_label in Hrun.
  destruct (place_all_content local_tables _ _
              ltac:(rewrite length_replicate; exact Hmax) Hrun)
    as (Hlen & Hd & _).
  rewrite length_replicate in Hlen, Hd. auto.
Qed.

(** X13. Every slot of the re-indexed list is accounted for by the
    labels: a slot holds a table that was received and that declares this
    slot as its label index, or it is null and no received table declares
    it.  No table is ever placed under another label. *)
Theorem rearrange_by_label_slot_content
    (local_tables : list Table) (rearranged : list (option Table)) (p : nat) :
  Z.of_nat (length local_tables) <= 2 ^ 63 ->
  rearrange_by_label local_tables = Ok rearranged ->
  (p < length local_tables)%nat ->
  (rearranged !! p = Some None /\
   forall t, t ∈ local_tables -> label_index_of t <> Ok (Z.of_nat p)) \/
  (exists t, t ∈ local_tables /\ label_index_of t = Ok (Z.of_nat p) /\
             rearranged !! p = Some (Some t)).
Proof.
  intros Hmax Hrun Hp. unfold rearrange_by_label in Hrun.
  destruct (place_all_content local_tables _ _
              ltac:(rewrite length_replicate; exact Hmax) Hrun)
    as (_ & _ & Hslots).
  destruct (Hslots p) as [[Heq Hno]|Hsome]; [left|now right].
  split; [|exact Hno]. rewrite Heq. now apply lookup_replicate_2.
Qed.

Section Stamped.
Variable meta : Z -> KeyValueMetadata.
Hypothesis meta_declares :
  forall (t : Table) (label : Z),
    0 <= label < 2 ^ 31 ->
    label_index_of (ReplaceSchemaMetadata t (meta label)) = Ok label.

(** Where the loops store the table of file [i] and [label]. *)
Lemma stamped_position (file_num label_num : nat)
    (read : nat -> nat -> Table) (i label : nat) :
  (i < file_num)%nat -> (label < label_num)%nat ->
  stamped meta file_num label_num read !! (i * label_num + label)%nat
  = Some (ReplaceSchemaMetadata (read i label) (meta (Z.of_nat label))).
Proof.
  unfold stamped. intros Hi Hl.
  assert (Hgen : forall n s, (s <= i < s + n)%nat ->
            flat_map (fun i =>
                        map (fun label =>
                               ReplaceSchemaMetadata (read i label)
                                 (meta (Z.of_nat label)))
                            (seq 0 label_num)) (seq s n)
            !! ((i - s) * label_num + label)%nat
            = Some (ReplaceSchemaMetadata (read i label)
                      (meta (Z.of_nat label)))).
  { induction n as [|n IH]; intros s Hs; [lia|]. simpl.
    destruct (decide (i = s)) as [->|Hne].
    - rewrite Nat.sub_diag. simpl. rewrite lookup_app_l
        by (rewrite length_map, length_seq; exact Hl).
      change (map ?f ?l) with (f <$> l).
      rewrite list_lookup_fmap, lookup_seq_lt by exact Hl. reflexivity.
    - rewrite lookup_app_r by (rewrite length_map, length_seq; nia).
      rewrite length_map, length_seq.
      replace ((i - s) * label_num + label - label_num)%nat
        with ((i - S s) * label_num + label)%nat by nia.
      apply IH. lia. }
  specialize (Hgen file_num 0%nat ltac:(lia)).
  now rewrite Nat.sub_0_r in Hgen.
Qed.

(** With one file, slot [label] holds the table stamped [label]. *)
Lemma stamped_lookup (label_num : nat) (read : nat -> nat -> Table)
    (l : nat) (t : Table) :
  stamped meta 1 label_num read !! l = Some t ->
  Z.of_nat label_num <= 2 ^ 31 ->
  label_index_of t = Ok (Z.of_nat l) /\ (l < label_num)%nat.
Proof using meta_declares.
  unfold stamped. simpl. rewrite app_nil_r.
  change (map ?f ?l) with (f <$> l).
  rewrite list_lookup_fmap. intros H Hn.
  destruct (seq 0 label_num !! l) as [label|] eqn:E; [|discriminate].
  apply lookup_seq in E as [-> E]. inversion H; subst t. split; [|exact E].
  apply meta_declares. lia.
Qed.

Lemma rearrange_stamped_tables (label_num : nat)
    (read : nat -> nat -> Table) (arrived : list Table) :
  Z.of_nat label_num <= 2 ^ 31 ->
  arrived ≡ₚ stamped meta 1 label_num read ->
  rearrange_by_label arrived = Ok (Some <$> stamped meta 1 label_num read).
Proof using meta_declares.
  intros Hn Hp.
  set (st := stamped meta 1 label_num read) in *.
  assert (Hlen : length st = label_num).
  { unfold st, stamped. simpl.
    now rewrite app_nil_r, length_map, length_seq. }
  assert (Hd : declares_slots (length st) st).
  { intros t Ht. apply list_elem_of_lookup in Ht as [l Hl].
    destruct (stamped_lookup _ _ _ _ Hl Hn) as [Hi Hlt].
    exists (Z.of_nat l). split; [exact Hi|lia]. }
  assert (Hnd : NoDup (map label_index_of st)).
  { apply NoDup_alt. intros j k x Hj Hk.
    change (map ?f ?l) with (f <$> l) in Hj, Hk.
    rewrite list_lookup_fmap in Hj, Hk.
    destruct (st !! j) as [tj|] eqn:Ej; [|discriminate].
    destruct (st !! k) as [tk|] eqn:Ek; [|discriminate].
    destruct (stamped_lookup _ _ _ _ Ej Hn) as [Hij _].
    destruct (stamped_lookup _ _ _ _ Ek Hn) as [Hik _].
    simpl in Hj, Hk. rewrite Hij in Hj. rewrite Hik in Hk.
    assert (Z.of_nat j = Z.of_nat k) by congruence. lia. }
  destruct (place_all_slots st (replicate (length st) None))
    as (r & Hrun & Hrlen & Hat & _).
  { now rewrite length_replicate. }
  { exact Hnd. }
  rewrite length_replicate in Hrlen.
  assert (Hr : r = Some <$> st).
  { apply list_eq. intros l. rewrite list_lookup_fmap.
    destruct (st !! l) as [t|] eqn:El; simpl.
    - destruct (stamped_lookup _ _ _ _ El Hn) as [Hi _].
      rewrite <- (Nat2Z.id l). apply (Hat t); [|exact Hi].
      apply list_elem_of_lookup. eauto.
    - apply lookup_ge_None. apply lookup_ge_None in El. lia. }
  unfold rearrange_by_label. rewrite (Permutation_length Hp).
  rewrite <- Hr, <- Hrun. symmetry. apply place_all_perm.
  - now symmetry.
  - now rewrite length_replicate.
  - exact Hnd.
Qed.

End Stamped.

(** X14. For an input of a single file, the tables the loaders stamp for
    the labels 0, 1, ..., in whatever order they arrive, are put back in
    label order: the re-indexed list is the list of the stamped tables,
    label by label.  This holds for the vertex stamp and for the edge
    stamp.  (With several files the loaders stamp one label on several
    tables, one per file.) *)
Theorem rearrange_stamped
    (ID_COLUMN SRC_COLUMN DST_COLUMN : string) (label_num : nat)
    (read_v read_e : nat -> nat -> Table)
    (arrived_v arrived_e : list Table) :
  Z.of_nat label_num <= 2 ^ 31 ->
  arrived_v ≡ₚ stamped (vertex_meta ID_COLUMN) 1 label_num read_v ->
  arrived_e
  ≡ₚ stamped (edge_meta SRC_COLUMN DST_COLUMN) 1 label_num read_e ->
  rearrange_by_label arrived_v
  = Ok (Some <$> stamped (vertex_meta ID_COLUMN) 1 label_num read_v) /\
  rearrange_by_label arrived_e
  = Ok (Some <$> stamped (edge_meta SRC_COLUMN DST_COLUMN) 1 label_num
                   read_e).
Proof.
  intros Hn Hv He. split.
  - apply rearrange_stamped_tables; [|exact Hn|exact Hv].
    intros t label Hl. apply vertex_meta_declares. lia.
  - apply rearrange_stamped_tables; [|exact Hn|exact He].
    intros t label Hl. apply edge_meta_declares. lia.
Qed.

End RearrangeMore.

(** ** swapColumn: the other branches *)

Section SwapColumnMore.
Context `{AL : ArrowLib}.

(** X15. The caller's variable changes only when swapColumn returns OK
    with [lhs_index < rhs_index]: with reversed indices (status Invalid),
    an index out of range or a failed Arrow call, it holds what it held
    before. *)
Theorem swapColumn_writes_only_on_success
    (in_ : Table) (lhs_index rhs_index : Z) (held : option Table) :
  snd (swapColumn in_ lhs_index rhs_index held) = held \/
  (fst (swapColumn in_ lhs_index rhs_index held) = Returned Status_OK /\
   lhs_index < rhs_index /\
   is_Some (snd (swapColumn in_ lhs_index rhs_index held))).
Proof.
  unfold swapColumn.
  destruct (Z.eqb_spec lhs_index rhs_index); [now left|].
  destruct (Z.gtb_spec lhs_index rhs_index); [now left|].
  destruct (rhs_index <? 0); [now left|].
  destruct (field (schema in_) (Z.to_nat rhs_index)) as [f|];
    [|now left].
  destruct (column in_ (Z.to_nat rhs_index)) as [col|]; [|now left].
  destruct (RemoveColumn in_ (Z.to_nat rhs_index)) as [in'|]; [|now left].
  destruct (lhs_index <? 0); [now left|].
  destruct (AddColumn in' (Z.to_nat lhs_index) f col) as [t|]; [|now left].
  right. simpl. split; [reflexivity|]. split; [lia|eauto].
Qed.

Lemma moved_to_insert_delete {A : Type} (l r : nat) (xs : list A) (x : A) :
  (l < r)%nat -> xs !! r = Some x ->
  moved_to l r xs (take l (delete r xs) ++ x :: drop l (delete r xs)).
Proof.
  intros Hlr Hx. pose proof (lookup_lt_Some _ _ _ Hx) as Hr.
  assert (Hdl : length (delete r xs) = (length xs - 1)%nat).
  { rewrite length_delete by eauto. reflexivity. }
  assert (Htl : length (take l (delete r xs)) = l).
  { rewrite length_take, Hdl. lia. }
  repeat split.
  - rewrite length_app. simpl. rewrite Htl, length_drop, Hdl. lia.
  - rewrite lookup_app_r by lia. rewrite Htl, Nat.sub_diag. simpl.
    now rewrite Hx.
  - intros k Hk. rewrite lookup_app_l by lia.
    rewrite lookup_take_lt by lia. apply list_lookup_delete_lt. lia.
  - intros k Hk. rewrite lookup_app_r by lia. rewrite Htl.
    replace (S k - l)%nat with (S (k - l)) by lia. simpl.
    rewrite lookup_drop. replace (l + (k - l))%nat with k by lia.
    apply list_lookup_delete_lt. lia.
  - intros k Hk. rewrite lookup_app_r by lia. rewrite Htl.
    destruct k as [|k]; [lia|].
    replace (S k - l)%nat with (S (k - l)) by lia. simpl.
    rewrite lookup_drop. replace (l + (k - l))%nat with k by lia.
    rewrite list_lookup_delete_ge by lia. reflexivity.
Qed.

(** X16. With [0 <= lhs_index < rhs_index] in range, on a table that has
    one column of [num_rows] cells per field, swapColumn returns OK and
    writes a table in which the field and column at [rhs_index] have moved
    to [lhs_index] and those from [lhs_index] to [rhs_index - 1] have moved
    up by one: the column that was at [lhs_index] is at [lhs_index + 1],
    so the two columns change places only when they are neighbours. *)
Theorem swapColumn_moves_column
    (in_ : Table) (lhs_index rhs_index : nat) (held : option Table) :
  length (columns in_) = length (fields (schema in_)) ->
  Forall (fun col => length col = num_rows in_) (columns in_) ->
  (lhs_index < rhs_index < length (fields (schema in_)))%nat ->
  exists out,
    swapColumn in_ (Z.of_nat lhs_index) (Z.of_nat rhs_index) held
    = (Returned Status_OK, Some out) /\
    moved_to lhs_index rhs_index (fields (schema in_)) (fields (schema out)) /\
    moved_to lhs_index rhs_index (columns in_) (columns out) /\
    num_rows out = num_rows in_ /\
    metadata (schema out) = metadata (schema in_).
Proof.
  intros Hwf Hrows [Hlr Hr].
  destruct (lookup_lt_is_Some_2 (fields (schema in_)) rhs_index Hr)
    as [f Hf].
  destruct (lookup_lt_is_Some_2 (columns in_) rhs_index) as [col Hcol];
    [lia|].
  assert (Hcl : length col = num_rows in_).
  { rewrite Forall_forall in Hrows. apply Hrows.
    apply list_elem_of_lookup. eauto. }
  unfold swapColumn.
  destruct (Z.eqb_spec (Z.of_nat lhs_index) (Z.of_nat rhs_index)); [lia|].
  destruct (Z.gtb_spec (Z.of_nat lhs_index) (Z.of_nat rhs_index)); [lia|].
  destruct (Z.ltb_spec (Z.of_nat rhs_index) 0); [lia|].
  destruct (Z.ltb_spec (Z.of_nat lhs_index) 0); [lia|].
  rewrite !Nat2Z.id. unfold field, column. rewrite Hf, Hcol.
  unfold RemoveColumn.
  destruct (Nat.ltb_spec rhs_index (length (fields (schema in_)))); [|lia].
  destruct (Nat.ltb_spec rhs_index (length (columns in_))); [|lia].
  cbn [andb]. unfold AddColumn. cbn [schema fields columns num_rows metadata].
  rewrite length_delete by eauto.
  destruct (Nat.leb_spec lhs_index (length (fields (schema in_)) - 1));
    [|lia].
  rewrite Hcl, Nat.eqb_refl. cbn [andb assign_through at_caller_out].
  eexists. split; [reflexivity|].
  cbn [schema fields columns num_rows metadata].
  split; [now apply moved_to_insert_delete|].
  split; [now apply moved_to_insert_delete|]. split; reflexivity.
Qed.

End SwapColumnMore.

(** ** constructFragmentGroup: bounds and shared workers *)

Section FragmentGroupMore.

(** X17. The coordinator does not check the rank [FragToWorker] gives: a
    topology that sends a fragment id to a rank that is not a worker is
    not refused.  Every worker's call still returns the same group id, the
    group still has exactly one entry per fragment id below [fnum], and
    the entry of such a fragment holds what lies behind the gathered
    vectors at that index. *)
Theorem constructFragmentGroup_rank_out_of_range
    (comm : CommSpec) (clients : list Client) (frag_ids : list ObjectID)
    (past : PastEnd) (v_label_num e_label_num : Z) :
  length clients = worker_num comm ->
  length frag_ids = worker_num comm ->
  (0 < worker_num comm)%nat ->
  let run := run_constructFragmentGroup comm clients frag_ids past
               v_label_num e_label_num in
  exists group_id group,
    (forall rank r, run !! rank = Some r -> fst r = Ok group_id) /\
    (exists root, run !! 0%nat = Some root /\
                  objects (snd root) !! group_id = Some group /\
                  group_id ∈ persisted (snd root)) /\
    dom (fragments group) = set_seq 0 (fnum comm) /\
    (forall i, (i < fnum comm)%nat ->
       (worker_num comm <= FragToWorker comm i)%nat ->
       fragments group !! i
       = Some (past_object_ids past (FragToWorker comm i)) /\
       fragment_locations group !! i
       = Some (past_instance_ids past (FragToWorker comm i))).
Proof.
  intros Hc Hf Hpos run.
  destruct (run_constructFragmentGroup_group comm clients frag_ids past
              v_label_num e_label_num Hc Hf Hpos)
    as (group_id & group & _ & Hall & Hroot & _ & Hfr & Hloc).
  fold run in Hall, Hroot.
  exists group_id, group.
  split; [exact Hall|]. split; [exact Hroot|]. split.
  - apply set_eq. intros i. rewrite elem_of_dom, elem_of_set_seq, Hfr.
    destruct (decide (i < fnum comm)%nat); split; try lia; eauto.
    intros [? ?]. discriminate.
  - intros i Hi Hout. rewrite Hfr, Hloc, !decide_True by exact Hi.
    rewrite !vector_at_past; [auto| |]; [rewrite length_map|]; lia.
Qed.

(** X18. At the coordinator, a successful call stores a group in which
    two fragment ids served by the same worker have the same object id and
    the same instance id: the entries of the group are pairwise distinct
    only if [FragToWorker] is injective below [fnum]. *)
Theorem constructFragmentGroup_shared_worker
    (client : Client) (frag_id : ObjectID) (comm_spec : CommSpec)
    (v_label_num e_label_num : Z) (net : GroupNet)
    (group_id : ObjectID) (client' : Client) (i j : nat) :
  worker_id comm_spec = 0%nat ->
  constructFragmentGroup client frag_id comm_spec v_label_num e_label_num net
  = (Ok group_id, client') ->
  (i < fnum comm_spec)%nat -> (j < fnum comm_spec)%nat ->
  FragToWorker comm_spec i = FragToWorker comm_spec j ->
  exists group,
    objects client' !! group_id = Some group /\
    total_frag_num group = fnum comm_spec /\
    is_Some (fragments group !! i) /\
    fragments group !! i = fragments group !! j /\
    fragment_locations group !! i = fragment_locations group !! j.
Proof.
  intros Hw Hrun Hi Hj Hij. unfold constructFragmentGroup in Hrun.
  rewrite Hw in Hrun. cbn [Nat.eqb] in Hrun.
  set (builder0 := set_edge_label_num e_label_num
                     (set_vertex_label_num v_label_num
                        (set_total_frag_num (fnum comm_spec)
                           new_group_builder))) in *.
  set (b := add_fragments comm_spec net (seq 0 (fnum comm_spec)) builder0)
    in *.
  unfold Seal, Persist in Hrun. cbn [objects instance_id persisted] in Hrun.
  rewrite lookup_insert_eq in Hrun. inversion Hrun; subst; clear Hrun.
  cbn [objects]. exists b. rewrite lookup_insert_eq.
  split; [reflexivity|].
  destruct (add_fragments_entries comm_spec net (seq 0 (fnum comm_spec))
              builder0) as (Ht & Hfr & Hloc).
  fold b in Ht, Hfr, Hloc.
  split; [exact Ht|].
  rewrite !Hfr, !Hloc.
  rewrite !decide_True by (apply elem_of_seq; lia).
  rewrite Hij. split; [eauto|split; reflexivity].
Qed.

End FragmentGroupMore.

(** ** The graph schema built from the re-indexed tables *)

Section GraphSchemaFacts.
Context `{AL : ArrowLib}.

Lemma properties_from_drop (table : Table) (first : nat) :
  num_columns table = num_fields (schema table) ->
  properties_from table first
  = Ok (map (fun f => (name f, type f))
            (drop first (fields (schema table)))).
Proof.
  intros Hwf. unfold properties_from.
  assert (Hm : mapM (fun i => f ← field (schema table) i;
                              Some (name f, type f))
                 (seq first (num_columns table - first))
               = Some (map (fun f => (name f, type f))
                           (drop first (fields (schema table))))).
  { apply mapM_Some_2, Forall2_same_length_lookup_2.
    - rewrite length_seq, length_map, length_drop, Hwf. reflexivity.
    - intros i j y Hj Hy. apply lookup_seq in Hj as [-> _].
      change (map ?g ?l) with (g <$> l) in Hy.
      rewrite list_lookup_fmap, lookup_drop in Hy. unfold field.
      destruct (fields (schema table) !! (first + i)%nat) as [f|];
        [|discriminate].
      simpl in Hy |- *. congruence. }
  now rewrite Hm.
Qed.

(** X19. On a table with one column per field and with metadata, no
    field is read out of range and the entries are built: the vertex entry
    has the label and type of the metadata and, as properties, the names
    and types of all fields in order; the edge entry, where the relations
    are read, has as properties the fields after the first two, none for a
    table of two columns or fewer. *)
Theorem entry_properties_of_table (table : Table) (meta : KeyValueMetadata) :
  num_columns table = num_fields (schema table) ->
  metadata (schema table) = Some meta ->
  vertex_entry (Some table)
  = Ok {| entry_label := kvs_at meta "label";
          entry_type := kvs_at meta "type";
          entry_relations := [];
          entry_properties :=
            map (fun f => (name f, type f)) (fields (schema table)) |} /\
  (forall relations, relations_of meta = Ok relations ->
     edge_entry (Some table)
     = Ok {| entry_label := kvs_at meta "label";
             entry_type := kvs_at meta "type";
             entry_relations := relations;
             entry_properties :=
               map (fun f => (name f, type f))
                   (drop 2 (fields (schema table))) |}) /\
  ((num_columns table <= 2)%nat -> properties_from table 2 = Ok []).
Proof.
  intros Hwf Hmeta. unfold vertex_entry, edge_entry. rewrite Hmeta.
  rewrite !(properties_from_drop table _ Hwf). rewrite drop_0.
  split; [reflexivity|]. split.
  - intros relations ->. reflexivity.
  - intros Hle. rewrite drop_ge; [reflexivity|].
    unfold num_fields in Hwf. lia.
Qed.

Lemma entries_of_Ok (entry : option Table -> result Entry)
    (tables : list (option Table)) (es : list Entry) :
  entries_of entry tables = Ok es ->
  Forall2 (fun table e => entry table = Ok e) tables es.
Proof.
  revert es. induction tables as [|table tables IH]; intros es H;
    simpl in H.
  - inversion H. constructor.
  - destruct (entry table) as [e| | | |] eqn:He; try discriminate.
    destruct (entries_of entry tables) as [es'| | | |]; try discriminate.
    inversion H; subst es. constructor; [exact He|]. now apply IH.
Qed.

(** X20. The schema is built only if every slot of the two re-indexed
    lists holds a table whose schema has metadata: a null slot, left by a
    label no table arrived for, is dereferenced.  When it is built it has
    the fragment count it was given and one entry per table, the vertex
    entries first. *)
Theorem build_schema_success
    (fnum : nat) (local_v_tables local_e_tables : list (option Table))
    (s : PropertyGraphSchema) :
  build_schema fnum local_v_tables local_e_tables = Ok s ->
  (forall slot, slot ∈ local_v_tables ++ local_e_tables ->
     exists table meta,
       slot = Some table /\ metadata (schema table) = Some meta) /\
  schema_fnum s = fnum /\
  length (schema_entries s)
  = (length local_v_tables + length local_e_tables)%nat.
Proof.
  unfold build_schema. intros H.
  destruct (entries_of vertex_entry local_v_tables) as [vs| | | |] eqn:Hv;
    try discriminate.
  destruct (entries_of edge_entry local_e_tables) as [es| | | |] eqn:He;
    try discriminate.
  inversion H; subst s; clear H. cbn [schema_fnum schema_entries].
  apply entries_of_Ok in Hv, He.
  split; [|split; [reflexivity|]].
  - intros slot Hslot. apply elem_of_app in Hslot as [Hs|Hs];
      apply list_elem_of_lookup in Hs as [k Hk].
    + destruct (Forall2_lookup_l _ _ _ _ _ Hv Hk) as (e & _ & Hentry).
      unfold vertex_entry in Hentry.
      destruct slot as [table|]; [|discriminate].
      destruct (metadata (schema table)) as [meta|] eqn:Em; [|discriminate].
      exists table, meta. auto.
    + destruct (Forall2_lookup_l _ _ _ _ _ He Hk) as (e & _ & Hentry).
      unfold edge_entry in Hentry.
      destruct slot as [table|]; [|discriminate].
      destruct (metadata (schema table)) as [meta|] eqn:Em; [|discriminate].
      exists table, meta. auto.
  - rewrite length_app.
    now rewrite (Forall2_length _ _ _ Hv), (Forall2_length _ _ _ He).
Qed.

Section StampedEdges.
Variables SRC_COLUMN DST_COLUMN : string.
Hypothesis src_key : SRC_COLUMN <> "src_label_0"%string.
Hypothesis dst_key : DST_COLUMN <> "src_label_0"%string.

Lemma edge_meta_no_src_label (label : Z) :
  relation_at (edge_meta SRC_COLUMN DST_COLUMN label) (Z.of_nat 0) = None.
Proof using src_key dst_key.
  unfold relation_at.
  change ("src_label_" ++ to_string (Z.of_nat 0))%string
    with "src_label_0"%string.
  assert (Hk : FindKey (edge_meta SRC_COLUMN DST_COLUMN label) "src_label_0"
               = -1).
  { unfold edge_meta. cbn [FindKey].
    change ("type" =? "src_label_0")%string with false.
    change ("label" =? "src_label_0")%string with false.
    change ("label_index" =? "src_label_0")%string with false.
    change ("sub_label_num" =? "src_label_0")%string with false.
    rewrite (proj2 (String.eqb_neq _ _) src_key).
    rewrite (proj2 (String.eqb_neq _ _) dst_key).
    reflexivity. }
  unfold kvs_at at 1. rewrite Hk. reflexivity.
Qed.

Lemma edge_meta_relations (label : Z) :
  relations_of (edge_meta SRC_COLUMN DST_COLUMN label) = Ok [].
Proof using src_key dst_key.
  unfold relations_of.
  change (kvs_at (edge_meta SRC_COLUMN DST_COLUMN label) "sub_label_num")
    with "1"%string.
  change (empty "1") with false. change (stoi "1") with (Some 1).
  cbv beta iota. change (Z.to_nat 1) with 1%nat.
  change (seq 0 1) with [0%nat].
  change (omap ?f [0%nat])
    with (match f 0%nat with Some y => [y] | None => [] end).
  cbv beta. now rewrite edge_meta_no_src_label.
Qed.

(** X21. An edge table stamped by loadEdgeTables yields a schema entry
    without relations: the stamp announces one relation
    ("sub_label_num" is "1") but carries no "src_label_0", so the lookup
    gives the empty string and AddRelation is not called.  The entry has
    the type "EDGE" and the label "_".  (The two column keys are assumed
    not to be named "src_label_0".) *)
Theorem stamped_edge_entry (table : Table) (label : Z) (e : Entry) :
  edge_entry (Some (ReplaceSchemaMetadata table
                      (edge_meta SRC_COLUMN DST_COLUMN label))) = Ok e ->
  entry_relations e = [] /\
  entry_type e = "EDGE"%string /\
  entry_label e = "_"%string.
Proof using src_key dst_key.
  unfold edge_entry, ReplaceSchemaMetadata. cbn [schema metadata].
  rewrite edge_meta_relations.
  destruct (properties_from _ 2); try discriminate.
  intros H. inversion H. cbn [entry_relations entry_type entry_label].
  split; [reflexivity|]. split; reflexivity.
Qed.

End StampedEdges.

End GraphSchemaFacts.

(** ** The sample instance satisfies the assumptions made of Arrow *)

Module SampleFacts.
Import Sample StrOrd StrOrdFacts.

Lemma sample_Equals_canonical (a b : @DataType arrow) :
  @Equals arrow a b = true <-> @ToString arrow a = @ToString arrow b.
Proof. destruct a, b; vm_compute; split; congruence. Qed.

Lemma sample_sort_perm (l : list (@Field arrow)) :
  @std_sort arrow Field type_string_lt l ≡ₚ l.
Proof. apply merge_sort_Permutation. Qed.

Lemma sample_sort_sorted (l : list (@Field arrow)) :
  StronglySorted (fun x y => type_string_lt y x = false)
                 (@std_sort arrow Field type_string_lt l).
Proof.
  apply StronglySorted_merge_sort.
  - intros x y z Hxy Hyz. exact (le_trans _ _ _ Hxy Hyz).
  - intros x y. exact (le_total _ _).
Qed.

(** Two shards disagree on [age], one occurrence each: the tie goes to
    "double", which sorts before "int64". *)
Example FindMostCommonSchema_tie :
  @FindMostCommonSchema arrow [Some schema_int; None; Some schema_double]
  = Some schema_double.
Proof. vm_compute. reflexivity. Qed.

Example FindMostCommonSchema_majority :
  @FindMostCommonSchema arrow
    [Some schema_double; Some schema_int; Some schema_int]
  = Some schema_int.
Proof. vm_compute. reflexivity. Qed.

(** A schema narrower than the first one is read out of range. *)
Example FindMostCommonSchema_narrow :
  @FindMostCommonSchema arrow
    [Some schema_int; Some (@mkSchema arrow [id_field] None)]
  = None.
Proof. vm_compute. reflexivity. Qed.

Example run_SyncSchema_three :
  map (@status arrow) (@run_SyncSchema arrow ipc builder comm3 tables3)
  = [Ok tt; Ok tt; Ok tt].
Proof. vm_compute. reflexivity. Qed.

(** A worker without table, where the builder refuses the final schema:
    the call returns the builder's failure. *)
Example SyncSchema_builder_fails :
  @status arrow
    (@SyncSchema arrow ipc builder None (at_rank comm3 1) net_final_null)
  = Err kVineyardError "Unsupported type: null".
Proof. vm_compute. reflexivity. Qed.

(** Four sizes of 2^30 bytes add up to 2^32, which is 0 in 32 bits: the
    coordinator reports that all schemas are empty. *)
Example coordinate_sum_wraps :
  @coordinate arrow ipc [2 ^ 30; 2 ^ 30; 2 ^ 30; 2 ^ 30] []
  = Err kIOError "All schema is empty".
Proof. vm_compute. reflexivity. Qed.

Example rearrange_arrived :
  rearrange_by_label arrived = Ok [Some (labelled "0"); Some (labelled "1")].
Proof. vm_compute. reflexivity. Qed.

(** With different indices the caller's variable is written. *)
Example swapColumn_moves :
  fst (swapColumn table_int 0 1 None) = Returned Status_OK /\
  (schema <$> snd (swapColumn table_int 0 1 None))
  = Some (@mkSchema arrow [age_int; id_field] None).
Proof. vm_compute. split; reflexivity. Qed.

(** With the vertices of worker 0 split over two files, the vertex of the
    second file reaches its owner as well. *)
Example shuffle_two_files :
  ShuffleVertexTables id_hash (Init 2) 2 1 v_inputs_files
  = [[[(2%N, tt); (4%N, tt)]]; [[(1%N, tt); (5%N, tt); (3%N, tt)]]].
Proof. vm_compute. reflexivity. Qed.

Example shuffle_stage_scenario :
  shuffle_stage id_hash (Init 2) 2 1 1 v_inputs2 e_inputs2
  = Ok ([[[(2%N, tt); (4%N, tt)]]; [[(1%N, tt); (3%N, tt)]]],
        [[[]];
         [[({| gid_fid := 1; gid_offset := 0 |},
            {| gid_fid := 0; gid_offset := 0 |}, tt);
           ({| gid_fid := 1; gid_offset := 1 |},
            {| gid_fid := 0; gid_offset := 1 |}, tt)]]]).
Proof. vm_compute. reflexivity. Qed.

End SampleFacts.

(** ** The theorems at the sample inputs *)

Import Sample SampleFacts.

Lemma shuffle_stage_exactly_once_witness :
  exists local_v_tables local_e_tables,
    shuffle_stage id_hash (snd (initPartitioner (comm2 0))) 2 1 1
      v_inputs_files e_inputs2 = Ok (local_v_tables, local_e_tables) /\
    (5%N, tt) ∈ owned local_v_tables 1 0 /\
    concat (map (holds local_v_tables 1) (seq 0 2))
    ≡ₚ every_row v_inputs_files.
Proof.
  assert (Hvl : labels_below (Row := N * unit) 1 v_inputs_files).
  { intros tables table H1 H2. unfold v_inputs_files in H1.
    repeat match goal with
           | H : _ ∈ _ :: _ |- _ => apply elem_of_cons in H as [H|H]; subst
           | H : _ ∈ [] |- _ => inversion H
           end; cbn; lia. }
  assert (Hel : labels_below (Row := N * N * unit) 1 e_inputs2).
  { intros tables table H1 H2. unfold e_inputs2 in H1.
    repeat match goal with
           | H : _ ∈ _ :: _ |- _ => apply elem_of_cons in H as [H|H]; subst
           | H : _ ∈ [] |- _ => inversion H
           end; cbn; lia. }
  assert (Hknown : endpoints_known (OID := N) (Props := unit)
                     v_inputs_files e_inputs2).
  { intros tables table e oid H1 H2 H3 Hor.
    unfold e_inputs2 in H1.
    repeat match goal with
           | H : _ ∈ _ :: _ |- _ => apply elem_of_cons in H as [H|H]; subst
           | H : _ ∈ [] |- _ => inversion H
           end; cbn [snd] in H3;
      repeat match goal with
             | H : _ ∈ _ :: _ |- _ => apply elem_of_cons in H as [H|H]; subst
             | H : _ ∈ [] |- _ => inversion H
             end; cbn [fst snd] in Hor.
    - exists [(0%nat, [(1%N, tt); (2%N, tt)]); (0%nat, [(5%N, tt)])],
             (0%nat, [(1%N, tt); (2%N, tt)]), tt.
      split; [apply list_elem_of_here|].
      split; [apply list_elem_of_here|].
      destruct Hor as [->| ->]; apply list_elem_of_In; cbn; tauto.
    - exists [(0%nat, [(3%N, tt); (4%N, tt)])],
             (0%nat, [(3%N, tt); (4%N, tt)]), tt.
      split; [apply list_elem_of_further, list_elem_of_here|].
      split; [apply list_elem_of_here|].
      destruct Hor as [->| ->]; apply list_elem_of_In; cbn; tauto. }
  destruct (shuffle_stage_exactly_once id_hash (comm2 0) 1 1
              v_inputs_files e_inputs2 ltac:(cbn; lia) Hvl Hel Hknown)
    as (vout & eout & Hrun & Hrow & _ & Hall & _).
  exists vout, eout. split; [exact Hrun|]. split; [|exact Hall].
  exact (Hrow [(0%nat, [(1%N, tt); (2%N, tt)]); (0%nat, [(5%N, tt)])]
              (0%nat, [(5%N, tt)]) (5%N, tt)
              ltac:(apply list_elem_of_here)
              ltac:(apply list_elem_of_further, list_elem_of_here)
              ltac:(apply list_elem_of_here)).
Defined.



Lemma SyncSchema_reconciles_witness :
  (exists r,
     @run_SyncSchema arrow ipc builder comm3 tables3 !! 1%nat = Some r /\
     status r = Ok tt /\
     exists t', table_after r = Some t' /\
                schema t' = final_int /\ num_rows t' = 0%nat) /\
  (exists t',
     table_after
       (@SyncSchema arrow ipc builder (Some table_id) (at_rank comm3 1)
          net_final_int) = Some t' /\
     schema t' = final_int /\
     columns t' !! 0%nat = Some [Some 1; Some 2] /\
     columns t' !! 1%nat = Some [None; None]).
Proof.
  split.
  - pose proof (@SyncSchema_reconciles arrow ipc builder None
                  (at_rank comm3 1)
                  {| gathered_sizes := map (@local_size arrow ipc) tables3;
                     gathered_buffers :=
                       map (@local_schema_buffer arrow ipc) tables3;
                     broadcast := Some (write_schema final_int) |}
                  final_int ltac:(cbn; lia)
                  ltac:(exists (write_schema final_int); split;
                        vm_compute; reflexivity)) as H.
    cbv zeta in H.
    change (@Build_status arrow builder final_int) with (@None string) in H.
    cbv beta iota in H. destruct H as (Hst & t' & Ht & Hs & Hr & _).
    eexists. split; [vm_compute; reflexivity|].
    split; [exact Hst|]. exists t'. auto.
  - assert (E : exists t', @PromoteTableToSchema arrow table_id final_int
                           = Some t').
    { vm_compute. eauto. }
    destruct E as (t' & E).
    pose proof (@SyncSchema_reconciles arrow ipc builder (Some table_id)
                  (at_rank comm3 1) net_final_int final_int
                  ltac:(cbn; lia)
                  ltac:(exists (write_schema final_int); split;
                        vm_compute; reflexivity)) as H.
    cbv zeta beta iota in H. rewrite E in H.
    destruct H as (_ & Ht & Hs & _ & Hkeep & Hnull).
    exists t'. split; [exact Ht|]. split; [exact Hs|]. split.
    + destruct (Hkeep 0%nat id_field [Some 1; Some 2] eq_refl eq_refl
                  eq_refl) as (k & f' & Hk & Hname & Hcol).
      rewrite Hs in Hk. destruct k as [|[|k]]; try discriminate Hk.
      * exact Hcol.
      * inversion Hk; subst f'. discriminate Hname.
    + apply (Hnull 1%nat age_int); [now rewrite Hs|].
      intros f Hf. unfold table_id in Hf. cbn in Hf.
      apply list_elem_of_singleton in Hf. subst f. discriminate.
Defined.

Lemma SyncSchema_all_empty_witness :
  exists r0,
    @run_SyncSchema arrow ipc builder comm3 [None; None; None] !! 0%nat
    = Some r0 /\
    status r0 = Err kIOError "All schema is empty".
Proof.
  refine (proj1 (@SyncSchema_all_empty arrow ipc builder comm3
                   [None; None; None] eq_refl ltac:(cbn; lia) _)).
  intros table Ht.
  repeat match goal with
         | H : _ ∈ _ :: _ |- _ => apply elem_of_cons in H as [H|H]; subst
         | H : _ ∈ [] |- _ => inversion H
         end; reflexivity.
Defined.

Lemma rearrange_by_label_slots_witness :
  exists rearranged,
    rearrange_by_label arrived = Ok rearranged /\
    length rearranged = 2%nat.
Proof.
  assert (Hd : declares_slots (length arrived) arrived).
  { intros t Ht. unfold arrived in Ht.
    repeat match goal with
           | H : _ ∈ _ :: _ |- _ => apply elem_of_cons in H as [H|H]; subst
           | H : _ ∈ [] |- _ => inversion H
           end.
    - exists 1. split; [vm_compute; reflexivity|cbn; lia].
    - exists 0. split; [vm_compute; reflexivity|cbn; lia]. }
  assert (Hnd : NoDup (map label_index_of arrived)).
  { change (NoDup [@Ok Z 1; @Ok Z 0]).
    apply NoDup_cons. split.
    - intros H. apply list_elem_of_singleton in H. discriminate.
    - apply NoDup_singleton. }
  destruct (rearrange_by_label_slots arrived Hd Hnd)
    as (r & Hrun & Hlen & _).
  exists r. split; [exact Hrun|exact Hlen].
Defined.

Lemma constructFragmentGroup_entries_witness :
  exists group_id group,
    (forall rank r,
       run_constructFragmentGroup comm3_reversed clients3 frag_ids3 past9
         1 1 !! rank = Some r -> fst r = Ok group_id) /\
    size (fragments group) = 3%nat /\
    fragments group !! 0%nat = Some 102%N.
Proof.
  destruct (constructFragmentGroup_entries comm3_reversed clients3 frag_ids3
              past9 1 1 eq_refl eq_refl ltac:(cbn; lia)
              ltac:(intros i Hi; cbn in *; lia))
    as (gid & group & _ & Hall & _ & Hsize & _ & Hentry).
  exists gid, group. split; [exact Hall|]. split; [exact Hsize|].
  destruct (Hentry 0%nat ltac:(cbn; lia)) as (_ & _ & Hf & _).
  exact Hf.
Defined.

Lemma FindMostCommonSchema_uniform_witness :
  exists final,
    @FindMostCommonSchema arrow [None; Some schema_int; Some schema_int]
    = Some final /\
    fields final = fields schema_int.
Proof.
  refine (FindMostCommonSchema_uniform sample_sort_perm schema_int
            [None; Some schema_int; Some schema_int] _ _).
  - intros os Hos.
    repeat match goal with
           | H : _ ∈ _ :: _ |- _ => apply elem_of_cons in H as [H|H]; subst
           | H : _ ∈ [] |- _ => inversion H
           end; auto.
  - apply list_elem_of_further, list_elem_of_here.
Defined.

Lemma SyncSchema_single_worker_witness :
  @SyncSchema arrow ipc builder (Some table_int)
    {| worker_id := 0; worker_num := 1; fid := 0; fnum := 1;
       FragToWorker := fun i => i |}
    {| gathered_sizes := []; gathered_buffers := []; broadcast := None |}
  = {| status := Ok tt; table_after := Some table_int; calls := [] |}.
Proof.
  exact (@SyncSchema_single_worker arrow ipc builder (Some table_int)
           {| worker_id := 0; worker_num := 1; fid := 0; fnum := 1;
              FragToWorker := fun i => i |}
           {| gathered_sizes := []; gathered_buffers := [];
              broadcast := None |} eq_refl).
Defined.

Lemma swapColumn_equal_indices_witness :
  swapColumn table_int 1 1 None = (Returned Status_OK, None).
Proof.
  exact (swapColumn_equal_indices table_int 1 1 None eq_refl).
Defined.

(** ** The further properties at the sample inputs *)

Ltac elem_cases :=
  repeat match goal with
         | H : _ ∈ _ :: _ |- _ => apply elem_of_cons in H as [H|H]
         | H : _ ∈ [] |- _ => inversion H
         | H : Some _ = Some _ |- _ => inversion H; clear H; subst
         | H : Some _ = None |- _ => discriminate H
         | H : None = Some _ |- _ => discriminate H
         end.

Lemma FindMostCommonSchema_defined_iff_witness :
  is_Some (@FindMostCommonSchema arrow
             [Some schema_int; Some (@mkSchema arrow [id_field] None)])
  <-> wide_enough [Some schema_int; Some (@mkSchema arrow [id_field] None)].
Proof.
  exact (FindMostCommonSchema_defined_iff sample_sort_perm
           [Some schema_int; Some (@mkSchema arrow [id_field] None)]).
Defined.

Lemma FindMostCommonSchema_no_schema_witness :
  @FindMostCommonSchema arrow [None; None]
  = Some {| fields := []; metadata := None |}.
Proof.
  apply FindMostCommonSchema_no_schema.
  intros os Hos. elem_cases; subst; reflexivity.
Defined.

Lemma FindMostCommonSchema_majority_type_witness :
  @Equals arrow (type age_int) INT64 = true.
Proof.
  refine (FindMostCommonSchema_majority_type sample_Equals_canonical
            sample_sort_perm sample_sort_sorted schemas_majority
            schema_int 1%nat age_int INT64 _ _ _).
  - vm_compute. reflexivity.
  - reflexivity.
  - vm_compute. reflexivity.
Defined.

Lemma FindMostCommonSchema_rank_order_witness :
  @Equals arrow (type age_int) (type age_int) = true.
Proof.
  refine (FindMostCommonSchema_rank_order sample_Equals_canonical
            sample_sort_perm sample_sort_sorted
            schemas_majority
            [Some schema_int; Some schema_double; Some schema_int]
            schema_int schema_int 1%nat age_int age_int _ _ _ _ _).
  - apply perm_swap.
  - vm_compute. reflexivity.
  - vm_compute. reflexivity.
  - reflexivity.
  - reflexivity.
Defined.

Lemma gather_layout_round_trip_witness :
  total_length [2; 0; 1] = 3 /\
  zip_with (slice (concat sent3)) (displacements 0 [2; 0; 1]) [2; 0; 1]
  = sent3.
Proof.
  destruct (gather_layout_round_trip [2; 0; 1] sent3
              ltac:(repeat constructor) ltac:(reflexivity))
    as (Hlen & _ & Hcut).
  split; [exact Hlen|exact Hcut].
Defined.

Lemma coordinate_error_iff_witness :
  @coordinate arrow ipc [0; 0] [[]; []]
    = Err kIOError "All schema is empty"
  <-> Forall (fun c => c = 0) [0; 0].
Proof.
  refine (proj1 (@coordinate_error_iff arrow ipc [0; 0] [[]; []] _ _)).
  - repeat constructor; lia.
  - reflexivity.
Defined.

Lemma coordinate_decides_on_local_schemas_witness :
  @coordinate arrow ipc (map (@local_size arrow ipc) tables3)
    (map (@local_schema_buffer arrow ipc) tables3)
  = Ok (final_int, write_schema final_int).
Proof.
  assert (Hrt : forall t : @Table arrow, Some t ∈ tables3 ->
            @ipc_ReadSchema arrow ipc
              (@ipc_SerializeSchema arrow ipc (schema t))
            = Some (schema t)).
  { intros t Ht. unfold tables3 in Ht. elem_cases; vm_compute; reflexivity. }
  assert (Hfit : @sizes_fit arrow ipc tables3).
  { intros t Ht. unfold tables3 in Ht. elem_cases; vm_compute; split;
      reflexivity. }
  assert (Htotal : @total_fits arrow ipc tables3).
  { vm_compute. reflexivity. }
  assert (Hin : Some table_int ∈ tables3) by apply list_elem_of_here.
  rewrite (@coordinate_decides_on_local_schemas arrow ipc tables3 table_int
             Hrt Hfit Htotal Hin).
  vm_compute. reflexivity.
Defined.

Lemma SyncSchema_failure_keeps_table_witness :
  table_after
    (@SyncSchema arrow ipc builder (Some table_int) (at_rank comm3 1)
       {| gathered_sizes := []; gathered_buffers := []; broadcast := None |})
  = Some table_int /\
  table_after
    (@SyncSchema arrow ipc builder None (at_rank comm3 1) net_final_null)
  = None.
Proof.
  split.
  - destruct (@SyncSchema_failure_keeps_table arrow ipc builder
                (Some table_int) (at_rank comm3 1)
                {| gathered_sizes := []; gathered_buffers := [];
                   broadcast := None |} eq_refl)
      as [H|[H _]]; [exact H|discriminate H].
  - destruct (@SyncSchema_failure_keeps_table arrow ipc builder
                None (at_rank comm3 1) net_final_null eq_refl)
      as [H|(_ & final & msg & _ & _ & _ & H)]; [exact H|].
    rewrite H. reflexivity.
Defined.

Lemma run_SyncSchema_success_witness :
  exists r,
    @run_SyncSchema arrow ipc builder comm3 tables3 !! 1%nat = Some r /\
    calls r = [MPI_Gather; MPI_Gatherv; MPI_Bcast; MPI_Bcast] /\
    is_Some (table_after r).
Proof.
  destruct (lookup_lt_is_Some_2
              (@run_SyncSchema arrow ipc builder comm3 tables3) 1)
    as [r Hr]; [vm_compute; lia|].
  exists r. split; [exact Hr|].
  refine (proj2 (@run_SyncSchema_success arrow ipc builder comm3 tables3 r
                   eq_refl ltac:(cbn; lia) _ _)).
  - apply list_elem_of_lookup. eauto.
  - vm_compute in Hr. inversion Hr. reflexivity.
Defined.

Lemma stamped_label_index_witness :
  label_index_of (ReplaceSchemaMetadata table_int
                    (vertex_meta "id_column" 5)) = Ok 5.
Proof.
  exact (proj1 (stamped_label_index "id_column" "src_column" "dst_column"
                  table_int 5 ltac:(lia))).
Defined.

Lemma rearrange_by_label_success_witness :
  declares_slots (length arrived) arrived.
Proof.
  refine (proj1 (rearrange_by_label_success arrived
                   [Some (labelled "0"); Some (labelled "1")] _ _)).
  - cbn. lia.
  - vm_compute. reflexivity.
Defined.

Lemma rearrange_by_label_slot_content_witness :
  exists t, t ∈ arrived /\ label_index_of t = Ok 0.
Proof.
  destruct (rearrange_by_label_slot_content arrived
              [Some (labelled "0"); Some (labelled "1")] 0
              ltac:(cbn; lia) ltac:(vm_compute; reflexivity)
              ltac:(cbn; lia)) as [[Hnull _]|(t & Ht & Hi & _)].
  - discriminate Hnull.
  - exists t. split; [exact Ht|exact Hi].
Defined.

Lemma rearrange_stamped_witness :
  rearrange_by_label
    [ReplaceSchemaMetadata table_int (vertex_meta "id_column" 1);
     ReplaceSchemaMetadata table_id (vertex_meta "id_column" 0)]
  = Ok [Some (ReplaceSchemaMetadata table_id (vertex_meta "id_column" 0));
        Some (ReplaceSchemaMetadata table_int (vertex_meta "id_column" 1))].
Proof.
  refine (proj1 (rearrange_stamped "id_column" "src_column" "dst_column"
                   2 (fun _ label => if label is O then table_id
                                     else table_int)
                   (fun _ _ => table_int) _
                   (stamped (edge_meta "src_column" "dst_column") 1 2
                      (fun _ _ => table_int)) _ _ _)).
  - cbn. lia.
  - apply perm_swap.
  - reflexivity.
Defined.

Lemma swapColumn_moves_column_witness :
  exists out,
    swapColumn table_int 0 1 None = (Returned Status_OK, Some out) /\
    moved_to 0 1 (fields (schema table_int)) (fields (schema out)).
Proof.
  destruct (swapColumn_moves_column table_int 0 1 None eq_refl
              ltac:(repeat constructor) ltac:(cbn; lia))
    as (out & Hrun & Hf & _).
  exists out. split; [exact Hrun|exact Hf].
Defined.

Lemma constructFragmentGroup_rank_out_of_range_witness :
  exists group_id group,
    (forall rank r,
       run_constructFragmentGroup comm_stray clients3 frag_ids3 past9 1 1
         !! rank = Some r -> fst r = Ok group_id) /\
    dom (fragments group) = set_seq 0 3 /\
    fragments group !! 2%nat = Some 999%N /\
    fragment_locations group !! 2%nat = Some 9%N.
Proof.
  destruct (constructFragmentGroup_rank_out_of_range comm_stray clients3
              frag_ids3 past9 1 1 eq_refl eq_refl ltac:(cbn; lia))
    as (group_id & group & Hall & _ & Hdom & Hpast).
  exists group_id, group. split; [exact Hall|]. split; [exact Hdom|].
  exact (Hpast 2%nat ltac:(cbn; lia) ltac:(cbn; lia)).
Defined.

Lemma constructFragmentGroup_shared_worker_witness :
  exists group_id client' group,
    constructFragmentGroup (client_of 7) 100%N comm_all0 1 1 net3
    = (Ok group_id, client') /\
    objects client' !! group_id = Some group /\
    fragments group !! 0%nat = fragments group !! 2%nat.
Proof.
  assert (E : exists group_id client',
            constructFragmentGroup (client_of 7) 100%N comm_all0 1 1 net3
            = (Ok group_id, client')).
  { vm_compute. eauto. }
  destruct E as (group_id & client' & E).
  destruct (constructFragmentGroup_shared_worker (client_of 7) 100%N
              comm_all0 1 1 net3 group_id client' 0 2 eq_refl E
              ltac:(cbn; lia) ltac:(cbn; lia) eq_refl)
    as (group & Hg & _ & _ & Hf & _).
  exists group_id, client', group. auto.
Defined.

Lemma entry_properties_of_table_witness :
  @vertex_entry arrow (Some (labelled "0"))
  = Ok (@Build_Entry arrow "_" "VERTEX" []
          [("id"%string, INT64); ("age"%string, INT64)])
  /\ @properties_from arrow edge_table 2 = Ok [].
Proof.
  destruct (@entry_properties_of_table arrow (labelled "0") _
              eq_refl eq_refl) as (Hv & _ & _).
  destruct (@entry_properties_of_table arrow edge_table _
              eq_refl eq_refl) as (_ & _ & He).
  split; [exact Hv|]. apply He. cbn. lia.
Defined.

Lemma build_schema_success_witness :
  exists s, @build_schema arrow 2 [Some (labelled "0")] [Some edge_table]
            = Ok s /\
            length (schema_entries s) = 2%nat.
Proof.
  assert (E : exists s,
            @build_schema arrow 2 [Some (labelled "0")] [Some edge_table]
            = Ok s).
  { vm_compute. eauto. }
  destruct E as (s & E). exists s. split; [exact E|].
  exact (proj2 (proj2 (@build_schema_success arrow 2 _ _ s E))).
Defined.

Lemma stamped_edge_entry_witness :
  exists e, @edge_entry arrow (Some edge_table) = Ok e /\
            entry_relations e = [] /\
            entry_label e = "_"%string.
Proof.
  assert (E : exists e, @edge_entry arrow (Some edge_table) = Ok e).
  { vm_compute. eauto. }
  destruct E as (e & He). exists e. split; [exact He|].
  assert (H : entry_relations e = [] /\ entry_type e = "EDGE"%string /\
              entry_label e = "_"%string).
  { refine (@stamped_edge_entry arrow "src_column" "dst_column" _ _
              table_int 0 e He); discriminate. }
  destruct H as (Hr & _ & Hl). split; assumption.
Defined.
